(** * Correlation game: the statistics engine, the sample generator and the
    guess check of [app.js], embedded in Rocq.

    A JavaScript number is an IEEE-754 binary64 value; it is modelled by the
    kernel's primitive [float], whose operations are the binary64 ones
    (round to nearest even, signed zeros, infinities, one NaN).  Array
    indices, array lengths and the counters that [app.js] only ever
    increments by one are modelled by [nat]; such values are exact in
    binary64 below 2^53 and enter floating-point arithmetic through
    [of_nat].  Arrays are lists; reading past the end of an array yields
    [undefined], which every arithmetic operator turns into NaN.  The
    built-ins whose results the language leaves to the implementation or to
    the environment ([Math.random], [Math.log], [Math.cos], [parseFloat],
    [parseInt], [Math.round], [toFixed]) are parameters of the definitions
    that call them; the calls into Chart.js are recorded as a trace. *)

From Stdlib Require Import ZArith Lia Floats String.
From Stdlib Require Uint63.
From stdpp Require Import base list sorting.

Set Warnings "-inexact-float".
Set Default Proof Using "Type".

(** ** Numbers *)

Abbreviation number := float (only parsing).

(** An array length, an index or a counter used as a number (exact below
    2^53). *)
Definition of_nat (n : nat) : number :=
  of_uint63 (Uint63.of_Z (Z.of_nat n)).

(** [a[i]] used as an operand: [undefined] out of range, hence NaN. *)
Definition get (a : list number) (i : nat) : number := default nan (a !! i).

(** [d ** 2], taken as the correctly rounded square [d * d]. *)
Definition sqr (d : number) : number := (d * d)%float.

(** [isNaN(v)] on a number. *)
Definition isNaN (v : number) : bool := negb (v =? v)%float.

(** ** Correlation engine (app.js, lines 31-88) *)

(** [a.reduce((s, v) => s + v, 0) / a.length] *)
Definition mean (a : list number) : number :=
  (foldl (fun s v => s + v) 0 a / of_nat (length a))%float.

(** [sd]: the mean first, then the squared deviations, divided by
    [a.length - 1]. *)
Definition sd (a : list number) : number :=
  let m := mean a in
  let v := (foldl (fun s x => s + sqr (x - m)) 0 a
            / (of_nat (length a) - 1))%float in
  PrimFloat.sqrt v.

(** The accumulation loop of [pearsonr]:
    [for (let i = 0; i < n; i++) cov += (x[i] - mx) * (y[i] - my)]. *)
Definition cov_loop (x y : list number) (mx my : number) (n : nat) : number :=
  foldl (fun cov i => cov + (get x i - mx) * (get y i - my))%float
        0%float (seq 0 n).

Definition pearsonr (x y : list number) : number :=
  let n := length x in
  let mx := mean x in
  let my := mean y in
  let cov := cov_loop x y mx my n in
  let cov := (cov / (of_nat n - 1))%float in
  (cov / (sd x * sd y))%float.

(** *** Rank transform *)

(** The objects [{ v, i }] built by [arr.map((v, i) => ({ v, i }))]. *)
Abbreviation entry := (number * nat)%type (only parsing).

Definition pairs_of (arr : list number) : list entry :=
  imap (fun i v => (v, i)) arr.

(** The comparator [(a, b) => a.v - b.v]. *)
Definition compareFn (a b : entry) : number := (a.1 - b.1)%float.

(** [Array.prototype.sort] with a comparator: a stable sort that puts [b]
    before [a] exactly when [cmp a b > 0].  For a comparator that is not a
    consistent order (NaN among the values) the language leaves the result
    implementation-defined; the insertion sort below is then only one
    possible outcome, always a permutation of its input (engines differ on
    arrays that mix NaN with numbers), so the statements below that depend
    on the order are made for arrays without NaN. *)
Fixpoint sort_insert {A} (cmp : A -> A -> number) (a : A) (l : list A) : list A :=
  match l with
  | [] => [a]
  | b :: l' => if (0 <? cmp a b)%float then b :: sort_insert cmp a l'
               else a :: l
  end.

Definition sort {A} (cmp : A -> A -> number) (l : list A) : list A :=
  foldr (sort_insert cmp) [] l.

(** [while (j + 1 < pairs.length && pairs[j + 1].v === pairs[i].v) j++;]
    The loop runs at most [pairs.length - j] times, the fuel it is given. *)
Fixpoint scan (ps : list entry) (i j fuel : nat) : nat :=
  match fuel with
  | O => j
  | S fuel' =>
      match ps !! (j + 1), ps !! i with
      | Some q, Some p =>
          if (q.1 =? p.1)%float then scan ps i (j + 1) fuel' else j
      | _, _ => j
      end
  end.

Section RankLoop.
(** The loop is written once for any representation [R] of the average
    rank [(i + j + 2) / 2]: binary64 for the program itself, and the pair
    [(i, j)] when the run bounds are reasoned about exactly. *)
Context {R : Type} (avgRank : nat -> nat -> R).

(** [for (let k = i; k <= j; k++) ranks[pairs[k].i] = avgRank;]
    A slot of [new Array(n)] is [None] until it is written. *)
Definition fill (ps : list entry) (i j : nat) (ranks : list (option R))
  : list (option R) :=
  foldl (fun rk k =>
           match ps !! k with
           | Some p => <[p.2 := Some (avgRank i j)]> rk
           | None => rk
           end)
        ranks (seq i (j + 1 - i)).

(** The outer [while (i < pairs.length)] loop; each round advances [i] by at
    least one, so [pairs.length] rounds of fuel are enough. *)
Fixpoint rank_loop (ps : list entry) (i : nat) (ranks : list (option R))
  (fuel : nat) : list (option R) :=
  match fuel with
  | O => ranks
  | S fuel' =>
      if i <? length ps then
        let j := scan ps i i (length ps) in
        rank_loop ps (j + 1) (fill ps i j ranks) fuel'
      else ranks
  end.

Definition rank_slots (arr : list number) : list (option R) :=
  let pairs := sort compareFn (pairs_of arr) in
  rank_loop pairs 0 (replicate (length arr) None) (length pairs).

End RankLoop.

(** [const avgRank = (i + j + 2) / 2; // ranks are 1-based] *)
Definition avgRank (i j : nat) : number :=
  ((of_nat i + of_nat j + 2) / 2)%float.

(** [rankArray].  Every slot is written by the loop (lemma
    [rank_slots_filled] below), so no hole is ever read. *)
Definition rankArray (arr : list number) : list number :=
  map (default nan) (rank_slots avgRank arr).

Definition spearmanr (x y : list number) : number :=
  let rx := rankArray x in
  let ry := rankArray y in
  pearsonr rx ry.

(** *** Kendall's tau *)

(** The body of the inner loop; the state is [(concordant, discordant)]. *)
Definition kendall_step (x y : list number) (i : nat) (acc : nat * nat)
  (j : nat) : nat * nat :=
  let dx := (get x i - get x j)%float in
  let dy := (get y i - get y j)%float in
  let prod := (dx * dy)%float in
  if (0 <? prod)%float then (S acc.1, acc.2)
  else if (prod <? 0)%float then (acc.1, S acc.2)
  else acc.

(** [for (i = 0; i < n - 1; i++) for (j = i + 1; j < n; j++) ...] *)
Definition kendall_counts (x y : list number) : nat * nat :=
  let n := length x in
  foldl (fun acc i => foldl (kendall_step x y i) acc (seq (i + 1) (n - (i + 1))))
        (0, 0) (seq 0 (n - 1)).

Definition kendallTau (x y : list number) : number :=
  let n := of_nat (length x) in
  let '(concordant, discordant) := kendall_counts x y in
  let denom := ((n * (n - 1)) / 2)%float in
  ((of_nat concordant - of_nat discordant) / denom)%float.


(** ** Sample generator (app.js, lines 9-29) *)

(** [Math.random()] is modelled by the list of the values its successive
    calls return; a computation that needs more draws than the list holds
    yields [None]. *)
Abbreviation source := (list number) (only parsing).

(** [Math.PI] *)
Definition PI : number := 3.141592653589793%float.

Definition nonzero (d : number) : bool := negb (d =? 0)%float.

(** [while (u === 0) u = Math.random();] *)
Fixpoint redraw (u : number) (src : source) {struct src}
  : option (number * source) :=
  if (u =? 0)%float then
    match src with
    | [] => None
    | d :: src' => redraw d src'
    end
  else Some (u, src).

(** The two uniform draws a call of [randn] ends up using:
    [let u = 0, v = 0; while (u === 0) ...; while (v === 0) ...]. *)
Definition randn_draws (src : source) : option (number * number * source) :=
  '(u, s1) ← redraw 0%float src;
  '(v, s2) ← redraw 0%float s1;
  Some (u, v, s2).

Section Generator.
(** The built-ins [Math.log] and [Math.cos]. *)
Variables (log cos : number -> number).

(** The Box-Muller transform of the two draws. *)
Definition box_muller (u v : number) : number :=
  (PrimFloat.sqrt (-2 * log u) * cos (2 * PI * v))%float.

Definition randn (src : source) : option (number * source) :=
  '(u, v, s) ← randn_draws src;
  Some (box_muller u v, s).

(** The body of the [for (let i = 0; i < n; i++)] loop, [k] rounds to go. *)
Fixpoint gen_loop (k : nat) (rho s : number) (xs ys : list number)
  (src : source) : option (list number * list number * source) :=
  match k with
  | O => Some (xs, ys, src)
  | S k' =>
      '(x, s1) ← randn src;
      '(e, s2) ← randn s1;
      let y := (rho * x + s * e)%float in
      gen_loop k' rho s (xs ++ [x]) (ys ++ [y]) s2
  end.

Definition generateBivariateNormal (n : nat) (rho : number) (src : source)
  : option (list number * list number * source) :=
  let s := PrimFloat.sqrt (1 - rho * rho)%float in
  gen_loop n rho s [] [] src.

(** [k] successive calls of [randn]. *)
Fixpoint randn_seq (k : nat) (src : source) : option (list number * source) :=
  match k with
  | O => Some ([], src)
  | S k' =>
      '(z, s1) ← randn src;
      '(zs, s2) ← randn_seq k' s1;
      Some (z :: zs, s2)
  end.

End Generator.

(** [x0; e0; x1; e1; ...] *)
Fixpoint interleave (xs es : list number) : list number :=
  match xs, es with
  | x :: xs', e :: es' => x :: e :: interleave xs' es'
  | _, _ => []
  end.

(** Crude stand-ins for [Math.log] and [Math.cos], used only to run the
    generator on concrete draws. *)
Definition log_approx (u : number) : number := (u - 1)%float.
Definition cos_approx (t : number) : number := (1 - t * t / 2)%float.

(** ** Round controller (app.js, lines 109-115 and 170-207) *)

(** The object [current]: the sample of the round and its statistic
    triple. *)
Record round : Type := Round {
  xs : list number;
  ys : list number;
  pearson : number;
  spearman : number;
  kendall : number
}.

(** The [value] of the four text inputs the guess check reads. *)
Record fields : Type := Fields {
  tolerance_value : string;
  pearson_value : string;
  spearman_value : string;
  kendall_value : string
}.

(** What the feedback template of [checkGuesses] displays. *)
Record report : Type := Report {
  aPearson : number; aSpearman : number; aKendall : number;
  gPearson : number; gSpearman : number; gKendall : number;
  pDiff : number; sDiff : number; kDiff : number;
  pPass : bool; sPass : bool; kPass : bool;
  allPass : bool
}.

(** The content of [resultDiv]. *)
Inductive feedback : Type :=
| NewPlot (n : nat)       (* "New plot generated (n=...). Enter your estimates." *)
| FillAllGuesses          (* "Please fill all three guesses with numeric values." *)
| Verdicts (r : report).

Record page : Type := Page {
  current : round;
  inputs : fields;
  resultDiv : feedback
}.

(** Truthiness of a number: every number but [0], [-0] and NaN. *)
Definition truthy (v : number) : bool := negb (isNaN v || (v =? 0)%float).

(** [a || b] on numbers. *)
Definition or_else (a b : number) : number := if truthy a then a else b.

Section GuessCheck.
(** The built-in [parseFloat]; it returns NaN for a string with no numeric
    prefix. *)
Variable parseFloat : string -> number.

(** [const tol = Math.abs(parseFloat(toleranceInput.value) || 0.1);] *)
Definition tolerance_of (f : fields) : number :=
  abs (or_else (parseFloat (tolerance_value f)) 0.1%float).

Definition checkGuesses (pg : page) : page :=
  let tol := tolerance_of (inputs pg) in
  let gP := parseFloat (pearson_value (inputs pg)) in
  let gS := parseFloat (spearman_value (inputs pg)) in
  let gK := parseFloat (kendall_value (inputs pg)) in
  if isNaN gP || isNaN gS || isNaN gK then
    Page (current pg) (inputs pg) FillAllGuesses
  else
    let aP := pearson (current pg) in
    let aS := spearman (current pg) in
    let aK := kendall (current pg) in
    let pD := abs (gP - aP)%float in
    let sD := abs (gS - aS)%float in
    let kD := abs (gK - aK)%float in
    let pOk := (pD <=? tol)%float in
    let sOk := (sD <=? tol)%float in
    let kOk := (kD <=? tol)%float in
    let all := pOk && sOk && kOk in
    Page (current pg) (inputs pg)
         (Verdicts (Report aP aS aK gP gS gK pD sD kD pOk sOk kOk all)).

End GuessCheck.

(** Two numbers agree up to binary64 rounding noise. *)
Definition close (a b : number) : bool := (abs (a - b) <? 1e-15)%float.

(** A stand-in for [parseFloat] given by a finite table; any string outside
    the table is non-numeric. *)
Fixpoint parse_table (tbl : list (string * number)) (s : string) : number :=
  match tbl with
  | [] => nan
  | (k, v) :: tbl' => if String.eqb s k then v else parse_table tbl' s
  end.

Definition demo_table : list (string * number) :=
  [("0.1"%string, 0.1%float); ("0.55"%string, 0.55%float);
   ("0.40"%string, 0.40%float); ("0.25"%string, 0.25%float);
   ("0"%string, 0%float); ("-0.2"%string, (-0.2)%float)].

(** ** Display (app.js, lines 91-94 and 196-206) *)

(** [isFinite(v)] on a number: neither NaN nor an infinity. *)
Definition isFinite (v : number) : bool := PrimFloat.is_finite v.

(** What one [<li>] of the feedback shows: the guess, its distance from the
    actual value, and OK or Wrong. *)
Record verdict_line : Type := VerdictLine {
  guess_text : string;
  diff_text : string;
  ok : bool
}.

(** The interpolated parts of the feedback template. *)
Record verdict_html : Type := VerdictHtml {
  actual_pearson_text : string;
  actual_spearman_text : string;
  actual_kendall_text : string;
  pearson_line : verdict_line;
  spearman_line : verdict_line;
  kendall_line : verdict_line;
  you_win : bool
}.

Section Display.
(** The built-ins [Math.round] and [toFixed] (with its number of digits). *)
Variable Math_round : number -> number.
Variable toFixed : number -> nat -> string.

Definition fmt (v : number) : string :=
  if negb (isFinite v) then "NaN"%string
  else toFixed (Math_round (v * 1000) / 1000)%float 3.

Definition render (r : report) : verdict_html :=
  VerdictHtml (fmt (aPearson r)) (fmt (aSpearman r)) (fmt (aKendall r))
    (VerdictLine (fmt (gPearson r)) (fmt (pDiff r)) (pPass r))
    (VerdictLine (fmt (gSpearman r)) (fmt (sDiff r)) (sPass r))
    (VerdictLine (fmt (gKendall r)) (fmt (kDiff r)) (kPass r))
    (allPass r).

End Display.

(** ** Plotting and round generation (app.js, lines 108-168, 209-214) *)

(** [Math.min(a, b)] and [Math.max(a, b)]: NaN if either argument is NaN;
    [-0] counts as smaller than [+0]. *)
Definition Math_min (a b : number) : number :=
  if isNaN a || isNaN b then nan
  else if (a <? b)%float then a
  else if (b <? a)%float then b
  else if get_sign a then a else b.

Definition Math_max (a b : number) : number :=
  if isNaN a || isNaN b then nan
  else if (a <? b)%float then b
  else if (b <? a)%float then a
  else if get_sign a then b else a.

(** [s || d] on strings: the empty string is the falsy one. *)
Definition or_default (s d : string) : string :=
  match s with
  | EmptyString => d
  | _ => s
  end.

(** The number of rounds of [for (let i = 0; i < n; i++)] for a number [n],
    at most [fuel] of them; the counter [i] is exact. *)
Fixpoint rounds (n : number) (i fuel : nat) : nat :=
  match fuel with
  | O => i
  | S fuel' => if (of_nat i <? n)%float then rounds n (S i) fuel' else i
  end.

(** The loop of the generator as the page runs it: its bound is at most
    1000 (or NaN), so 1000 rounds of fuel let it run to its end. *)
Definition loop_rounds (n : number) : nat := rounds n 0 1000.
Arguments loop_rounds : simpl never.

(** A plotted point [{ x, y: ys[i] }]; [y] is [undefined] past the end of
    [ys]. *)
Abbreviation point := (number * option number)%type (only parsing).

Definition points_of (xs ys : list number) : list point :=
  imap (fun i x => (x, ys !! i)) xs.

(** The calls into Chart.js: [new Chart(ctx, { ... data: points ... })], and
    [chart.update()] after the data of the chart has been replaced. *)
Inductive chart_call : Type :=
| NewChart (data : list point)
| ChartUpdate (data : list point).

(** The content of [resultDiv] once the page runs. *)
Inductive content : Type :=
| PlotGenerated (n : number)   (* "New plot generated (n=...). Enter your estimates." *)
| Checked (f : feedback).       (* what [checkGuesses] wrote *)

(** The state of the page: [current], the six inputs, [chart] ([None] is
    [null], otherwise the data of the one dataset), the calls made into
    Chart.js so far, and [resultDiv] ([None]: as the HTML has it). *)
Record app : Type := App {
  data : round;
  sampleSize_value : string;
  targetR_value : string;
  guesses : fields;
  chart : option (list point);
  chart_calls : list chart_call;
  result : option content
}.

(** [plotScatter(xs, ys)], on [chart] and the calls made so far. *)
Definition plotScatter (xs ys : list number)
  (ch : option (list point)) (calls : list chart_call)
  : option (list point) * list chart_call :=
  let points := points_of xs ys in
  match ch with
  | Some _ => (Some points, calls ++ [ChartUpdate points])
  | None => (Some points, calls ++ [NewChart points])
  end.

Section Page.
Variables (log cos : number -> number) (parseFloat parseInt : string -> number).

(** [Math.max(10, Math.min(1000, parseInt(sampleSizeInput.value || "50", 10)))] *)
Definition sample_size (v : string) : number :=
  Math_max 10 (Math_min 1000 (parseInt (or_default v "50"))).

(** [Math.max(-0.95, Math.min(0.95, parseFloat(targetRInput.value || "0.5")))] *)
Definition target_of (v : string) : number :=
  Math_max (-0.95) (Math_min 0.95 (parseFloat (or_default v "0.5"))).

(** [(Math.random() - 0.5) * 0.18], for the draw [d]. *)
Definition jitter_of (d : number) : number := ((d - 0.5) * 0.18)%float.

(** [Math.max(-0.98, Math.min(0.98, target + jitter))] *)
Definition rho_of (target jitter : number) : number :=
  Math_max (-0.98) (Math_min 0.98 (target + jitter)).

(** [generateAndPlot] *)
Definition generateAndPlot (a : app) (src : source) : option (app * source) :=
  let n := sample_size (sampleSize_value a) in
  let target := target_of (targetR_value a) in
  match src with
  | [] => None
  | d :: src1 =>
      let rho := rho_of target (jitter_of d) in
      '(xs, ys, src2) ← generateBivariateNormal log cos (loop_rounds n) rho src1;
      let cur := Round xs ys (pearsonr xs ys) (spearmanr xs ys) (kendallTau xs ys) in
      let '(ch, calls) := plotScatter xs ys (chart a) (chart_calls a) in
      Some (App cur (sampleSize_value a) (targetR_value a)
                (Fields (tolerance_value (guesses a))
                        EmptyString EmptyString EmptyString)
                ch calls (Some (PlotGenerated n)),
            src2)
  end.

(** The page as [checkGuesses] sees it; [checkGuesses] overwrites
    [resultDiv] without reading it. *)
Definition page_of (a : app) : page := Page (data a) (guesses a) FillAllGuesses.

(** The "submit" listener. *)
Definition on_submit (a : app) : app :=
  let pg := checkGuesses parseFloat (page_of a) in
  App (current pg) (sampleSize_value a) (targetR_value a) (inputs pg)
      (chart a) (chart_calls a) (Some (Checked (resultDiv pg))).

(** What happens to the page: the two listeners wired at the end of the
    script, and the user editing the inputs. *)
Inductive event : Type :=
| Click                                         (* newPlotBtn, "click" *)
| Submit                                        (* guessForm, "submit" *)
| Edit (sampleSize targetR : string) (f : fields).

Definition step (ev : event) (st : app * source) : option (app * source) :=
  match ev with
  | Click => generateAndPlot st.1 st.2
  | Submit => Some (on_submit st.1, st.2)
  | Edit sz tr f =>
      Some (App (data st.1) sz tr f (chart st.1) (chart_calls st.1) (result st.1),
            st.2)
  end.

Fixpoint run (evs : list event) (st : app * source) : option (app * source) :=
  match evs with
  | [] => Some st
  | ev :: evs' => st' ← step ev st; run evs' st'
  end.

(** The script up to its last line: [current] and [chart] as declared, the
    inputs as the HTML has them, then the first [generateAndPlot()]. *)
Definition start (sampleSize targetR : string) (f : fields) (src : source)
  : option (app * source) :=
  generateAndPlot
    (App (Round [] [] 0 0 0) sampleSize targetR f None [] None) src.

End Page.

(** Stand-ins for [parseInt], [Math.round] and [toFixed], used only to run
    the page on concrete inputs. *)
Definition size_table : list (string * number) :=
  [("10"%string, 10%float); ("50"%string, 50%float);
   ("5000"%string, 5000%float)].
Definition round_approx (v : number) : number := v.
Definition toFixed_approx (v : number) (digits : nat) : string := "0.000".

Definition inf_table : list (string * number) :=
  [("Infinity"%string, infinity); ("-Infinity"%string, neg_infinity);
   ("0.1"%string, 0.1%float);
   ("0.40"%string, 0.40%float); ("0.25"%string, 0.25%float)].


(** A page as the script finds it, and draws for [Math.random]. *)
Definition demo_app : app :=
  App (Round [] [] 0 0 0) "10" "0.55" (Fields "0.1" "0.55" "0.40" "0.25")
      None [] None.
Definition demo_draws (k : nat) : source :=
  flat_map (fun _ => [0.5; 0.25; 0.75; 0.125; 0.625]%float) (seq 0 k).

(** The page after the first plot on [demo_app], and what is left of the
    draws. *)
Definition demo_first : app * source :=
  Eval vm_compute in
    default (demo_app, [])
      (generateAndPlot log_approx cos_approx (parse_table demo_table)
         (parse_table size_table) demo_app (demo_draws 30)).


(** The same with a target input that does not parse. *)
Definition demo_no_target : app * source :=
  Eval vm_compute in
    default (demo_app, [])
      (generateAndPlot log_approx cos_approx (parse_table size_table)
         (parse_table size_table) demo_app (demo_draws 30)).


(** The page after a submit, an edit of the inputs, another submit, a new
    plot and a last submit. *)
Definition demo_last : app * source :=
  Eval vm_compute in
    default demo_first
      (run log_approx cos_approx (parse_table demo_table) (parse_table size_table)
         [Submit; Edit "10" "0.25" (Fields "0.1" "0.55" "0.40" "0.25"); Submit;
          Click; Submit]
         demo_first).


(** The round and the chart agree: the stored statistics are those of the
    stored sample, the sample is paired and has at most 1000 observations,
    the chart shows exactly its points, and Chart.js was asked for one
    chart only, every later plot being an update of it. *)
Definition in_step (a : app) : Prop :=
  let c := data a in
  pearson c = pearsonr (xs c) (ys c)
  /\ spearman c = spearmanr (xs c) (ys c)
  /\ kendall c = kendallTau (xs c) (ys c)
  /\ length (ys c) = length (xs c)
  /\ length (xs c) <= 1000
  /\ chart a = Some (points_of (xs c) (ys c))
  /\ exists first later,
       chart_calls a = NewChart first :: (ChartUpdate <$> later)
       /\ last (first :: later) = Some (points_of (xs c) (ys c)).


(** ** Classes of binary64 values

    The shapes a binary64 result can take, as the proofs below track them. *)

(** An infinity or NaN: what a division by the zero [1 - 1] yields. *)
Definition sf_inf_or_nan (s : spec_float) : Prop :=
  match s with
  | S754_infinity _ | S754_nan => True
  | _ => False
  end.

Definition inf_or_nan (v : number) : Prop := sf_inf_or_nan (Prim2SF v).


(** A value that is a zero or finite. *)
Definition sf_finite (x : spec_float) : Prop :=
  match x with
  | S754_zero _ | S754_finite _ _ _ => True
  | _ => False
  end.


(** Where [binary_round_aux] puts a non-negative mantissa: at the exponent
    [e1] the format asks for, or one above when rounding carries into the
    next binade; it overflows only from the largest exponent. *)
Definition rounded_at (s : bool) (e1 : Z) (r : spec_float) : Prop :=
  match r with
  | S754_zero s' => s' = s
  | S754_finite s' m e =>
      (s' = s /\ e <= emax - prec
       /\ ((e = e1 /\ Zpos m < 2 ^ 53) \/ (e = e1 + 1 /\ Zpos m = 2 ^ 52)))%Z
  | S754_infinity s' => s' = s /\ (emax - prec <= e1)%Z
  | S754_nan => False
  end.


(** A zero or a finite value whose exponent is at most [h]. *)
Definition finite_upto (h : Z) (x : spec_float) : Prop :=
  match x with
  | S754_zero _ => True
  | S754_finite _ _ e => (e <= h)%Z
  | _ => False
  end.


(** The 53-digit mantissa of a positive integer below 2^53. *)
Definition mant (w : Z) : Z := (w * 2 ^ (53 - Zdigits2 w))%Z.


(** The binary64 value [w * 2^k] for an integer [w] below 2^53 in
    magnitude: the mantissa of [w] at the exponent that goes with it. *)
Definition SFval (w k : Z) : spec_float :=
  match w with
  | Z0 => S754_zero false
  | Zpos _ => S754_finite false (Z.to_pos (mant w)) (Zdigits2 w - 53 + k)%Z
  | Zneg _ => S754_finite true (Z.to_pos (mant (- w))) (Zdigits2 (- w) - 53 + k)%Z
  end.


(** Scales at which every integer below 2^53 is a normal number. *)
Definition scale_ok (k : Z) : Prop := (-1000 <= k <= 900)%Z.


(** A result of sign [s] and magnitude at most 1. *)
Definition within_one (s : bool) (r : spec_float) : Prop :=
  match r with
  | S754_zero s' => s' = s
  | S754_finite s' m e =>
      s' = s /\ (e < -52 \/ (e = -52 /\ Zpos m = 2 ^ 52))%Z
  | _ => False
  end.


(** ** Specification-level statistics

    The definitions of this section follow the words of the specification,
    not the loops of the program; the theorems further down relate the
    two. *)

(** Left-to-right sum, starting from [0]. *)
Definition sum (a : list number) : number := foldl PrimFloat.add 0%float a.

(** Arithmetic mean: the sum of the values over their number. *)
Definition average (a : list number) : number :=
  (sum a / of_nat (length a))%float.

(** Deviations from the mean: the mean is computed first (first pass), the
    deviations after it (second pass). *)
Definition deviations (a : list number) : list number :=
  let m := average a in map (fun v => (v - m)%float) a.

(** Sample covariance, divisor [n - 1]. *)
Definition covariance (x y : list number) : number :=
  (sum (zip_with PrimFloat.mul (deviations x) (deviations y))
   / (of_nat (length x) - 1))%float.

(** Sample standard deviation, divisor [n - 1]: the square root of the sum
    of the squared deviations over [n - 1]. *)
Definition stdev (a : list number) : number :=
  PrimFloat.sqrt (sum (map (fun d => d * d)%float (deviations a))
                  / (of_nat (length a) - 1))%float.

(** The unordered pairs of indices below [n], each listed once as [(i, j)]
    with [i < j]. *)
Definition unordered_pairs (n : nat) : list (nat * nat) :=
  List.filter (fun p => p.1 <? p.2) (list_prod (seq 0 n) (seq 0 n)).

(** The product [(x[i] - x[j]) * (y[i] - y[j])] of a pair. *)
Definition pair_product (x y : list number) (p : nat * nat) : number :=
  ((get x p.1 - get x p.2) * (get y p.1 - get y p.2))%float.

Definition concordant (x y : list number) (p : nat * nat) : bool :=
  (0 <? pair_product x y p)%float.

Definition discordant (x y : list number) (p : nat * nat) : bool :=
  (pair_product x y p <? 0)%float.

Definition count {A} (f : A -> bool) (l : list A) : nat :=
  length (List.filter f l).

(** Zero variance: all elements are [===] to each other. *)
Definition constant (a : list number) : bool :=
  forallb (fun v => forallb (fun w => (v =? w)%float) a) a.

(** Every computed deviation [v - mean a] is a zero: how zero variance shows
    up when the mean of a constant array is computed exactly. *)
Definition zero_dev (a : list number) : bool :=
  forallb (fun v => (v - average a =? 0)%float) a.

(** The number of elements of [arr] strictly below [v], and the number of
    elements equal to it. *)
Definition smaller (arr : list number) (v : number) : nat :=
  count (fun w => (w <? v)%float) arr.

Definition equal (arr : list number) (v : number) : nat :=
  count (fun w => (w =? v)%float) arr.

(** The arithmetic mean of the [k] consecutive 1-based ranks
    [s + 1, ..., s + k]. *)
Definition mean_rank (s k : nat) : number :=
  (sum (map of_nat (seq (s + 1) k)) / of_nat k)%float.

(** The tolerance the specification intends for a tolerance input [t]: the
    input itself when positive, its absolute value when negative, and the
    default 0.1 when it is a zero or not a number. *)
Definition tolerance_in_force (t : number) : number :=
  if (0 <? t)%float then t
  else if (t <? 0)%float then (- t)%float
  else 0.1%float.

(** "The guess check passes a statistic iff |guess - actual| <= tolerance",
    the tolerance being the number the tolerance input holds. *)
Definition passes_within_input (parseFloat : string -> number) : Prop :=
  forall (pg : page) (r : report),
    resultDiv (checkGuesses parseFloat pg) = Verdicts r ->
    let tol := parseFloat (tolerance_value (inputs pg)) in
    pPass r = (abs (gPearson r - aPearson r) <=? tol)%float
    /\ sPass r = (abs (gSpearman r - aSpearman r) <=? tol)%float
    /\ kPass r = (abs (gKendall r - aKendall r) <=? tol)%float.

(** "Returns not-a-number whenever either input has zero variance or the
    lengths differ", said of a correlation function [f]. *)
Definition nan_on_degenerate (f : list number -> list number -> number) : Prop :=
  forall x y,
    constant x = true \/ constant y = true \/ length x <> length y ->
    isNaN (f x y) = true.

(** ** Lists and loops *)

Lemma foldl_seq_shift {A} (f : A -> nat -> A) (a : A) (k n : nat) :
  foldl f a (seq (S k) n) = foldl (fun a i => f a (S i)) a (seq k n).
Proof.
  revert a k. induction n as [|n IH]; intros a k; simpl; [done|].
  by rewrite IH.
Qed.

Lemma cov_loop_zip (x y : list number) (mx my acc : number) :
  length x = length y ->
  foldl (fun cov i => cov + (get x i - mx) * (get y i - my))%float
        acc (seq 0 (length x))
  = foldl PrimFloat.add acc
      (zip_with PrimFloat.mul (map (fun v => v - mx)%float x)
                              (map (fun v => v - my)%float y)).
Proof.
  revert y acc. induction x as [|a x IH]; intros [|b y] acc Hlen;
    simplify_eq/=; [done|].
  rewrite foldl_seq_shift. rewrite <- IH by done.
  reflexivity.
Qed.

(** [mean] is the arithmetic mean. *)
Lemma mean_average (a : list number) : mean a = average a.
Proof. reflexivity. Qed.

Lemma sd_stdev (a : list number) : sd a = stdev a.
Proof.
  unfold sd, stdev, sum, deviations. rewrite mean_average. do 2 f_equal.
  generalize (average a) as m. generalize 0%float as acc.
  induction a as [|v a IH]; intros acc m; simpl; [done|]. by rewrite IH.
Qed.

Lemma pearsonr_spec (x y : list number) :
  length x = length y ->
  pearsonr x y = (covariance x y / (stdev x * stdev y))%float.
Proof.
  intros Hlen. unfold pearsonr, covariance, cov_loop, deviations.
  rewrite !sd_stdev, cov_loop_zip, !mean_average by done. reflexivity.
Qed.

(** C3: for equal-length sequences, [pearsonr x y] is the sample covariance
    of [(x, y)] divided by the product of the sample standard deviations of
    [x] and [y].  The mean is the sum of the values over their number; the
    covariance is the sum of the products of the deviations from the two
    means over [n - 1]; the standard deviation is the square root of the
    sum of the squared deviations from the mean over [n - 1]; in both, the
    mean is computed before the deviations are accumulated.  (All
    operations are the program's binary64 operations, sums run left to
    right.)  On (1, 2, 3) against (3, 2, 1) the result is -1, against
    (1, 2, 3) it is 1, and the mean and standard deviation of (1, 2, 3) are
    2 and 1. *)
Theorem pearsonr_is_cov_over_sd (x y : list number) :
  length x = length y ->
  pearsonr x y = (covariance x y / (stdev x * stdev y))%float
  /\ covariance x y
     = (sum (zip_with PrimFloat.mul
               (map (fun v => v - sum x / of_nat (length x))%float x)
               (map (fun v => v - sum y / of_nat (length y))%float y))
        / (of_nat (length x) - 1))%float
  /\ stdev x
     = PrimFloat.sqrt
         (sum (map (fun v => (v - sum x / of_nat (length x))
                             * (v - sum x / of_nat (length x)))%float x)
          / (of_nat (length x) - 1))%float
  /\ mean x = (sum x / of_nat (length x))%float
  /\ sd x = stdev x
  /\ mean [1; 2; 3]%float = 2%float
  /\ sd [1; 2; 3]%float = 1%float
  /\ pearsonr [1; 2; 3]%float [3; 2; 1]%float = (-1)%float
  /\ pearsonr [1; 2; 3]%float [1; 2; 3]%float = 1%float.
Proof.
  intros Hlen. split; [by apply pearsonr_spec|]. split; [done|].
  split; [unfold stdev, deviations, average; by rewrite map_map|].
  split; [done|]. split; [apply sd_stdev|].
  repeat split; by vm_compute.
Qed.

Lemma pearsonr_is_cov_over_sd_witness :
  length [1; 2; 4]%float = length [2; 1; 5]%float
  /\ pearsonr [1; 2; 4]%float [2; 1; 5]%float
     = (covariance [1; 2; 4] [2; 1; 5]
        / (stdev [1; 2; 4] * stdev [2; 1; 5]))%float.
Proof.
  split; [reflexivity|].
  apply (pearsonr_is_cov_over_sd [1; 2; 4]%float [2; 1; 5]%float). reflexivity.
Defined.

(** ** Facts about binary64 comparison *)

Lemma SFcompare_antisym (x y : spec_float) :
  SFcompare y x = CompOpp <$> SFcompare x y.
Proof.
  destruct x as [sx|sx| |sx mx ex], y as [sy|sy| |sy my ey]; simpl;
    try destruct sx; try destruct sy; try reflexivity.
  all: rewrite (Z.compare_antisym ex ey); destruct (ex ?= ey)%Z; simpl;
    try reflexivity.
  all: change (Pos.compare_cont Eq my mx) with (Pos.compare my mx);
    change (Pos.compare_cont Eq mx my) with (Pos.compare mx my);
    rewrite (Pos.compare_antisym mx my); by destruct (mx ?= my)%positive.
Qed.

Lemma ltb_antisym (a b : number) : (a <? b)%float = true -> (b <? a)%float = false.
Proof.
  rewrite !FloatAxioms.ltb_spec. unfold SFltb.
  rewrite (SFcompare_antisym (Prim2SF a) (Prim2SF b)).
  by destruct (SFcompare (Prim2SF a) (Prim2SF b)) as [[]|].
Qed.

(** ** Kendall's tau: the loops count concordant and discordant pairs *)

Lemma filter_none {A} (f : A -> bool) (l : list A) :
  Forall (fun a => f a = false) l -> List.filter f l = [].
Proof. induction 1 as [|a l Ha _ IH]; simpl; [done|]. by rewrite Ha. Qed.

Lemma filter_all {A} (f : A -> bool) (l : list A) :
  Forall (fun a => f a = true) l -> List.filter f l = l.
Proof. induction 1 as [|a l Ha _ IH]; simpl; [done|]. by rewrite Ha, IH. Qed.

Lemma filter_above_seq (i n : nat) :
  List.filter (fun j => i <? j) (seq 0 n) = seq (i + 1) (n - (i + 1)).
Proof.
  destruct (decide (i + 1 <= n)) as [Hle|Hgt].
  - replace n with ((i + 1) + (n - (i + 1))) at 1 by lia.
    rewrite seq_app, List.filter_app, filter_none, filter_all; [done| |].
    + apply Forall_forall. intros j Hj%elem_of_seq. apply Nat.ltb_lt. lia.
    + apply Forall_forall. intros j Hj%elem_of_seq. apply Nat.ltb_ge. lia.
  - replace (n - (i + 1)) with 0 by lia. simpl. apply filter_none.
    apply Forall_forall. intros j [_ Hj]%elem_of_seq. apply Nat.ltb_ge. lia.
Qed.

Lemma filter_map_pair (i : nat) (l : list nat) :
  List.filter (fun p : nat * nat => p.1 <? p.2) (map (pair i) l)
  = map (pair i) (List.filter (fun j => i <? j) l).
Proof.
  induction l as [|j l IH]; simpl; [done|]. rewrite IH. by destruct (i <? j).
Qed.

Lemma unordered_pairs_rows (n : nat) :
  unordered_pairs n
  = flat_map (fun i => map (pair i) (seq (i + 1) (n - (i + 1)))) (seq 0 n).
Proof.
  unfold unordered_pairs. generalize (seq 0 n) at 1 3 as rows.
  induction rows as [|i rows IH]; simpl; [done|].
  by rewrite List.filter_app, IH, filter_map_pair, filter_above_seq.
Qed.

Lemma foldl_flat_map {A B C} (f : A -> C -> A) (g : B -> list C) (a : A)
  (l : list B) :
  foldl f a (flat_map g l) = foldl (fun a i => foldl f a (g i)) a l.
Proof.
  revert a. induction l as [|b l IH]; intros a; simpl; [done|].
  by rewrite foldl_app, IH.
Qed.

Lemma foldl_map {A B C} (f : A -> C -> A) (h : B -> C) (a : A) (l : list B) :
  foldl f a (map h l) = foldl (fun a j => f a (h j)) a l.
Proof. revert a. induction l as [|b l IH]; intros a; simpl; [done|]. by rewrite IH. Qed.

Lemma foldl_ext_eq {A B} (f g : A -> B -> A) (a : A) (l : list B) :
  (forall a b, f a b = g a b) -> foldl f a l = foldl g a l.
Proof.
  intros Hfg. revert a. induction l as [|b l IH]; intros a; simpl; [done|].
  by rewrite Hfg, IH.
Qed.

(** The nested loops visit exactly the unordered pairs, row by row. *)
Lemma kendall_counts_pairs (x y : list number) :
  kendall_counts x y
  = foldl (fun acc p => kendall_step x y p.1 acc p.2) (0, 0)
          (unordered_pairs (length x)).
Proof.
  unfold kendall_counts. rewrite unordered_pairs_rows, foldl_flat_map.
  set (n := length x).
  rewrite (foldl_ext_eq
             (fun a i => foldl (fun acc p => kendall_step x y p.1 acc p.2) a
                               (map (pair i) (seq (i + 1) (n - (i + 1)))))
             (fun a i => foldl (kendall_step x y i) a (seq (i + 1) (n - (i + 1)))))
    by (intros a i; by rewrite foldl_map).
  destruct n as [|m]; [done|].
  replace (S m - 1) with m by lia. rewrite (seq_S m 0), foldl_app. simpl.
  by replace (S m - (m + 1)) with 0 by lia.
Qed.

Lemma kendall_fold_counts (x y : list number) (acc : nat * nat)
  (l : list (nat * nat)) :
  foldl (fun acc p => kendall_step x y p.1 acc p.2) acc l
  = (acc.1 + count (concordant x y) l, acc.2 + count (discordant x y) l).
Proof.
  revert acc. induction l as [|p l IH]; intros [c d]; simpl.
  - unfold count. simpl. f_equal; lia.
  - rewrite IH. unfold kendall_step, count, concordant, discordant, pair_product.
    simpl. destruct (0 <? _)%float eqn:Hpos; simpl.
    + rewrite (ltb_antisym _ _ Hpos). simpl. f_equal; lia.
    + destruct (_ <? 0)%float; simpl; f_equal; lia.
Qed.

Lemma unordered_pairs_length (n : nat) :
  2 * length (unordered_pairs n) = n * (n - 1).
Proof.
  rewrite unordered_pairs_rows.
  assert (H : forall k, k <= n ->
    2 * length (flat_map (fun i => map (pair i) (seq (i + 1) (n - (i + 1))))
                         (seq 0 k)) + k * (k - 1) = 2 * k * (n - 1)).
  { induction k as [|k IH]; intros Hk; [done|].
    rewrite seq_S, flat_map_app, length_app. simpl.
    rewrite app_nil_r, length_map, length_seq.
    specialize (IH ltac:(lia)). nia. }
  specialize (H n ltac:(lia)). nia.
Qed.

(** C1: [kendallTau x y] is (C - D) / (n (n - 1) / 2), where C is the number
    of unordered index pairs whose product (x[i] - x[j]) * (y[i] - y[j]) is
    strictly positive and D the number of those whose product is strictly
    negative; a pair whose product is neither (zero, on a tie) is in neither
    count, and the denominator is the number n (n - 1) / 2 of all unordered
    pairs, ties included (tau-a).  Products and the final quotient are the
    program's binary64 operations. *)
Theorem kendallTau_counts_pairs (x y : list number) :
  kendallTau x y
  = ((of_nat (count (concordant x y) (unordered_pairs (length x)))
      - of_nat (count (discordant x y) (unordered_pairs (length x))))
     / ((of_nat (length x) * (of_nat (length x) - 1)) / 2))%float
  /\ 2 * length (unordered_pairs (length x)) = length x * (length x - 1)
  /\ (forall p, concordant x y p = true -> discordant x y p = false)
  /\ count (concordant x y) (unordered_pairs (length x))
     + count (discordant x y) (unordered_pairs (length x))
     + count (fun p => negb (concordant x y p || discordant x y p))
             (unordered_pairs (length x))
     = length (unordered_pairs (length x)).
Proof.
  split; [|split; [|split]].
  - unfold kendallTau. rewrite kendall_counts_pairs, kendall_fold_counts.
    reflexivity.
  - apply unordered_pairs_length.
  - intros p. apply ltb_antisym.
  - assert (Hanti : forall p, concordant x y p = true -> discordant x y p = false)
      by (intros p; apply ltb_antisym).
    unfold count. induction (unordered_pairs (length x)) as [|p l IH]; simpl; [done|].
    destruct (concordant x y p) eqn:Hc; simpl.
    + rewrite (Hanti p Hc). simpl. lia.
    + destruct (discordant x y p); simpl; lia.
Qed.

Lemma kendallTau_counts_pairs_witness :
  kendallTau [1; 2; 3; 4]%float [1; 3; 2; 4]%float
  = ((of_nat 5 - of_nat 1) / ((of_nat 4 * (of_nat 4 - 1)) / 2))%float.
Proof.
  exact (proj1 (kendallTau_counts_pairs [1; 2; 3; 4]%float [1; 3; 2; 4]%float)).
Defined.

(** ** More facts about binary64 values *)

Lemma SFcompare_refl (x : spec_float) :
  x <> S754_nan -> SFcompare x x = Some Eq.
Proof.
  destruct x as [s|s| |s m e]; simpl; intros Hx; try done; try by destruct s.
  rewrite Z.compare_refl.
  change (Pos.compare_cont Eq m m) with (Pos.compare m m).
  rewrite Pos.compare_refl. by destruct s.
Qed.

Lemma isNaN_spec (v : number) : isNaN v = true <-> Prim2SF v = S754_nan.
Proof.
  unfold isNaN. rewrite FloatAxioms.eqb_spec. unfold SFeqb. split.
  - intros H. destruct (Prim2SF v) as [s|s| |s m e] eqn:Hv; [| |done|];
      by rewrite SFcompare_refl in H.
  - by intros ->.
Qed.

Lemma isNaN_false (v : number) : isNaN v = false <-> Prim2SF v <> S754_nan.
Proof.
  pose proof (isNaN_spec v) as [H1 H2].
  destruct (isNaN v) eqn:E; split; try done.
  - intros Hn. by destruct Hn; apply H1.
  - intros _ Hn. by specialize (H2 Hn).
Qed.

(** A number that is neither NaN nor a zero has a strictly positive
    absolute value. *)
Lemma abs_pos (v : number) :
  isNaN v = false -> (v =? 0)%float = false -> (0 <? abs v)%float = true.
Proof.
  rewrite isNaN_false, FloatAxioms.eqb_spec, FloatAxioms.ltb_spec, FloatAxioms.abs_spec.
  change (Prim2SF 0) with (S754_zero false).
  by destruct (Prim2SF v) as [s|s| |s m e]; try destruct s.
Qed.

Lemma abs_of_neg (v : number) : (v <? 0)%float = true -> abs v = (- v)%float.
Proof.
  rewrite FloatAxioms.ltb_spec. change (Prim2SF 0) with (S754_zero false).
  intros H. apply Prim2SF_inj. rewrite FloatAxioms.abs_spec, FloatAxioms.opp_spec.
  by destruct (Prim2SF v) as [s|s| |s m e]; try destruct s.
Qed.

Lemma abs_of_pos (v : number) : (0 <? v)%float = true -> abs v = v.
Proof.
  rewrite FloatAxioms.ltb_spec. change (Prim2SF 0) with (S754_zero false).
  intros H. apply Prim2SF_inj. rewrite FloatAxioms.abs_spec.
  by destruct (Prim2SF v) as [s|s| |s m e]; try destruct s.
Qed.

Lemma pos_not_zero (v : number) :
  (0 <? v)%float = true -> isNaN v = false /\ (v =? 0)%float = false.
Proof.
  rewrite isNaN_false, FloatAxioms.eqb_spec, FloatAxioms.ltb_spec.
  change (Prim2SF 0) with (S754_zero false).
  by destruct (Prim2SF v) as [s|s| |s m e]; try destruct s.
Qed.

Lemma neg_not_zero (v : number) :
  (v <? 0)%float = true -> isNaN v = false /\ (v =? 0)%float = false.
Proof.
  rewrite isNaN_false, FloatAxioms.eqb_spec, FloatAxioms.ltb_spec.
  change (Prim2SF 0) with (S754_zero false).
  by destruct (Prim2SF v) as [s|s| |s m e]; try destruct s.
Qed.

(** A draw in [0, 1) that is not [=== 0] is strictly positive. *)
Lemma nonneg_nonzero_pos (v : number) :
  (0 <=? v)%float = true -> (v =? 0)%float = false -> (0 <? v)%float = true.
Proof.
  rewrite FloatAxioms.eqb_spec, FloatAxioms.ltb_spec, FloatAxioms.leb_spec.
  change (Prim2SF 0) with (S754_zero false).
  by destruct (Prim2SF v) as [s|s| |s m e]; try destruct s.
Qed.

(** ** The guess check *)

(** Numeric guesses: the verdicts are the three comparisons against the
    tolerance in force, and the overall verdict is their conjunction. *)
Lemma checkGuesses_numeric (parseFloat : string -> number) (pg : page) :
  isNaN (parseFloat (pearson_value (inputs pg))) = false ->
  isNaN (parseFloat (spearman_value (inputs pg))) = false ->
  isNaN (parseFloat (kendall_value (inputs pg))) = false ->
  exists r, resultDiv (checkGuesses parseFloat pg) = Verdicts r
    /\ pDiff r = abs (parseFloat (pearson_value (inputs pg)) - pearson (current pg))%float
    /\ sDiff r = abs (parseFloat (spearman_value (inputs pg)) - spearman (current pg))%float
    /\ kDiff r = abs (parseFloat (kendall_value (inputs pg)) - kendall (current pg))%float
    /\ pPass r = (pDiff r <=? tolerance_of parseFloat (inputs pg))%float
    /\ sPass r = (sDiff r <=? tolerance_of parseFloat (inputs pg))%float
    /\ kPass r = (kDiff r <=? tolerance_of parseFloat (inputs pg))%float
    /\ allPass r = pPass r && sPass r && kPass r.
Proof.
  intros HP HS HK. unfold checkGuesses. rewrite HP, HS, HK. simpl.
  eexists. split; [reflexivity|]. simpl. by repeat split.
Qed.

(** A strictly positive tolerance input is the tolerance in force. *)
Lemma tolerance_of_pos (parseFloat : string -> number) (f : fields) :
  (0 <? parseFloat (tolerance_value f))%float = true ->
  tolerance_of parseFloat f = parseFloat (tolerance_value f).
Proof.
  intros Hpos. unfold tolerance_of, or_else, truthy.
  destruct (pos_not_zero _ Hpos) as [-> ->]. simpl. by apply abs_of_pos.
Qed.


(** The tolerance in force, read off the tolerance input. *)
Lemma tolerance_of_in_force (parseFloat : string -> number) (f : fields) :
  tolerance_of parseFloat f = tolerance_in_force (parseFloat (tolerance_value f)).
Proof.
  unfold tolerance_in_force.
  destruct (0 <? parseFloat (tolerance_value f))%float eqn:Hpos;
    [by apply tolerance_of_pos|].
  unfold tolerance_of, or_else, truthy.
  set (t := parseFloat (tolerance_value f)) in *.
  destruct (t <? 0)%float eqn:Hneg.
  - destruct (neg_not_zero _ Hneg) as [-> ->]. simpl. by apply abs_of_neg.
  - assert (Hz : isNaN t || (t =? 0)%float = true).
    { destruct (isNaN t) eqn:Hn; [done|]. simpl.
      apply isNaN_false in Hn.
      rewrite FloatAxioms.ltb_spec in Hpos, Hneg. rewrite FloatAxioms.eqb_spec.
      change (Prim2SF 0) with (S754_zero false) in *.
      by destruct (Prim2SF t) as [s|s| |s m e]; try destruct s. }
    by rewrite Hz.
Qed.

(** C6, as stated, fails: with the tolerance input 0 the check applies 0.1,
    so the Pearson guess 0.55 for the actual value 0.50 passes, and the
    round is won, although |0.55 - 0.50| <= 0 does not hold. *)
Lemma checkGuesses_within_tolerance_counterexample :
  ~ passes_within_input (parse_table demo_table)
  /\ parse_table demo_table "0" = 0%float
  /\ (abs (0.55 - 0.50) <=? 0)%float = false
  /\ exists r,
       resultDiv
         (checkGuesses (parse_table demo_table)
            (Page (Round [] [] 0.50 0.48 0.33)
                  (Fields "0" "0.55" "0.40" "0.25") (NewPlot 50)))
       = Verdicts r
       /\ gPearson r = 0.55%float /\ aPearson r = 0.50%float
       /\ pPass r = true /\ allPass r = true.
Proof.
  split; [|split; [reflexivity|split; [reflexivity|]]].
  - intros H.
    destruct (H (Page (Round [] [] 0.50 0.48 0.33)
                      (Fields "0" "0.55" "0.40" "0.25") (NewPlot 50))
                _ eq_refl) as [Hp _].
    by vm_compute in Hp.
  - eexists. split; [reflexivity|]. repeat split; reflexivity.
Qed.

(** C6, amended: for numeric guesses each statistic passes exactly when
    |guess - actual| <= tol, and the round is won exactly when all three
    pass, where tol is the tolerance input itself when that is a positive
    number, its absolute value when it is negative, and 0.1 when it is a
    zero or not a number.  With actual (0.50, 0.48, 0.33) and tolerance 0.1
    the guess (0.55, 0.40, 0.25) has diffs (0.05, 0.08, 0.08) up to
    rounding noise and wins; the guess (0.70, 0.40, 0.25) has a Pearson
    diff of 0.20, above the tolerance, and loses. *)
Theorem checkGuesses_within_tolerance (parseFloat : string -> number) (pg : page) :
  isNaN (parseFloat (pearson_value (inputs pg))) = false ->
  isNaN (parseFloat (spearman_value (inputs pg))) = false ->
  isNaN (parseFloat (kendall_value (inputs pg))) = false ->
  exists r, resultDiv (checkGuesses parseFloat pg) = Verdicts r
    /\ pDiff r = abs (parseFloat (pearson_value (inputs pg)) - pearson (current pg))%float
    /\ sDiff r = abs (parseFloat (spearman_value (inputs pg)) - spearman (current pg))%float
    /\ kDiff r = abs (parseFloat (kendall_value (inputs pg)) - kendall (current pg))%float
    /\ pPass r
       = (pDiff r <=? tolerance_in_force (parseFloat (tolerance_value (inputs pg))))%float
    /\ sPass r
       = (sDiff r <=? tolerance_in_force (parseFloat (tolerance_value (inputs pg))))%float
    /\ kPass r
       = (kDiff r <=? tolerance_in_force (parseFloat (tolerance_value (inputs pg))))%float
    /\ allPass r = pPass r && sPass r && kPass r
    /\ tolerance_of parseFloat (inputs pg)
       = tolerance_in_force (parseFloat (tolerance_value (inputs pg)))
    /\ ((0 <? parseFloat (tolerance_value (inputs pg)))%float = true ->
        tolerance_of parseFloat (inputs pg)
        = parseFloat (tolerance_value (inputs pg)))
    /\ (parseFloat (tolerance_value (inputs pg)) = 0.1%float ->
        pearson (current pg) = 0.50%float ->
        spearman (current pg) = 0.48%float ->
        kendall (current pg) = 0.33%float ->
        parseFloat (spearman_value (inputs pg)) = 0.40%float ->
        parseFloat (kendall_value (inputs pg)) = 0.25%float ->
        (parseFloat (pearson_value (inputs pg)) = 0.55%float ->
         close (pDiff r) 0.05 = true /\ close (sDiff r) 0.08 = true
         /\ close (kDiff r) 0.08 = true
         /\ pPass r = true /\ sPass r = true /\ kPass r = true
         /\ allPass r = true)
        /\ (parseFloat (pearson_value (inputs pg)) = 0.70%float ->
            close (pDiff r) 0.20 = true
            /\ (tolerance_of parseFloat (inputs pg) <? pDiff r)%float = true
            /\ pPass r = false /\ allPass r = false)).
Proof.
  intros HP HS HK.
  destruct (checkGuesses_numeric parseFloat pg HP HS HK)
    as (r & Hr & HpD & HsD & HkD & Hp & Hs & Hk & Hall).
  exists r. do 4 (split; [done|]).
  rewrite <- tolerance_of_in_force.
  do 5 (split; [done|]). split; [apply tolerance_of_pos|].
  intros Ht HaP HaS HaK HgS HgK.
  rewrite Hall, Hp, Hs, Hk, HpD, HsD, HkD.
  unfold tolerance_of. rewrite Ht, HaP, HaS, HaK, HgS, HgK.
  split; intros ->; by vm_compute.
Qed.

Lemma checkGuesses_within_tolerance_witness :
  exists r,
    resultDiv
      (checkGuesses
         (parse_table demo_table)
         (Page (Round [] [] 0.50 0.48 0.33)
               (Fields "0.1" "0.55" "0.40" "0.25") (NewPlot 50)))
    = Verdicts r
    /\ allPass r = true.
Proof.
  destruct (checkGuesses_within_tolerance
              (parse_table demo_table)
              (Page (Round [] [] 0.50 0.48 0.33)
                    (Fields "0.1" "0.55" "0.40" "0.25") (NewPlot 50))
              eq_refl eq_refl eq_refl)
    as (r & Hr & _ & _ & _ & _ & _ & _ & _ & _ & _ & Hex).
  exists r. split; [exact Hr|].
  destruct (Hex eq_refl eq_refl eq_refl eq_refl eq_refl eq_refl) as [Hwin _].
  destruct (Hwin eq_refl) as (_ & _ & _ & _ & _ & _ & Hall). exact Hall.
Defined.

(** C7: when a guess field parses to NaN the check stops at the "fill all
    three guesses" message: no diff and no verdict is produced, the function
    still returns, the round ([current]) is untouched, and a later
    submission is judged exactly as if the failed one had not happened. *)
Theorem checkGuesses_non_numeric (parseFloat : string -> number) (pg : page) :
  isNaN (parseFloat (pearson_value (inputs pg))) = true
  \/ isNaN (parseFloat (spearman_value (inputs pg))) = true
  \/ isNaN (parseFloat (kendall_value (inputs pg))) = true ->
  resultDiv (checkGuesses parseFloat pg) = FillAllGuesses
  /\ current (checkGuesses parseFloat pg) = current pg
  /\ inputs (checkGuesses parseFloat pg) = inputs pg
  /\ forall f : fields,
       checkGuesses parseFloat
         (Page (current (checkGuesses parseFloat pg)) f
               (resultDiv (checkGuesses parseFloat pg)))
       = checkGuesses parseFloat (Page (current pg) f (resultDiv pg)).
Proof.
  intros Hnan.
  assert (Hstop : checkGuesses parseFloat pg
                  = Page (current pg) (inputs pg) FillAllGuesses).
  { unfold checkGuesses.
    destruct Hnan as [-> | [-> | ->]]; simpl; [done| |].
    - by rewrite orb_true_r.
    - by rewrite orb_true_r. }
  rewrite Hstop. simpl. by repeat split.
Qed.

Lemma checkGuesses_non_numeric_witness :
  resultDiv
    (checkGuesses (parse_table demo_table)
       (Page (Round [] [] 0.50 0.48 0.33) (Fields "0.1" "" "0.40" "0.25")
             (NewPlot 50)))
  = FillAllGuesses.
Proof.
  apply (checkGuesses_non_numeric
           (parse_table demo_table)
           (Page (Round [] [] 0.50 0.48 0.33) (Fields "0.1" "" "0.40" "0.25")
                 (NewPlot 50))).
  left. reflexivity.
Defined.



(** ** The sample generator consumes draws *)

Lemma redraw_zero (d : number) (src : source) :
  (d =? 0)%float = true -> redraw d src = redraw 0%float src.
Proof. intros Hd. destruct src; simpl; by rewrite Hd. Qed.

Lemma redraw_cons (d : number) (src : source) :
  redraw 0%float (d :: src)
  = if (d =? 0)%float then redraw 0%float src else Some (d, src).
Proof.
  change (redraw 0%float (d :: src)) with (redraw d src).
  destruct (d =? 0)%float eqn:Hd; [by apply redraw_zero|].
  destruct src; simpl; by rewrite Hd.
Qed.

(** The loop skips a prefix of zero draws and stops at the first other
    one. *)
Lemma redraw_spec (src : source) (u : number) (rest : source) :
  redraw 0%float src = Some (u, rest) <->
  exists zs, src = zs ++ u :: rest
             /\ Forall (fun z => (z =? 0)%float = true) zs
             /\ (u =? 0)%float = false.
Proof.
  revert u rest. induction src as [|d src IH]; intros u rest.
  - split; [done|]. intros (zs & Hsrc & _). by destruct zs.
  - rewrite redraw_cons. destruct (d =? 0)%float eqn:Hd.
    + rewrite IH. split.
      * intros (zs & -> & Hzs & Hu). exists (d :: zs). by repeat constructor.
      * intros (zs & Hsrc & Hzs & Hu). destruct zs as [|z zs]; simplify_eq/=.
        -- congruence.
        -- exists zs. by inversion_clear Hzs.
    + split.
      * intros [= <- <-]. by exists [].
      * intros (zs & Hsrc & Hzs & Hu). destruct zs as [|z zs]; simplify_eq/=;
          [done|]. inversion_clear Hzs. congruence.
Qed.

(** Enough draws: the loop ends as soon as the source holds a draw that is
    not zero, and uses up exactly one such draw. *)
Lemma redraw_total (src : source) :
  1 <= count nonzero src ->
  exists u rest, redraw 0%float src = Some (u, rest)
                 /\ count nonzero rest = count nonzero src - 1.
Proof.
  unfold count. induction src as [|d src IH]; [simpl; lia|].
  rewrite redraw_cons. cbn [List.filter].
  change (nonzero d) with (negb (d =? 0)%float).
  destruct (d =? 0)%float eqn:Hd; simpl; intros Hc.
  - by apply IH.
  - exists d, src. split; [done|]. lia.
Qed.

Lemma randn_draws_spec (src : source) (u v : number) (rest : source) :
  randn_draws src = Some (u, v, rest) <->
  exists zs1 zs2, src = zs1 ++ u :: zs2 ++ v :: rest
    /\ Forall (fun z => (z =? 0)%float = true) zs1
    /\ Forall (fun z => (z =? 0)%float = true) zs2
    /\ (u =? 0)%float = false /\ (v =? 0)%float = false.
Proof.
  unfold randn_draws. split.
  - destruct (redraw 0%float src) as [[u' s1]|] eqn:H1; simpl; [|done].
    destruct (redraw 0%float s1) as [[v' s2]|] eqn:H2; simpl; [|done].
    intros [= -> -> ->].
    apply redraw_spec in H1 as (zs1 & -> & Hz1 & Hu).
    apply redraw_spec in H2 as (zs2 & -> & Hz2 & Hv).
    by exists zs1, zs2.
  - intros (zs1 & zs2 & -> & Hz1 & Hz2 & Hu & Hv).
    assert (H1 : redraw 0%float (zs1 ++ u :: zs2 ++ v :: rest)
                 = Some (u, zs2 ++ v :: rest))
      by (apply redraw_spec; by exists zs1).
    assert (H2 : redraw 0%float (zs2 ++ v :: rest) = Some (v, rest))
      by (apply redraw_spec; by exists zs2).
    rewrite H1. simpl. by rewrite H2.
Qed.

Lemma randn_draws_total (src : source) :
  2 <= count nonzero src ->
  exists u v rest, randn_draws src = Some (u, v, rest)
                   /\ count nonzero rest = count nonzero src - 2.
Proof.
  intros Hc. unfold randn_draws.
  destruct (redraw_total src) as (u & s1 & -> & Hc1); [lia|]. simpl.
  destruct (redraw_total s1) as (v & s2 & -> & Hc2); [lia|]. simpl.
  exists u, v, s2. split; [done|]. lia.
Qed.

Lemma randn_total (log cos : number -> number) (src : source) :
  2 <= count nonzero src ->
  exists z rest, randn log cos src = Some (z, rest)
                 /\ count nonzero rest = count nonzero src - 2.
Proof.
  intros Hc. destruct (randn_draws_total src Hc) as (u & v & rest & Hd & Hrest).
  exists (box_muller log cos u v), rest. unfold randn. by rewrite Hd.
Qed.

(** C8: [randn] turns two uniform draws [u], [v] into one variate by the
    Box-Muller formula; every draw that is exactly zero is skipped (drawn
    again) before use, so with draws in [0, 1) the argument [u] of the
    logarithm is strictly positive.  The call returns as soon as the source
    supplies two draws that are not zero. *)
Theorem randn_log_argument_positive (log cos : number -> number) (src : source) :
  Forall (fun d => (0 <=? d)%float = true /\ (d <? 1)%float = true) src ->
  (2 <= count nonzero src -> is_Some (randn log cos src))
  /\ forall z rest, randn log cos src = Some (z, rest) ->
       exists u v zs1 zs2,
         src = zs1 ++ u :: zs2 ++ v :: rest
         /\ Forall (fun d => (d =? 0)%float = true) zs1
         /\ Forall (fun d => (d =? 0)%float = true) zs2
         /\ (0 <? u)%float = true /\ (0 <? v)%float = true
         /\ z = (PrimFloat.sqrt (-2 * log u) * cos (2 * PI * v))%float.
Proof.
  intros Hrange. split.
  - intros Hc. destruct (randn_total log cos src Hc) as (z & rest & -> & _).
    by eexists.
  - intros z rest. unfold randn.
    destruct (randn_draws src) as [[[u v] s]|] eqn:Hd; simpl; [|done].
    intros [= <- <-].
    apply randn_draws_spec in Hd as (zs1 & zs2 & -> & Hz1 & Hz2 & Hu & Hv).
    exists u, v, zs1, zs2. do 3 (split; [done|]).
    apply Forall_app in Hrange as [_ Hrange].
    apply Forall_cons in Hrange as [[Hu0 _] Hrange].
    apply Forall_app in Hrange as [_ Hrange].
    apply Forall_cons in Hrange as [[Hv0 _] _].
    split; [by apply nonneg_nonzero_pos|]. split; [by apply nonneg_nonzero_pos|].
    reflexivity.
Qed.

Lemma randn_log_argument_positive_witness :
  is_Some (randn log_approx cos_approx [0; 0.25; 0; 0; 0.5; 0.75]%float).
Proof.
  apply (randn_log_argument_positive log_approx cos_approx
           [0; 0.25; 0; 0; 0.5; 0.75]%float).
  - repeat constructor.
  - vm_compute. lia.
Defined.

(** ** The generator loop *)

Lemma gen_loop_spec (log cos : number -> number) (k : nat) (rho s : number)
  (xs0 ys0 : list number) (src : source) (xs ys : list number) (rest : source) :
  gen_loop log cos k rho s xs0 ys0 src = Some (xs, ys, rest) ->
  exists xs' es',
    xs = xs0 ++ xs'
    /\ ys = ys0 ++ zip_with (fun x e => rho * x + s * e)%float xs' es'
    /\ length xs' = k /\ length es' = k
    /\ randn_seq log cos (2 * k) src = Some (interleave xs' es', rest).
Proof.
  revert xs0 ys0 src. induction k as [|k IH]; intros xs0 ys0 src; simpl.
  - intros [= <- <- <-]. exists [], []. by rewrite !app_nil_r.
  - destruct (randn log cos src) as [[x s1]|] eqn:Hx; simpl; [|done].
    destruct (randn log cos s1) as [[e s2]|] eqn:He; simpl; [|done].
    intros Hloop. apply IH in Hloop as (xs' & es' & -> & -> & Hlx & Hle & Hseq).
    exists (x :: xs'), (e :: es'). rewrite <- !app_assoc. simpl.
    do 2 (split; [done|]). do 2 (split; [by f_equal|]).
    replace (k + S (k + 0)) with (S (2 * k)) by lia. simpl.
    rewrite He. simpl. replace (k + (k + 0)) with (2 * k) by lia.
    by rewrite Hseq.
Qed.

Lemma gen_loop_total (log cos : number -> number) (k : nat) (rho s : number)
  (xs0 ys0 : list number) (src : source) :
  4 * k <= count nonzero src ->
  is_Some (gen_loop log cos k rho s xs0 ys0 src).
Proof.
  revert xs0 ys0 src. induction k as [|k IH]; intros xs0 ys0 src Hc; simpl;
    [by eexists|].
  destruct (randn_total log cos src) as (x & s1 & -> & Hc1); [lia|]. simpl.
  destruct (randn_total log cos s1) as (e & s2 & -> & Hc2); [lia|]. simpl.
  apply IH. lia.
Qed.

(** C9: [generateBivariateNormal n rho] returns [xs] and [ys] of length
    exactly [n]; index by index, [ys[i] = rho * xs[i] + sqrt(1 - rho^2) *
    e[i]], where [xs[i]] and [e[i]] are the [2i]-th and [2i+1]-th results
    of [randn] in call order, so [(xs[i], ys[i])] is one observation.  The
    call returns whenever the source supplies [4 n] draws that are not
    zero. *)
Theorem generateBivariateNormal_paired (log cos : number -> number) (n : nat)
  (rho : number) (src : source) :
  (4 * n <= count nonzero src ->
   is_Some (generateBivariateNormal log cos n rho src))
  /\ forall xs ys rest,
       generateBivariateNormal log cos n rho src = Some (xs, ys, rest) ->
       length xs = n /\ length ys = n
       /\ exists es,
            length es = n
            /\ randn_seq log cos (2 * n) src = Some (interleave xs es, rest)
            /\ forall i, i < n ->
                 ys !! i = Some (rho * get xs i
                                 + PrimFloat.sqrt (1 - rho * rho) * get es i)%float.
Proof.
  split; [apply gen_loop_total|].
  intros xs ys rest Hgen.
  apply gen_loop_spec in Hgen as (xs' & es' & -> & -> & Hlx & Hle & Hseq).
  simpl. split; [done|].
  split; [rewrite length_zip_with; lia|].
  exists es'. do 2 (split; [done|]).
  intros i Hi. rewrite lookup_zip_with. unfold get.
  destruct (lookup_lt_is_Some_2 xs' i) as [x ->]; [lia|].
  destruct (lookup_lt_is_Some_2 es' i) as [e ->]; [lia|].
  reflexivity.
Qed.

Lemma generateBivariateNormal_paired_witness :
  is_Some (generateBivariateNormal log_approx cos_approx 2 0.5%float
             [0.5; 0; 0.25; 0.75; 0.125; 0; 0; 0.5; 0.25; 0.75; 0.5]%float).
Proof.
  apply (generateBivariateNormal_paired log_approx cos_approx 2 0.5%float
           [0.5; 0; 0.25; 0.75; 0.125; 0; 0; 0.5; 0.25; 0.75; 0.5]%float).
  vm_compute. lia.
Defined.

(** ** Rank transform: the sort and the two loops *)

Lemma sort_insert_perm {A} (cmp : A -> A -> number) (a : A) (l : list A) :
  sort_insert cmp a l ≡ₚ a :: l.
Proof.
  induction l as [|b l IH]; simpl; [done|].
  destruct (0 <? cmp a b)%float; [|done].
  rewrite IH. apply Permutation_swap.
Qed.

Lemma sort_perm {A} (cmp : A -> A -> number) (l : list A) : sort cmp l ≡ₚ l.
Proof.
  induction l as [|a l IH]; simpl; [done|].
  by rewrite sort_insert_perm, IH.
Qed.

Lemma pairs_of_lookup (arr : list number) (k : nat) (p : entry) :
  pairs_of arr !! k = Some p <-> arr !! k = Some p.1 /\ p.2 = k.
Proof.
  unfold pairs_of. rewrite list_lookup_imap. destruct p as [v i]. simpl.
  destruct (arr !! k) as [w|]; simpl; split; try done.
  - by intros [= -> ->].
  - by intros [[= ->] ->].
  - by intros [? _].
Qed.

Lemma pairs_of_values (arr : list number) : (pairs_of arr).*1 = arr.
Proof.
  apply list_eq. intros i. unfold pairs_of.
  rewrite list_lookup_fmap, list_lookup_imap. by destruct (arr !! i).
Qed.

Lemma pairs_of_indices (arr : list number) :
  (pairs_of arr).*2 = seq 0 (length arr).
Proof.
  apply list_eq. intros i. unfold pairs_of.
  rewrite list_lookup_fmap, list_lookup_imap.
  destruct (arr !! i) as [v|] eqn:Hi; simpl; symmetry.
  - apply lookup_seq. split; [done|]. by apply lookup_lt_Some in Hi.
  - apply lookup_seq_ge. by apply lookup_ge_None.
Qed.

Section SortedPairs.
Variable arr : list number.

Definition sorted_pairs : list entry := sort compareFn (pairs_of arr).

Lemma sorted_pairs_perm : sorted_pairs ≡ₚ pairs_of arr.
Proof. apply sort_perm. Qed.

Lemma sorted_pairs_length : length sorted_pairs = length arr.
Proof.
  rewrite (Permutation_length sorted_pairs_perm). apply length_imap.
Qed.

Lemma sorted_pairs_values : sorted_pairs.*1 ≡ₚ arr.
Proof. rewrite sorted_pairs_perm. by rewrite pairs_of_values. Qed.

Lemma sorted_pairs_indices : sorted_pairs.*2 ≡ₚ seq 0 (length arr).
Proof. rewrite sorted_pairs_perm. by rewrite pairs_of_indices. Qed.

Lemma sorted_pairs_NoDup : NoDup (sorted_pairs.*2).
Proof. rewrite sorted_pairs_indices. apply NoDup_seq. Qed.

(** Every entry still points at its own value in [arr]. *)
Lemma sorted_pairs_entry (k : nat) (p : entry) :
  sorted_pairs !! k = Some p -> arr !! p.2 = Some p.1.
Proof.
  intros Hk. apply list_elem_of_lookup_2 in Hk.
  rewrite sorted_pairs_perm in Hk.
  apply list_elem_of_lookup_1 in Hk as [k' Hk'].
  apply pairs_of_lookup in Hk' as [Hv ->]. done.
Qed.

(** Two positions of the sorted array never carry the same index. *)
Lemma sorted_pairs_inj (k k' : nat) (p p' : entry) :
  sorted_pairs !! k = Some p -> sorted_pairs !! k' = Some p' ->
  p.2 = p'.2 -> k = k'.
Proof.
  intros Hk Hk' Heq.
  apply (NoDup_lookup _ k k' p.2 sorted_pairs_NoDup).
  - by rewrite list_lookup_fmap, Hk.
  - by rewrite list_lookup_fmap, Hk', Heq.
Qed.

End SortedPairs.

(** The inner [while]: [scan] stops at the last index of the maximal run
    of entries that are [===] to the entry at [i]. *)
Lemma scan_spec (ps : list entry) (i j fuel : nat) :
  j < length ps -> length ps <= j + 1 + fuel ->
  j <= scan ps i j fuel < length ps
  /\ (forall k q p, j < k <= scan ps i j fuel ->
        ps !! k = Some q -> ps !! i = Some p -> (q.1 =? p.1)%float = true)
  /\ (forall q p, ps !! (scan ps i j fuel + 1) = Some q -> ps !! i = Some p ->
        (q.1 =? p.1)%float = false).
Proof.
  revert j. induction fuel as [|fuel IH]; intros j Hj Hfuel; simpl.
  - split; [lia|]. split; [intros; lia|].
    intros q p Hq _. apply lookup_lt_Some in Hq. lia.
  - destruct (ps !! (j + 1)) as [q|] eqn:Hq;
      [|split; [lia|]; split; [intros; lia|intros; congruence]].
    destruct (ps !! i) as [p|] eqn:Hp;
      [|split; [lia|]; split; [intros; lia|intros; congruence]].
    destruct (q.1 =? p.1)%float eqn:Heq.
    + pose proof (lookup_lt_Some _ _ _ Hq) as Hlt.
      destruct (IH (j + 1)) as (Hb & Hrun & Hstop); [lia|lia|].
      split; [lia|]. split; [|done].
      intros k q' p' Hk Hq' [= <-].
      destruct (decide (k = j + 1)) as [->|Hne].
      * by simplify_eq.
      * apply (Hrun k q' p); [lia|done|done].
    + split; [lia|]. split; [intros; lia|].
      intros q' p' Hq' [= <-]. by simplify_eq.
Qed.

(** The fuel of [scan] is never the reason it stops: any amount that covers
    the rest of the array gives the same result. *)
Lemma scan_fuel (ps : list entry) (i j fuel fuel' : nat) :
  length ps <= j + 1 + fuel -> length ps <= j + 1 + fuel' ->
  scan ps i j fuel = scan ps i j fuel'.
Proof.
  revert j fuel'. induction fuel as [|fuel IH]; intros j fuel' Hf Hf'.
  - destruct fuel' as [|fuel']; simpl; [done|].
    by rewrite lookup_ge_None_2 by lia.
  - destruct fuel' as [|fuel']; simpl.
    + by rewrite lookup_ge_None_2 by lia.
    + destruct (ps !! (j + 1)) as [q|]; [|done].
      destruct (ps !! i) as [p|]; [|done].
      destruct (q.1 =? p.1)%float; [|done]. apply IH; lia.
Qed.

(** The run intervals [(i, j)] the outer loop goes through, in order. *)
Fixpoint run_list (ps : list entry) (i fuel : nat) : list (nat * nat) :=
  match fuel with
  | O => []
  | S fuel' =>
      if i <? length ps then
        let j := scan ps i i (length ps) in
        (i, j) :: run_list ps (j + 1) fuel'
      else []
  end.

(** Consecutive runs that tile the positions from [a] up to the end of
    [ps]: within a run every entry is [===] to the first one, and the entry
    after the run is not. *)
Inductive tiling (ps : list entry) : nat -> list (nat * nat) -> Prop :=
| tiling_end : tiling ps (length ps) []
| tiling_run (a e : nat) (l : list (nat * nat)) :
    a <= e < length ps ->
    (forall k q p, a < k <= e -> ps !! k = Some q -> ps !! a = Some p ->
                   (q.1 =? p.1)%float = true) ->
    (forall q p, ps !! (e + 1) = Some q -> ps !! a = Some p ->
                 (q.1 =? p.1)%float = false) ->
    tiling ps (e + 1) l ->
    tiling ps a ((a, e) :: l).

Lemma run_list_tiling (ps : list entry) (i fuel : nat) :
  i <= length ps -> length ps <= i + fuel ->
  tiling ps i (run_list ps i fuel).
Proof.
  revert i. induction fuel as [|fuel IH]; intros i Hi Hfuel; simpl.
  - replace i with (length ps) by lia. constructor.
  - destruct (i <? length ps) eqn:Hlt.
    + apply Nat.ltb_lt in Hlt.
      destruct (scan_spec ps i i (length ps)) as (Hb & Hrun & Hstop); [lia|lia|].
      constructor; [lia|done|done|]. apply IH; lia.
    + apply Nat.ltb_ge in Hlt. replace i with (length ps) by lia. constructor.
Qed.

Section RankLoopFacts.
Context {R : Type} (avg : nat -> nat -> R).
Variable ps : list entry.

Lemma rank_loop_runs (i : nat) (ranks : list (option R)) (fuel : nat) :
  rank_loop avg ps i ranks fuel
  = foldl (fun rk run => fill avg ps run.1 run.2 rk) ranks (run_list ps i fuel).
Proof.
  revert i ranks. induction fuel as [|fuel IH]; intros i ranks; simpl; [done|].
  destruct (i <? length ps); [|done]. simpl. apply IH.
Qed.

(** One write per position in [ks]. *)
Definition fill_step (a : R) (rk : list (option R)) (k : nat) : list (option R) :=
  match ps !! k with
  | Some p => <[p.2 := Some a]> rk
  | None => rk
  end.

Lemma fill_steps_length (a : R) (ks : list nat) (ranks : list (option R)) :
  length (foldl (fill_step a) ranks ks) = length ranks.
Proof.
  revert ranks. induction ks as [|k ks IH]; intros ranks; simpl; [done|].
  rewrite IH. unfold fill_step. destruct (ps !! k); [|done].
  apply length_insert.
Qed.

Lemma fill_steps_in (a : R) (ks : list nat) (ranks : list (option R))
  (k : nat) (p : entry) :
  k ∈ ks -> ps !! k = Some p -> p.2 < length ranks ->
  foldl (fill_step a) ranks ks !! p.2 = Some (Some a).
Proof.
  induction ks as [|k' ks IH] using rev_ind; intros Hin Hk Hlt.
  - by apply elem_of_nil in Hin.
  - rewrite foldl_app. simpl. unfold fill_step at 1.
    destruct (ps !! k') as [p'|] eqn:Hk'.
    + destruct (decide (p'.2 = p.2)) as [->|Hne].
      * apply list_lookup_insert_eq. by rewrite fill_steps_length.
      * rewrite list_lookup_insert_ne by done. apply IH; [|done..].
        apply elem_of_app in Hin as [Hin|Hin]; [done|].
        apply list_elem_of_singleton in Hin. simplify_eq.
    + apply IH; [|done..].
      apply elem_of_app in Hin as [Hin|Hin]; [done|].
      apply list_elem_of_singleton in Hin. simplify_eq.
Qed.

Lemma fill_steps_out (a : R) (ks : list nat) (ranks : list (option R))
  (idx : nat) :
  (forall k p, k ∈ ks -> ps !! k = Some p -> p.2 <> idx) ->
  foldl (fill_step a) ranks ks !! idx = ranks !! idx.
Proof.
  induction ks as [|k' ks IH] using rev_ind; intros Hout; [done|].
  rewrite foldl_app. simpl. unfold fill_step at 1.
  destruct (ps !! k') as [p'|] eqn:Hk'.
  - rewrite list_lookup_insert_ne.
    + apply IH. intros k p Hin. apply Hout. apply elem_of_app. by left.
    + apply (Hout k'); [|done]. apply elem_of_app. right. by apply list_elem_of_singleton.
  - apply IH. intros k p Hin. apply Hout. apply elem_of_app. by left.
Qed.

Lemma fill_length (i j : nat) (ranks : list (option R)) :
  length (fill avg ps i j ranks) = length ranks.
Proof. apply fill_steps_length. Qed.

Lemma fill_in (i j : nat) (ranks : list (option R)) (k : nat) (p : entry) :
  i <= k <= j -> ps !! k = Some p -> p.2 < length ranks ->
  fill avg ps i j ranks !! p.2 = Some (Some (avg i j)).
Proof.
  intros Hk. apply (fill_steps_in (avg i j)). apply elem_of_seq. lia.
Qed.

Lemma fill_out (i j : nat) (ranks : list (option R)) (idx : nat) :
  (forall k p, i <= k <= j -> ps !! k = Some p -> p.2 <> idx) ->
  fill avg ps i j ranks !! idx = ranks !! idx.
Proof.
  intros Hout. apply (fill_steps_out (avg i j)).
  intros k p Hin%elem_of_seq. apply Hout. lia.
Qed.

Lemma rank_loop_length (i : nat) (ranks : list (option R)) (fuel : nat) :
  length (rank_loop avg ps i ranks fuel) = length ranks.
Proof.
  revert i ranks. induction fuel as [|fuel IH]; intros i ranks; simpl; [done|].
  destruct (i <? length ps); [|done]. by rewrite IH, fill_length.
Qed.

(** Nor is the fuel of the outer loop: each round advances [i]. *)
Lemma rank_loop_fuel (i : nat) (ranks : list (option R)) (fuel fuel' : nat) :
  length ps <= i + fuel -> length ps <= i + fuel' ->
  rank_loop avg ps i ranks fuel = rank_loop avg ps i ranks fuel'.
Proof.
  revert i ranks fuel'. induction fuel as [|fuel IH]; intros i ranks fuel' Hf Hf'.
  - destruct fuel' as [|fuel']; simpl; [done|].
    by replace (i <? length ps) with false by (symmetry; apply Nat.ltb_ge; lia).
  - destruct fuel' as [|fuel']; simpl.
    + by replace (i <? length ps) with false by (symmetry; apply Nat.ltb_ge; lia).
    + destruct (i <? length ps) eqn:Hlt; [|done].
      apply Nat.ltb_lt in Hlt.
      destruct (scan_spec ps i i (length ps)) as (Hb & _); [lia|lia|].
      apply IH; lia.
Qed.

End RankLoopFacts.

(** ** The order of binary64 values *)

Ltac compare_cases :=
  repeat match goal with
    | |- context [Pos.compare_cont Eq ?a ?b] =>
        change (Pos.compare_cont Eq a b) with (Pos.compare a b)
    end;
  repeat (match goal with
    | |- context [(?a ?= ?b)%Z] => destruct (Z.compare_spec a b)
    | |- context [(?a ?= ?b)%positive] => destruct (Pos.compare_spec a b)
    end; simpl).

(** [SFcompare] is a lexicographic comparison, hence transitive. *)
Lemma SFcompare_trans (x y z : spec_float) (c1 c2 : comparison) :
  c1 <> Gt -> c2 <> Gt ->
  SFcompare x y = Some c1 -> SFcompare y z = Some c2 ->
  SFcompare x z = Some (match c1 with Eq => c2 | _ => Lt end).
Proof.
  intros Hc1 Hc2.
  destruct x as [sx|sx| |sx mx ex], y as [sy|sy| |sy my ey],
           z as [sz|sz| |sz mz ez]; simpl;
    try destruct sx; try destruct sy; try destruct sz;
    intros H1 H2; simplify_eq/=; try done.
  all: revert Hc1 Hc2; compare_cases; intros; try done; lia.
Qed.

Lemma SFcompare_some (x y : spec_float) :
  x <> S754_nan -> y <> S754_nan -> is_Some (SFcompare x y).
Proof.
  destruct x as [sx|sx| |sx mx ex], y as [sy|sy| |sy my ey]; simpl;
    intros Hx Hy; try done; by eexists.
Qed.

Lemma eqb_refl (a : number) : isNaN a = false -> (a =? a)%float = true.
Proof. unfold isNaN. by destruct (a =? a)%float. Qed.

Lemma eqb_sym (a b : number) : (a =? b)%float = (b =? a)%float.
Proof.
  rewrite !FloatAxioms.eqb_spec. unfold SFeqb.
  rewrite (SFcompare_antisym (Prim2SF b) (Prim2SF a)).
  by destruct (SFcompare (Prim2SF b) (Prim2SF a)) as [[]|].
Qed.

Lemma eqb_trans (a b c : number) :
  (a =? b)%float = true -> (b =? c)%float = true -> (a =? c)%float = true.
Proof.
  rewrite !FloatAxioms.eqb_spec. unfold SFeqb.
  destruct (SFcompare (Prim2SF a) (Prim2SF b)) as [[]|] eqn:H1; try done.
  destruct (SFcompare (Prim2SF b) (Prim2SF c)) as [[]|] eqn:H2; try done.
  by rewrite (SFcompare_trans _ _ _ Eq Eq) by done.
Qed.

Lemma ltb_trans (a b c : number) :
  (a <? b)%float = true -> (b <? c)%float = true -> (a <? c)%float = true.
Proof.
  rewrite !FloatAxioms.ltb_spec. unfold SFltb.
  destruct (SFcompare (Prim2SF a) (Prim2SF b)) as [[]|] eqn:H1; try done.
  destruct (SFcompare (Prim2SF b) (Prim2SF c)) as [[]|] eqn:H2; try done.
  by rewrite (SFcompare_trans _ _ _ Lt Lt) by done.
Qed.

Lemma ltb_eqb_trans (a b c : number) :
  (a <? b)%float = true -> (b =? c)%float = true -> (a <? c)%float = true.
Proof.
  rewrite !FloatAxioms.ltb_spec, FloatAxioms.eqb_spec. unfold SFltb, SFeqb.
  destruct (SFcompare (Prim2SF a) (Prim2SF b)) as [[]|] eqn:H1; try done.
  destruct (SFcompare (Prim2SF b) (Prim2SF c)) as [[]|] eqn:H2; try done.
  by rewrite (SFcompare_trans _ _ _ Lt Eq) by done.
Qed.

Lemma eqb_ltb_trans (a b c : number) :
  (a =? b)%float = true -> (b <? c)%float = true -> (a <? c)%float = true.
Proof.
  rewrite !FloatAxioms.ltb_spec, FloatAxioms.eqb_spec. unfold SFltb, SFeqb.
  destruct (SFcompare (Prim2SF a) (Prim2SF b)) as [[]|] eqn:H1; try done.
  destruct (SFcompare (Prim2SF b) (Prim2SF c)) as [[]|] eqn:H2; try done.
  by rewrite (SFcompare_trans _ _ _ Eq Lt) by done.
Qed.

Lemma ltb_not_eqb (a b : number) :
  (a <? b)%float = true -> (a =? b)%float = false.
Proof.
  rewrite FloatAxioms.ltb_spec, FloatAxioms.eqb_spec. unfold SFltb, SFeqb.
  by destruct (SFcompare (Prim2SF a) (Prim2SF b)) as [[]|].
Qed.

(** Numbers other than NaN are totally ordered. *)
Lemma trichotomy (a b : number) :
  isNaN a = false -> isNaN b = false ->
  (a <? b)%float = true \/ (a =? b)%float = true \/ (b <? a)%float = true.
Proof.
  rewrite !isNaN_false. intros Ha Hb.
  rewrite !FloatAxioms.ltb_spec, FloatAxioms.eqb_spec. unfold SFltb, SFeqb.
  rewrite (SFcompare_antisym (Prim2SF a) (Prim2SF b)).
  destruct (SFcompare_some _ _ Ha Hb) as [[] ->]; simpl; auto.
Qed.

(** "a <= b" for numbers other than NaN. *)
Definition leq (a b : number) : Prop := (b <? a)%float = false.

Lemma leq_trans (a b c : number) :
  isNaN a = false -> isNaN b = false -> isNaN c = false ->
  leq a b -> leq b c -> leq a c.
Proof.
  unfold leq. intros Ha Hb Hc Hab Hbc.
  destruct (c <? a)%float eqn:Hca; [|done].
  destruct (trichotomy a b Ha Hb) as [Hlt|[Heq|Hgt]]; [| |congruence].
  - by rewrite (ltb_trans _ _ _ Hca Hlt) in Hbc.
  - by rewrite (ltb_eqb_trans _ _ _ Hca Heq) in Hbc.
Qed.

Lemma leq_neq_ltb (a b : number) :
  isNaN a = false -> isNaN b = false ->
  leq a b -> (b =? a)%float = false -> (a <? b)%float = true.
Proof.
  unfold leq. intros Ha Hb Hab Hne.
  destruct (trichotomy a b Ha Hb) as [Hlt|[Heq|Hgt]]; [done| |congruence].
  rewrite eqb_sym in Heq. congruence.
Qed.

Lemma ltb_leq_trans (a b c : number) :
  isNaN b = false -> isNaN c = false ->
  (a <? b)%float = true -> leq b c -> (a <? c)%float = true.
Proof.
  unfold leq. intros Hb Hc Hab Hbc.
  destruct (trichotomy b c Hb Hc) as [Hlt|[Heq|Hgt]]; [| |congruence].
  - by apply (ltb_trans a b c).
  - by apply (ltb_eqb_trans a b c).
Qed.

(** ** Signs through binary64 rounding

    The comparator of the sort is [a.v - b.v].  This section shows from the
    specification of binary64 arithmetic that, for values other than NaN,
    the rounded difference has the sign of the exact one, which in turn is
    the order [<] of the operands; and that the denominator n (n - 1) / 2
    of [kendallTau] is a positive number once n is at least 2. *)

Section DifferenceSign.
Local Open Scope Z_scope.

Lemma digits2_pos_bounds (m : positive) :
  2 ^ (Zpos (digits2_pos m) - 1) <= Zpos m < 2 ^ Zpos (digits2_pos m).
Proof.
  induction m as [p IH|p IH|]; simpl digits2_pos; [| |simpl; lia].
  all: rewrite Pos2Z.inj_succ;
    replace (Z.succ (Zpos (digits2_pos p)) - 1)
      with (Z.succ (Zpos (digits2_pos p) - 1)) by lia;
    rewrite !Z.pow_succ_r by lia; lia.
Qed.

Lemma iter_pos_nat {A} (f : A -> A) (p : positive) (x : A) :
  SpecFloat.iter_pos f p x = Nat.iter (Pos.to_nat p) f x.
Proof.
  revert x. induction p as [p IH|p IH|]; intros x; simpl SpecFloat.iter_pos.
  - rewrite !IH, Pos2Nat.inj_xI.
    replace (S (2 * Pos.to_nat p))%nat with (Pos.to_nat p + (Pos.to_nat p + 1))%nat by lia.
    rewrite !Nat.iter_add. done.
  - rewrite !IH, Pos2Nat.inj_xO.
    replace (2 * Pos.to_nat p)%nat with (Pos.to_nat p + Pos.to_nat p)%nat by lia.
    by rewrite Nat.iter_add.
  - done.
Qed.

Lemma shr_1_m (mrs : shr_record) :
  0 <= shr_m mrs -> shr_m (shr_1 mrs) = Z.div2 (shr_m mrs).
Proof.
  destruct mrs as [m r s]. simpl. by destruct m as [|[p|p|]|[p|p|]]; simpl.
Qed.

Lemma iter_shr_1_pos (n : nat) (mrs : shr_record) :
  2 ^ Z.of_nat n <= shr_m mrs -> 1 <= shr_m (Nat.iter n shr_1 mrs).
Proof.
  revert mrs. induction n as [|n IH]; intros mrs Hm.
  - simpl in *. lia.
  - rewrite Nat.iter_succ_r. apply IH.
    assert (0 < 2 ^ Z.of_nat (S n)) by (apply Z.pow_pos_nonneg; lia).
    rewrite shr_1_m by lia. rewrite Z.div2_div.
    rewrite Nat2Z.inj_succ, Z.pow_succ_r in Hm by lia.
    apply Z.div_le_lower_bound; lia.
Qed.

Abbreviation emin64 := (SpecFloat.emin prec emax).

(** Shifting a positive mantissa to its binary64 exponent keeps it positive
    and does not lower the exponent. *)
Lemma shr_fexp_pos (m : positive) (e : Z) (l : location) :
  emin64 <= e ->
  1 <= shr_m (shr_fexp prec emax (Zpos m) e l).1
  /\ e <= (shr_fexp prec emax (Zpos m) e l).2.
Proof.
  intros He. unfold shr_fexp, shr. simpl Zdigits2.
  pose proof (digits2_pos_bounds m) as [Hlo _].
  set (d := Zpos (digits2_pos m)) in *.
  assert (Hd : 1 <= d) by (unfold d; lia).
  unfold fexp. unfold SpecFloat.emin in *. unfold prec, emax in *.
  destruct (Z.max (d + e - 53) (3 - 1024 - 53) - e) as [|n|n] eqn:Hn.
  - split; [|simpl; lia]. by destruct l as [|[]]; simpl; lia.
  - split; [|simpl; lia]. simpl. rewrite iter_pos_nat.
    apply iter_shr_1_pos. rewrite positive_nat_Z.
    assert (Hnd : Zpos n = d - 53) by lia.
    transitivity (2 ^ (d - 1)).
    + apply Z.pow_le_mono_r; lia.
    + by destruct l as [|[]]; simpl.
  - split; [|simpl; lia]. by destruct l as [|[]]; simpl; lia.
Qed.

(** A result with sign [s] that is an infinity or a finite value whose
    exponent is at least [lo]. *)
Definition signed_above (s : bool) (lo : Z) (r : spec_float) : Prop :=
  match r with
  | S754_finite s' _ e => s' = s /\ lo <= e
  | S754_infinity s' => s' = s
  | _ => False
  end.

Definition signed (s : bool) (r : spec_float) : Prop :=
  match r with
  | S754_finite s' _ _ | S754_infinity s' => s' = s
  | _ => False
  end.

Lemma signed_above_signed (s : bool) (lo : Z) (r : spec_float) :
  signed_above s lo r -> signed s r.
Proof. destruct r; simpl; tauto. Qed.

Lemma binary_round_aux_above (s : bool) (m : positive) (e : Z) (l : location) :
  emin64 <= e -> signed_above s e (binary_round_aux prec emax s (Zpos m) e l).
Proof.
  intros He. unfold binary_round_aux.
  pose proof (shr_fexp_pos m e l He) as [Hm1 He1].
  destruct (shr_fexp prec emax (Zpos m) e l) as [mrs' e'] eqn:H1. simpl in Hm1, He1.
  assert (Hr : 1 <= round_nearest_even (shr_m mrs') (loc_of_shr_record mrs')).
  { unfold round_nearest_even.
    destruct (loc_of_shr_record mrs') as [|[]]; try lia.
    destruct (Z.even (shr_m mrs')); lia. }
  destruct (round_nearest_even (shr_m mrs') (loc_of_shr_record mrs')) as [|m1|m1];
    [lia| |lia].
  pose proof (shr_fexp_pos m1 e' loc_Exact ltac:(lia)) as [Hm2 He2].
  destruct (shr_fexp prec emax (Zpos m1) e' loc_Exact) as [mrs'' e''] eqn:H2.
  simpl in Hm2, He2.
  destruct (shr_m mrs'') as [|m2|m2]; [lia| |lia].
  destruct (e'' <=? emax - prec); simpl; [split; [done|lia]|done].
Qed.

Lemma binary_round_above (s : bool) (m : positive) (e lo : Z) :
  emin64 <= e -> lo <= e -> lo <= fexp prec emax (Zpos (digits2_pos m) + e) ->
  signed_above s lo (binary_round prec emax s m e).
Proof.
  intros He Hlo Hlo'. unfold binary_round, shl_align.
  set (e' := fexp prec emax (Zpos (digits2_pos m) + e)) in *.
  assert (He' : emin64 <= e') by (unfold e', fexp; lia).
  assert (Hw : forall mz ez, emin64 <= ez -> lo <= ez ->
            signed_above s lo (binary_round_aux prec emax s (Zpos mz) ez loc_Exact)).
  { intros mz ez H1 H2. pose proof (binary_round_aux_above s mz ez loc_Exact H1) as Ha.
    destruct (binary_round_aux prec emax s (Zpos mz) ez loc_Exact); simpl in *;
      try done. split; [tauto|lia]. }
  destruct (e' - e); by apply Hw.
Qed.

Lemma binary_round_signed (s : bool) (m : positive) (e : Z) :
  emin64 <= e -> signed s (binary_round prec emax s m e).
Proof.
  intros He. apply (signed_above_signed s emin64).
  apply binary_round_above; [done|done|]. unfold fexp. lia.
Qed.

(** The sign of a normalised integer times a power of two is the sign of
    the integer: rounding never reaches zero, thanks to subnormals. *)
Lemma binary_normalize_sign (z e : Z) :
  emin64 <= e ->
  SFltb (S754_zero false) (binary_normalize prec emax z e false) = (0 <? z).
Proof.
  intros He. destruct z as [|p|p]; simpl; [done| |].
  - pose proof (binary_round_signed false p e He) as Hs.
    by destruct (binary_round prec emax false p e) as [| | |]; simplify_eq/=.
  - pose proof (binary_round_signed true p e He) as Hs.
    by destruct (binary_round prec emax true p e) as [| | |]; simplify_eq/=.
Qed.

Lemma shl_align_val (m : positive) (e e' : Z) :
  e' <= e -> Zpos (shl_align m e e').1 = Zpos m * 2 ^ (e - e').
Proof.
  intros He. unfold shl_align. destruct (e' - e) as [|d|d] eqn:Hd; simpl.
  - replace (e - e') with 0 by lia. lia.
  - lia.
  - replace (e - e') with (Zpos d) by lia.
    change (Pos.iter xO m d) with (shift_pos d m).
    rewrite shift_pos_correct, Z.pow_pos_fold. lia.
Qed.

(** A valid finite binary64 value has at most 53 digits, exactly 53 above
    the least exponent. *)
Lemma bounded_inv (m : positive) (e : Z) :
  bounded prec emax m e = true ->
  emin64 <= e /\ Zpos m < 2 ^ 53 /\ (emin64 < e -> 2 ^ 52 <= Zpos m).
Proof.
  unfold bounded, canonical_mantissa, fexp. intros [Hc _]%andb_prop.
  apply Z.eqb_eq in Hc.
  pose proof (digits2_pos_bounds m) as [Hlo Hhi].
  set (d := Zpos (digits2_pos m)) in *.
  unfold SpecFloat.emin, prec, emax in *.
  split; [lia|]. split.
  - eapply Z.lt_le_trans; [exact Hhi|]. apply Z.pow_le_mono_r; lia.
  - intros He. replace d with 53 in Hlo by lia. exact Hlo.
Qed.

Lemma pow2_ge_2 (k : Z) : 1 <= k -> 2 <= 2 ^ k.
Proof. intros Hk. change 2 with (2 ^ 1) at 1. apply Z.pow_le_mono_r; lia. Qed.

(** The comparator of the sort is faithful: for values other than NaN,
    [a - b] is positive exactly when [b < a]. *)
Lemma SFsub_sign (x y : spec_float) :
  valid_binary x = true -> valid_binary y = true ->
  x <> S754_nan -> y <> S754_nan ->
  SFltb (S754_zero false) (SF64sub x y) = SFltb y x.
Proof.
  intros Hx Hy Hnx Hny. unfold SF64sub.
  destruct x as [sx|sx| |sx mx ex], y as [sy|sy| |sy my ey];
    try done; try (by destruct sx); try (by destruct sy);
    try (by destruct sx, sy).
  simpl in Hx, Hy.
  apply bounded_inv in Hx as (Hex & Hmx & Hmx').
  apply bounded_inv in Hy as (Hey & Hmy & Hmy').
  unfold SFsub. rewrite binary_normalize_sign by lia.
  rewrite !shl_align_val by lia.
  unfold SFltb, SFcompare.
  change (Pos.compare_cont Eq my mx) with (Pos.compare my mx).
  assert (H0 : 2 ^ 0 = 1) by done.
  destruct (Z.compare_spec ey ex) as [->|Hlt|Hgt].
  - rewrite Z.min_id, Z.sub_diag, H0, !Z.mul_1_r.
    destruct (Pos.compare_spec my mx) as [->|Hm|Hm], sx, sy; simpl; lia.
  - rewrite Z.min_r, Z.sub_diag, H0, !Z.mul_1_r by lia.
    pose proof (pow2_ge_2 (ex - ey) ltac:(lia)) as Hp.
    specialize (Hmx' ltac:(lia)).
    assert (2 ^ 53 <= Zpos mx * 2 ^ (ex - ey)) by (change (2 ^ 53) with (2 ^ 52 * 2); nia).
    destruct sx, sy; simpl; lia.
  - rewrite Z.min_l, Z.sub_diag, H0, !Z.mul_1_r by lia.
    pose proof (pow2_ge_2 (ey - ex) ltac:(lia)) as Hp.
    specialize (Hmy' ltac:(lia)).
    assert (2 ^ 53 <= Zpos my * 2 ^ (ey - ex)) by (change (2 ^ 53) with (2 ^ 52 * 2); nia).
    destruct sx, sy; simpl; lia.
Qed.


(** An array length of at least 2, as a number: positive, exponent above
    that of 1. *)
Lemma of_nat_above (n : nat) :
  2 <= Z.of_nat n < 2 ^ 63 ->
  signed_above false (-51) (Prim2SF (of_nat n)).
Proof.
  intros Hn. unfold of_nat. rewrite FloatAxioms.of_uint63_spec, Uint63.of_Z_spec.
  rewrite Z.mod_small by (change Uint63.wB with (2 ^ 63); lia).
  destruct (Z.of_nat n) as [|p|p] eqn:Hp; [lia| |lia]. simpl.
  pose proof (digits2_pos_bounds p) as [_ Hhi].
  assert (Hd : 2 <= Zpos (digits2_pos p)).
  { destruct (digits2_pos p) as [d|d|]; lia. }
  apply binary_round_above; unfold SpecFloat.emin, fexp, prec, emax; lia.
Qed.

(** Such a length minus one: positive, exponent at least that of 1. *)
Lemma sub_one_above (x : spec_float) :
  valid_binary x = true -> signed_above false (-51) x ->
  signed_above false (-52) (SF64sub x (Prim2SF 1)).
Proof.
  intros Hv Hx. change (Prim2SF 1) with (S754_finite false 4503599627370496 (-52)).
  destruct x as [s|s| |s m e]; simpl in Hx; try done.
  destruct Hx as [-> He]. simpl in Hv.
  apply bounded_inv in Hv as (_ & Hm & Hm'). specialize (Hm' ltac:(unfold SpecFloat.emin, prec, emax; lia)).
  unfold SF64sub, SFsub. rewrite Z.min_r by lia.
  rewrite !shl_align_val by lia. simpl cond_Zopp.
  rewrite Z.sub_diag, Z.mul_1_r.
  pose proof (pow2_ge_2 (e - -52) ltac:(lia)) as Hp.
  assert (Hz : 2 ^ 52 <= Zpos m * 2 ^ (e - -52) - 4503599627370496)
    by (change 4503599627370496 with (2 ^ 52); nia).
  destruct (Zpos m * 2 ^ (e - -52) - 4503599627370496) as [|z|z]; [lia| |lia].
  simpl. pose proof (digits2_pos_bounds z) as [_ Hhi].
  assert (Hd : 53 <= Zpos (digits2_pos z)).
  { destruct (Z_lt_le_dec (Zpos (digits2_pos z)) 53) as [Hlt|]; [|done].
    assert (2 ^ Zpos (digits2_pos z) <= 2 ^ 52) by (apply Z.pow_le_mono_r; lia).
    lia. }
  apply binary_round_above; unfold SpecFloat.emin, fexp, prec, emax; lia.
Qed.

Lemma mul_above (x y : spec_float) :
  signed_above false (-51) x -> signed_above false (-52) y ->
  signed_above false (-103) (SF64mul x y).
Proof.
  intros Hx Hy. unfold SF64mul, SFmul.
  destruct x as [sx|sx| |sx mx ex]; simpl in Hx; try done;
    destruct y as [sy|sy| |sy my ey]; simpl in Hy; try done;
    repeat match goal with H : _ /\ _ |- _ => destruct H end; subst;
    simpl; try done.
  pose proof (binary_round_aux_above false (mx * my) (ex + ey) loc_Exact
                ltac:(unfold SpecFloat.emin, prec, emax; lia)) as Ha.
  destruct (binary_round_aux prec emax false (Zpos (mx * my)) (ex + ey) loc_Exact);
    simpl in *; try done. split; [tauto|lia].
Qed.

Lemma div_two_signed (x : spec_float) :
  valid_binary x = true -> signed_above false (-103) x ->
  signed false (SF64div x (Prim2SF 2)).
Proof.
  intros Hv Hx. change (Prim2SF 2) with (S754_finite false 4503599627370496 (-51)).
  destruct x as [s|s| |s m e]; simpl in Hx; try done; [by subst|].
  destruct Hx as [-> He]. simpl in Hv.
  apply bounded_inv in Hv as (_ & Hm & Hm'). specialize (Hm' ltac:(unfold SpecFloat.emin, prec, emax; lia)).
  unfold SF64div, SFdiv, SFdiv_core_binary. simpl xorb.
  set (e' := Z.min (fexp prec emax (Zdigits2 (Zpos m) + e
                                    - (Zdigits2 4503599627370496 + -51)))
                   (e - -51)).
  assert (He' : emin64 <= e' <= e - -51).
  { unfold e', fexp, SpecFloat.emin, prec, emax. lia. }
  set (m' := match e - -51 - e' with
             | 0 => Zpos m
             | Zpos _ => Z.shiftl (Zpos m) (e - -51 - e')
             | Zneg _ => 0
             end).
  assert (Hm'' : Zpos m <= m').
  { unfold m'. destruct (e - -51 - e') as [|k|k] eqn:Hk; [lia| |lia].
    rewrite Z.shiftl_mul_pow2 by lia.
    assert (0 < 2 ^ Zpos k) by (apply Z.pow_pos_nonneg; lia). nia. }
  pose proof (Z.div_eucl_eq m' 4503599627370496 ltac:(lia)) as Hdiv.
  pose proof (Z.mod_pos_bound m' 4503599627370496 ltac:(lia)) as Hmod.
  unfold Z.modulo in Hmod.
  destruct (Z.div_eucl m' 4503599627370496) as [q r].
  assert (Hq : 1 <= q) by (change 4503599627370496 with (2 ^ 52) in *; nia).
  destruct q as [|q|q]; [lia| |lia].
  apply (signed_above_signed false e'). apply binary_round_aux_above, He'.
Qed.

Lemma zero_div_signed (x : spec_float) :
  signed false x -> SF64div (S754_zero false) x = S754_zero false.
Proof. destruct x as [s|s| |s m e]; simpl; try done; by intros ->. Qed.

(** For [2 <= n], zero over [n (n - 1) / 2] is zero (and not NaN). *)
Lemma zero_over_pairs (n : nat) :
  2 <= Z.of_nat n < 2 ^ 63 ->
  (0 / ((of_nat n * (of_nat n - 1)) / 2))%float = 0%float.
Proof.
  intros Hn. apply Prim2SF_inj.
  rewrite FloatAxioms.div_spec. change (Prim2SF 0) with (S754_zero false).
  apply zero_div_signed. rewrite FloatAxioms.div_spec.
  apply div_two_signed; [apply Prim2SF_valid|].
  rewrite FloatAxioms.mul_spec. apply mul_above; [by apply of_nat_above|].
  rewrite FloatAxioms.sub_spec.
  apply sub_one_above; [apply Prim2SF_valid|by apply of_nat_above].
Qed.

Lemma sub_pos_iff (a b : number) :
  isNaN a = false -> isNaN b = false ->
  (0 <? a - b)%float = (b <? a)%float.
Proof.
  unfold isNaN. intros Ha%negb_false_iff Hb%negb_false_iff. rewrite !FloatAxioms.ltb_spec, FloatAxioms.sub_spec.
  change (Prim2SF 0) with (S754_zero false).
  apply SFsub_sign; try apply Prim2SF_valid.
  - intros Hn. rewrite FloatAxioms.eqb_spec, Hn in Ha. done.
  - intros Hn. rewrite FloatAxioms.eqb_spec, Hn in Hb. done.
Qed.

End DifferenceSign.

(** ** The sort orders the values *)

(** An array of numbers proper: no NaN among its values. *)
Definition numeric (arr : list number) : bool :=
  forallb (fun v => negb (isNaN v)) arr.

Lemma numeric_spec (arr : list number) :
  numeric arr = true ->
  (forall a, a ∈ arr -> isNaN a = false)
  /\ (forall a b, a ∈ arr -> b ∈ arr -> (0 <? a - b)%float = (b <? a)%float).
Proof.
  unfold numeric. rewrite forallb_forall. intros H.
  assert (Hnan : forall a, a ∈ arr -> isNaN a = false).
  { intros a Ha%list_elem_of_In. apply H in Ha. by destruct (isNaN a). }
  split; [done|]. intros a b Ha Hb. apply sub_pos_iff; by apply Hnan.
Qed.

Definition entry_leq (a b : number * nat) : Prop := leq a.1 b.1.

Lemma sort_insert_sorted (a : number * nat) (l : list (number * nat)) :
  (forall p, p ∈ a :: l -> isNaN p.1 = false) ->
  (forall p q, p ∈ a :: l -> q ∈ a :: l -> (0 <? p.1 - q.1)%float = (q.1 <? p.1)%float) ->
  StronglySorted entry_leq l ->
  StronglySorted entry_leq (sort_insert compareFn a l).
Proof.
  intros Hnan Hcmp. induction 1 as [|b l Hl IH Hb]; simpl.
  - by repeat constructor.
  - assert (Ha : a ∈ a :: b :: l) by apply list_elem_of_here.
    assert (Hb' : b ∈ a :: b :: l) by (apply list_elem_of_further, list_elem_of_here).
    unfold compareFn at 1. rewrite (Hcmp a b Ha Hb').
    destruct (b.1 <? a.1)%float eqn:Hba.
    + constructor.
      * apply IH.
        -- intros p Hp. apply Hnan.
           apply elem_of_cons in Hp as [->|Hp]; [done|].
           by do 2 apply list_elem_of_further.
        -- intros p q Hp Hq. apply Hcmp.
           ++ apply elem_of_cons in Hp as [->|Hp]; [done|].
              by do 2 apply list_elem_of_further.
           ++ apply elem_of_cons in Hq as [->|Hq]; [done|].
              by do 2 apply list_elem_of_further.
      * rewrite sort_insert_perm. constructor; [|done].
        unfold entry_leq, leq. by apply ltb_antisym.
    + constructor; [by constructor|]. constructor; [done|].
      apply Forall_forall. intros c Hc.
      rewrite Forall_forall in Hb. specialize (Hb c Hc).
      unfold entry_leq in *. apply (leq_trans a.1 b.1 c.1); try done.
      * by apply Hnan.
      * by apply Hnan.
      * apply Hnan. by do 2 apply list_elem_of_further.
Qed.

Lemma sort_sorted (l : list (number * nat)) :
  (forall p, p ∈ l -> isNaN p.1 = false) ->
  (forall p q, p ∈ l -> q ∈ l -> (0 <? p.1 - q.1)%float = (q.1 <? p.1)%float) ->
  StronglySorted entry_leq (sort compareFn l).
Proof.
  induction l as [|a l IH]; intros Hnan Hcmp; simpl; [constructor|].
  assert (Hin : forall p, p ∈ a :: sort compareFn l -> p ∈ a :: l).
  { intros p Hp. by rewrite sort_perm in Hp. }
  apply sort_insert_sorted.
  - intros p Hp. by apply Hnan, Hin.
  - intros p q Hp Hq. by apply Hcmp; apply Hin.
  - apply IH.
    + intros p Hp. by apply Hnan, list_elem_of_further.
    + intros p q Hp Hq. by apply Hcmp; apply list_elem_of_further.
Qed.

Lemma sorted_lookup (ps : list (number * nat)) (k k' : nat) (p p' : number * nat) :
  StronglySorted entry_leq ps -> k < k' ->
  ps !! k = Some p -> ps !! k' = Some p' -> leq p.1 p'.1.
Proof.
  intros Hs. revert k k'. induction Hs as [|a l Hl IH Ha]; intros k k' Hlt Hk Hk';
    [done|].
  destruct k' as [|k']; [lia|]. simpl in Hk'.
  destruct k as [|k]; simpl in Hk.
  - simplify_eq. rewrite Forall_forall in Ha.
    apply (Ha p'). by eapply list_elem_of_lookup_2.
  - apply (IH k k'); [lia|done..].
Qed.

Section Runs.
Variable ps : list (number * nat).

(** The value at position [k] of the sorted array. *)
Definition val (k : nat) : number := get (ps.*1) k.

Lemma val_lookup (k : nat) (p : number * nat) : ps !! k = Some p -> val k = p.1.
Proof. intros Hk. unfold val, get. by rewrite list_lookup_fmap, Hk. Qed.

Hypothesis ps_numeric : forall k, k < length ps -> isNaN (val k) = false.
Hypothesis ps_sorted : forall k k', k < k' < length ps -> leq (val k) (val k').

(** What a run [(s, e)] of a sorted array separates: smaller values before
    it, the same value inside, larger values after it. *)
Definition separates (s e : nat) : Prop :=
  s <= e < length ps
  /\ (forall k, k < s -> (val k <? val s)%float = true)
  /\ (forall k, s <= k <= e -> (val k =? val s)%float = true)
  /\ (forall k, e < k < length ps -> (val s <? val k)%float = true).

Lemma tiling_separates (a : nat) (runs : list (nat * nat)) :
  tiling ps a runs ->
  (forall k, k < a < length ps -> (val k <? val a)%float = true) ->
  forall s e, (s, e) ∈ runs -> separates s e.
Proof using ps_numeric ps_sorted.
  induction 1 as [|a e l Hae Hrun Hstop Htl IH]; intros Hbefore s e' Hin.
  - by apply elem_of_nil in Hin.
  - assert (Hin_run : forall k, a <= k <= e -> (val k =? val a)%float = true).
    { intros k Hk. destruct (decide (k = a)) as [->|Hne].
      - apply eqb_refl, ps_numeric. lia.
      - destruct (lookup_lt_is_Some_2 ps k) as [q Hq]; [lia|].
        destruct (lookup_lt_is_Some_2 ps a) as [p Hp]; [lia|].
        rewrite (val_lookup _ _ Hq), (val_lookup _ _ Hp).
        apply (Hrun k q p); [lia|done..]. }
    assert (Hnext : e + 1 < length ps -> (val a <? val (e + 1))%float = true).
    { intros Hlt.
      destruct (lookup_lt_is_Some_2 ps (e + 1)) as [q Hq]; [lia|].
      destruct (lookup_lt_is_Some_2 ps a) as [p Hp]; [lia|].
      apply leq_neq_ltb; [apply ps_numeric; lia..|apply ps_sorted; lia|].
      rewrite (val_lookup _ _ Hq), (val_lookup _ _ Hp). by apply Hstop. }
    apply elem_of_cons in Hin as [[= -> ->]|Hin].
    + split; [done|]. split; [intros k Hk; apply Hbefore; lia|].
      split; [done|]. intros k Hk.
      destruct (decide (k = e + 1)) as [->|Hne]; [apply Hnext; lia|].
      apply (ltb_leq_trans _ (val (e + 1))); [apply ps_numeric; lia..| |].
      * apply Hnext. lia.
      * apply ps_sorted. lia.
    + apply IH; [|done]. intros k Hk.
      destruct (decide (k < a)) as [Hlt|Hge].
      * apply (ltb_trans _ (val a)); [apply Hbefore; lia|apply Hnext; lia].
      * apply (eqb_ltb_trans _ (val a)); [apply Hin_run; lia|apply Hnext; lia].
Qed.

End Runs.

(** ** What the outer loop leaves in the slots *)

Lemma tiling_cover (ps : list (number * nat)) (a : nat) (runs : list (nat * nat)) :
  tiling ps a runs ->
  forall k, a <= k < length ps -> exists s e, (s, e) ∈ runs /\ s <= k <= e.
Proof.
  induction 1 as [|a e l Hae Hrun Hstop Htl IH]; intros k Hk; [lia|].
  destruct (decide (k <= e)) as [Hle|Hgt].
  - exists a, e. split; [apply list_elem_of_here|lia].
  - destruct (IH k) as (s & e' & Hin & Hse); [lia|].
    exists s, e'. split; [by apply list_elem_of_further|done].
Qed.

Lemma tiling_bounds (ps : list (number * nat)) (a : nat) (runs : list (nat * nat)) :
  tiling ps a runs -> forall s e, (s, e) ∈ runs -> a <= s /\ s <= e < length ps.
Proof.
  induction 1 as [|a e l Hae Hrun Hstop Htl IH]; intros s e' Hin.
  - by apply elem_of_nil in Hin.
  - apply elem_of_cons in Hin as [[= -> ->]|Hin]; [lia|].
    apply IH in Hin. lia.
Qed.

Section Slots.
Context {R : Type} (avg : nat -> nat -> R).
Variable ps : list (number * nat).
Variable N : nat.
Hypothesis ps_inj : forall k k' p p',
  ps !! k = Some p -> ps !! k' = Some p' -> p.2 = p'.2 -> k = k'.
Hypothesis ps_idx : forall k p, ps !! k = Some p -> p.2 < N.

Lemma tiling_fill (a : nat) (runs : list (nat * nat)) (ranks : list (option R)) :
  tiling ps a runs -> length ranks = N ->
  (forall s e k p, (s, e) ∈ runs -> s <= k <= e -> ps !! k = Some p ->
     foldl (fun rk run => fill avg ps run.1 run.2 rk) ranks runs !! p.2
     = Some (Some (avg s e)))
  /\ (forall k p, k < a -> ps !! k = Some p ->
        foldl (fun rk run => fill avg ps run.1 run.2 rk) ranks runs !! p.2
        = ranks !! p.2).
Proof using ps_inj ps_idx.
  intros Ht. revert ranks.
  induction Ht as [|a e l Hae Hrun Hstop Htl IH]; intros ranks Hlen; simpl.
  - split; [|done]. intros s e k p Hin. by apply elem_of_nil in Hin.
  - destruct (IH (fill avg ps a e ranks)) as [IH1 IH2];
      [by rewrite fill_length|].
    split.
    + intros s e' k p Hin Hk Hp.
      apply elem_of_cons in Hin as [[= -> ->]|Hin]; [|by eapply IH1].
      rewrite (IH2 k p) by (done || lia).
      apply (fill_in avg ps a e ranks k p); [done|done|].
      rewrite Hlen. by eapply ps_idx.
    + intros k p Hk Hp. rewrite (IH2 k p) by (done || lia).
      apply fill_out. intros k' p' Hk' Hp' Heq.
      assert (k' = k) by (by eapply ps_inj). lia.
Qed.

End Slots.

(** ** Counting by position *)

Lemma count_app {A} (f : A -> bool) (l k : list A) :
  count f (l ++ k) = count f l + count f k.
Proof. unfold count. by rewrite List.filter_app, length_app. Qed.

Lemma count_perm {A} (f : A -> bool) (l k : list A) :
  l ≡ₚ k -> count f l = count f k.
Proof.
  unfold count. induction 1 as [|x l k _ IH|x y l|l k m _ IH1 _ IH2]; simpl.
  - done.
  - destruct (f x); simpl; by rewrite IH.
  - by destruct (f x), (f y).
  - by rewrite IH1.
Qed.

(** A predicate that holds exactly on the positions [lo, hi) of a list. *)
Lemma count_interval (f : number -> bool) (l : list number) (lo hi : nat) :
  (forall k, k < length l -> f (get l k) = bool_decide (lo <= k < hi)) ->
  count f l = hi `min` length l - lo `min` length l.
Proof.
  induction l as [|w l IH] using rev_ind; intros Hf; [simpl; unfold count; simpl; lia|].
  rewrite count_app, length_app. simpl.
  rewrite IH.
  - specialize (Hf (length l)). unfold get in Hf.
    rewrite lookup_app_r, Nat.sub_diag in Hf by lia. simpl in Hf.
    rewrite length_app in Hf. simpl in Hf.
    unfold count. simpl. rewrite Hf by lia.
    case_bool_decide; simpl; lia.
  - intros k Hk. rewrite <- Hf by (rewrite length_app; simpl; lia).
    unfold get. by rewrite lookup_app_l.
Qed.

(** ** The rank transform, position by position *)

(** The run [(i, j)] of sorted positions each element falls in; its rank is
    [avgRank i j], the mean of the 1-based ranks [i + 1 .. j + 1]. *)
Definition rank_bounds (arr : list number) : list (nat * nat) :=
  default (0, 0) <$> rank_slots pair arr.

Section RankArray.
Variable arr : list number.

Lemma rank_slots_runs {R} (avg : nat -> nat -> R) :
  rank_slots avg arr
  = foldl (fun rk run => fill avg (sorted_pairs arr) run.1 run.2 rk)
          (replicate (length arr) None)
          (run_list (sorted_pairs arr) 0 (length (sorted_pairs arr))).
Proof. unfold rank_slots. apply rank_loop_runs. Qed.

Lemma rank_slots_length {R} (avg : nat -> nat -> R) :
  length (rank_slots avg arr) = length arr.
Proof. unfold rank_slots. by rewrite rank_loop_length, length_replicate. Qed.

Lemma sorted_pairs_tiling :
  tiling (sorted_pairs arr) 0
         (run_list (sorted_pairs arr) 0 (length (sorted_pairs arr))).
Proof. apply run_list_tiling; lia. Qed.

Lemma slots_in_run (s e k : nat) (p : number * nat) :
  (s, e) ∈ run_list (sorted_pairs arr) 0 (length (sorted_pairs arr)) ->
  s <= k <= e -> sorted_pairs arr !! k = Some p ->
  forall (R : Type) (avg : nat -> nat -> R),
    rank_slots avg arr !! p.2 = Some (Some (avg s e)).
Proof.
  intros Hin Hse Hk R avg. rewrite rank_slots_runs.
  eapply (tiling_fill avg (sorted_pairs arr) (length arr)); try done.
  - apply sorted_pairs_inj.
  - intros k' p' Hk'. apply sorted_pairs_entry in Hk'.
    by apply lookup_lt_Some in Hk'.
  - apply sorted_pairs_tiling.
  - apply length_replicate.
Qed.

Lemma slots_at_position (k : nat) (p : number * nat) :
  sorted_pairs arr !! k = Some p ->
  exists s e,
    (s, e) ∈ run_list (sorted_pairs arr) 0 (length (sorted_pairs arr))
    /\ s <= k <= e
    /\ forall (R : Type) (avg : nat -> nat -> R),
         rank_slots avg arr !! p.2 = Some (Some (avg s e)).
Proof.
  intros Hk. pose proof (lookup_lt_Some _ _ _ Hk) as Hlt.
  destruct (tiling_cover _ _ _ sorted_pairs_tiling k) as (s & e & Hin & Hse);
    [lia|].
  exists s, e. do 2 (split; [done|]). by apply (slots_in_run s e k p).
Qed.

(** Every element of [arr] sits at some position of the sorted array. *)
Lemma sorted_pairs_position (idx : nat) (v : number) :
  arr !! idx = Some v -> exists k, sorted_pairs arr !! k = Some (v, idx).
Proof.
  intros Hv. apply list_elem_of_lookup_1.
  rewrite sorted_pairs_perm. apply (list_elem_of_lookup_2 _ idx).
  by apply pairs_of_lookup.
Qed.

(** No slot is left empty. *)
Lemma rank_slots_filled : rank_slots pair arr = Some <$> rank_bounds arr.
Proof.
  unfold rank_bounds. apply list_eq. intros idx.
  rewrite !list_lookup_fmap.
  destruct (arr !! idx) as [v|] eqn:Hv.
  - destruct (sorted_pairs_position idx v Hv) as [k Hk].
    destruct (slots_at_position k _ Hk) as (s & e & _ & _ & Hslot).
    simpl in Hslot. by rewrite (Hslot _ pair).
  - apply lookup_ge_None in Hv.
    rewrite (lookup_ge_None_2 (rank_slots pair arr)); [done|].
    by rewrite rank_slots_length.
Qed.

Lemma rankArray_bounds :
  rankArray arr = (fun b => avgRank b.1 b.2) <$> rank_bounds arr.
Proof.
  unfold rankArray, rank_bounds. apply list_eq. intros idx.
  rewrite !list_lookup_fmap.
  destruct (arr !! idx) as [v|] eqn:Hv.
  - destruct (sorted_pairs_position idx v Hv) as [k Hk].
    destruct (slots_at_position k _ Hk) as (s & e & _ & _ & Hslot).
    simpl in Hslot. by rewrite (Hslot _ pair), (Hslot _ avgRank).
  - apply lookup_ge_None in Hv.
    rewrite !lookup_ge_None_2; [done|by rewrite rank_slots_length..].
Qed.

Lemma rank_bounds_length : length (rank_bounds arr) = length arr.
Proof. unfold rank_bounds. by rewrite length_fmap, rank_slots_length. Qed.

Lemma rankArray_length : length (rankArray arr) = length arr.
Proof. by rewrite rankArray_bounds, length_fmap, rank_bounds_length. Qed.

Lemma rank_bounds_at (idx : nat) (v : number) (k : nat) :
  sorted_pairs arr !! k = Some (v, idx) ->
  exists s e,
    (s, e) ∈ run_list (sorted_pairs arr) 0 (length (sorted_pairs arr))
    /\ s <= k <= e /\ rank_bounds arr !! idx = Some (s, e).
Proof.
  intros Hk. destruct (slots_at_position k _ Hk) as (s & e & Hin & Hse & Hslot).
  exists s, e. do 2 (split; [done|]).
  unfold rank_bounds. rewrite list_lookup_fmap. simpl in Hslot.
  by rewrite (Hslot _ pair).
Qed.

End RankArray.

(** ** The ranks add up to n (n + 1) / 2 *)

Lemma sum_list_with_ext_in {A} (f g : A -> nat) (l : list A) :
  (forall x, x ∈ l -> f x = g x) -> sum_list_with f l = sum_list_with g l.
Proof.
  induction l as [|x l IH]; intros Hfg; simpl; [done|].
  rewrite (Hfg x) by apply list_elem_of_here.
  rewrite IH; [done|]. intros y Hy. by apply Hfg, list_elem_of_further.
Qed.

Lemma sum_list_with_map {A B} (f : B -> nat) (g : A -> B) (l : list A) :
  sum_list_with f (g <$> l) = sum_list_with (fun x => f (g x)) l.
Proof. induction l as [|x l IH]; csimpl; [done|]. by rewrite IH. Qed.

Lemma sum_list_with_lookup {A} (h : A -> nat) (l : list A) :
  sum_list_with h l
  = sum_list_with (fun i => from_option h 0 (l !! i)) (seq 0 (length l)).
Proof.
  induction l as [|x l IH] using rev_ind; [done|].
  rewrite length_app. simpl. rewrite Nat.add_1_r, seq_S, !sum_list_with_app.
  simpl. rewrite lookup_app_r, Nat.sub_diag by lia. simpl.
  rewrite IH. f_equal. apply sum_list_with_ext_in.
  intros i Hi%elem_of_seq. by rewrite lookup_app_l by lia.
Qed.

Lemma sum_list_with_const {A} (f : A -> nat) (c : nat) (l : list A) :
  (forall x, x ∈ l -> f x = c) -> sum_list_with f l = length l * c.
Proof.
  induction l as [|x l IH]; intros Hc; simpl; [done|].
  rewrite (Hc x) by apply list_elem_of_here.
  rewrite IH; [done|]. intros y Hy. by apply Hc, list_elem_of_further.
Qed.

Lemma tiling_sum (ps : list (number * nat)) (a : nat) (runs : list (nat * nat))
  (G : nat -> nat) :
  tiling ps a runs ->
  (forall s e k, (s, e) ∈ runs -> s <= k <= e -> G k = s + e + 2) ->
  sum_list_with G (seq a (length ps - a)) + a * (a + 1)
  = length ps * (length ps + 1).
Proof.
  induction 1 as [|a e l Hae Hrun Hstop Htl IH]; intros HG.
  - rewrite Nat.sub_diag. simpl. lia.
  - replace (length ps - a) with ((e + 1 - a) + (length ps - (e + 1))) by lia.
    rewrite seq_app, sum_list_with_app.
    replace (a + (e + 1 - a)) with (e + 1) by lia.
    rewrite (sum_list_with_const G (a + e + 2)), length_seq.
    + specialize (IH ltac:(intros s e' k Hin; apply HG; by apply list_elem_of_further)).
      nia.
    + intros k Hk%elem_of_seq. apply (HG a e); [apply list_elem_of_here|lia].
Qed.

Lemma rank_bounds_sum (arr : list number) :
  sum_list_with (fun b => b.1 + b.2 + 2) (rank_bounds arr)
  = length arr * (length arr + 1).
Proof.
  rewrite sum_list_with_lookup, rank_bounds_length.
  rewrite <- (sorted_pairs_indices arr), sum_list_with_map.
  rewrite sum_list_with_lookup.
  pose proof (tiling_sum _ _ _
    (fun k => from_option
                (fun p : number * nat =>
                   from_option (fun b => b.1 + b.2 + 2) 0 (rank_bounds arr !! p.2))
                0 (sorted_pairs arr !! k))
    (sorted_pairs_tiling arr)) as Hsum.
  rewrite Nat.sub_0_r in Hsum.
  rewrite <- (sorted_pairs_length arr), <- Hsum; [lia|].
  intros s e k Hin Hk.
  destruct (tiling_bounds _ _ _ (sorted_pairs_tiling arr) s e Hin) as [_ Hse].
  destruct (lookup_lt_is_Some_2 (sorted_pairs arr) k) as [p Hp]; [lia|].
  rewrite Hp. simpl.
  pose proof (slots_in_run arr s e k p Hin Hk Hp _ pair) as Hslot.
  rewrite rank_slots_filled, list_lookup_fmap in Hslot.
  destruct (rank_bounds arr !! p.2) as [b|]; simplify_eq/=. done.
Qed.

(** ** Ranks as counts, for arrays without NaN *)

Section Numeric.
Variable arr : list number.
Hypothesis arr_numeric : numeric arr = true.

Lemma pairs_of_value_in (p : number * nat) : p ∈ pairs_of arr -> p.1 ∈ arr.
Proof.
  intros [k Hk]%list_elem_of_lookup_1. apply pairs_of_lookup in Hk as [Hk _].
  by eapply list_elem_of_lookup_2.
Qed.

Lemma sorted_pairs_numeric (k : nat) :
  k < length (sorted_pairs arr) -> isNaN (val (sorted_pairs arr) k) = false.
Proof using arr_numeric.
  intros Hk. destruct (lookup_lt_is_Some_2 _ _ Hk) as [p Hp].
  rewrite (val_lookup _ _ _ Hp).
  apply (proj1 (numeric_spec arr arr_numeric)).
  apply sorted_pairs_entry in Hp. by eapply list_elem_of_lookup_2.
Qed.

Lemma sorted_pairs_sorted (k k' : nat) :
  k < k' < length (sorted_pairs arr) ->
  leq (val (sorted_pairs arr) k) (val (sorted_pairs arr) k').
Proof using arr_numeric.
  intros Hk.
  destruct (lookup_lt_is_Some_2 (sorted_pairs arr) k) as [p Hp]; [lia|].
  destruct (lookup_lt_is_Some_2 (sorted_pairs arr) k') as [p' Hp']; [lia|].
  rewrite (val_lookup _ _ _ Hp), (val_lookup _ _ _ Hp').
  destruct (numeric_spec arr arr_numeric) as [Hnan Hcmp].
  apply (sorted_lookup (sorted_pairs arr) k k'); [|lia|done..].
  apply sort_sorted.
  - intros q Hq. by apply Hnan, pairs_of_value_in.
  - intros q q' Hq Hq'. by apply Hcmp; apply pairs_of_value_in.
Qed.

Lemma rank_bounds_counts (idx : nat) (v : number) :
  arr !! idx = Some v ->
  rank_bounds arr !! idx
  = Some (count (fun w => (w <? v)%float) arr,
          count (fun w => (w <? v)%float) arr
          + count (fun w => (w =? v)%float) arr - 1)
  /\ 1 <= count (fun w => (w =? v)%float) arr.
Proof using arr_numeric.
  intros Hv. destruct (sorted_pairs_position arr idx v Hv) as [k Hk].
  destruct (rank_bounds_at arr idx v k Hk) as (s & e & Hin & Hse & Hb).
  pose proof (tiling_separates (sorted_pairs arr) sorted_pairs_numeric
                sorted_pairs_sorted 0 _ (sorted_pairs_tiling arr)
                ltac:(intros; lia) s e Hin) as (Hlen & Hlo & Hmid & Hhi).
  set (ps := sorted_pairs arr) in *.
  assert (Hvk : val ps k = v) by (by rewrite (val_lookup _ _ _ Hk)).
  assert (Heq : (v =? val ps s)%float = true) by (rewrite <- Hvk; apply Hmid; lia).
  assert (Heq' : (val ps s =? v)%float = true) by (by rewrite eqb_sym).
  assert (Hlt : count (fun w => (w <? v)%float) (ps.*1) = s).
  { rewrite (count_interval _ _ 0 s); [rewrite length_fmap; lia|].
    intros k'. rewrite length_fmap. intros Hk'. fold (val ps k').
    case_bool_decide as Hc.
    - apply (ltb_eqb_trans _ (val ps s)); [apply Hlo; lia|done].
    - destruct (decide (k' <= e)) as [Hle|Hgt].
      + destruct (val ps k' <? v)%float eqn:Hlt; [|done].
        apply ltb_not_eqb in Hlt.
        rewrite (eqb_trans _ (val ps s) v) in Hlt; [done|apply Hmid; lia|done].
      + destruct (val ps k' <? v)%float eqn:Hlt; [|done].
        apply ltb_antisym in Hlt.
        rewrite (eqb_ltb_trans v (val ps s) (val ps k')) in Hlt;
          [done|done|apply Hhi; lia]. }
  assert (Hcnt : count (fun w => (w =? v)%float) (ps.*1) = e + 1 - s).
  { rewrite (count_interval _ _ s (e + 1)); [rewrite length_fmap; lia|].
    intros k'. rewrite length_fmap. intros Hk'. fold (val ps k').
    case_bool_decide as Hc.
    - apply (eqb_trans _ (val ps s)); [apply Hmid; lia|done].
    - destruct (decide (k' < s)) as [Hbefore|Hafter].
      + apply ltb_not_eqb, (ltb_eqb_trans _ (val ps s)); [apply Hlo; lia|done].
      + rewrite eqb_sym. apply ltb_not_eqb.
        apply (eqb_ltb_trans v (val ps s)); [done|apply Hhi; lia]. }
  rewrite (count_perm _ _ _ (sorted_pairs_values arr)) in Hlt.
  rewrite (count_perm _ _ _ (sorted_pairs_values arr)) in Hcnt.
  rewrite Hlt, Hcnt, Hb. split; [|lia]. do 2 f_equal. lia.
Qed.

End Numeric.

(** C4: [spearmanr x y] is [pearsonr] applied to the rank transforms of [x]
    and [y], ties included; for inputs of equal length it is therefore the
    sample covariance of the ranks over the product of their sample
    standard deviations.  On the tied data x = (1, 2, 2, 3), whose ranks
    are (1, 2.5, 2.5, 4), the two computations agree. *)
Theorem spearmanr_is_pearsonr_of_ranks (x y : list number) :
  spearmanr x y = pearsonr (rankArray x) (rankArray y)
  /\ (length x = length y ->
      spearmanr x y
      = (covariance (rankArray x) (rankArray y)
         / (stdev (rankArray x) * stdev (rankArray y)))%float)
  /\ rankArray [1; 2; 2; 3]%float = [1; 2.5; 2.5; 4]%float
  /\ spearmanr [1; 2; 2; 3]%float [1; 3; 2; 4]%float
     = pearsonr [1; 2.5; 2.5; 4]%float [1; 3; 2; 4]%float.
Proof.
  split; [reflexivity|]. split.
  - intros Hlen. unfold spearmanr. apply pearsonr_spec.
    by rewrite !rankArray_length.
  - split; by vm_compute.
Qed.

Lemma spearmanr_is_pearsonr_of_ranks_witness :
  spearmanr [1; 2; 2; 3]%float [4; 1; 1; 9]%float
  = (covariance (rankArray [1; 2; 2; 3]%float) (rankArray [4; 1; 1; 9]%float)
     / (stdev (rankArray [1; 2; 2; 3]%float)
        * stdev (rankArray [4; 1; 1; 9]%float)))%float.
Proof.
  exact (proj1 (proj2 (spearmanr_is_pearsonr_of_ranks
                         [1; 2; 2; 3]%float [4; 1; 1; 9]%float)) eq_refl).
Defined.

(** ** Degenerate inputs: zeros and NaN through the arithmetic *)

(** A number that is a zero or NaN: the values a vanishing deviation, and
    everything computed from it, can take. *)
Definition zero_or_nan (v : number) : bool := isNaN v || (v =? 0)%float.

Definition sf_zero_or_nan (s : spec_float) : Prop :=
  match s with
  | S754_zero _ | S754_nan => True
  | _ => False
  end.

Lemma zero_or_nan_spec (v : number) :
  zero_or_nan v = true <-> sf_zero_or_nan (Prim2SF v).
Proof.
  unfold zero_or_nan. destruct (isNaN v) eqn:Hn; simpl.
  - apply isNaN_spec in Hn. by rewrite Hn.
  - apply isNaN_false in Hn. rewrite FloatAxioms.eqb_spec.
    change (Prim2SF 0) with (S754_zero false).
    by destruct (Prim2SF v) as [s|s| |s m e]; try destruct s.
Qed.

Ltac zn_cases :=
  rewrite ?zero_or_nan_spec, ?isNaN_spec;
  rewrite ?FloatAxioms.add_spec, ?FloatAxioms.sub_spec, ?FloatAxioms.mul_spec,
    ?FloatAxioms.div_spec, ?FloatAxioms.sqrt_spec, ?FloatAxioms.ltb_spec;
  repeat match goal with
    | |- context [Prim2SF ?v] =>
        is_var v; let s := fresh "s" in destruct (Prim2SF v) as [s|s| |s ? ?];
        try destruct s
    end;
  simpl; try done.

Lemma zn_mul_l (a b : number) :
  zero_or_nan a = true -> zero_or_nan (a * b) = true.
Proof. zn_cases. Qed.

Lemma zn_mul_r (a b : number) :
  zero_or_nan b = true -> zero_or_nan (a * b) = true.
Proof. zn_cases. Qed.

Lemma zn_add (a b : number) :
  zero_or_nan a = true -> zero_or_nan b = true -> zero_or_nan (a + b) = true.
Proof. zn_cases. Qed.

Lemma zn_div_l (a b : number) :
  zero_or_nan a = true -> zero_or_nan (a / b) = true.
Proof. zn_cases. Qed.

Lemma zn_sqrt (a : number) :
  zero_or_nan a = true -> zero_or_nan (PrimFloat.sqrt a) = true.
Proof. zn_cases. Qed.

(** Zero over zero, and anything with a NaN in it, is NaN. *)
Lemma zn_div_zn (a b : number) :
  zero_or_nan a = true -> zero_or_nan b = true -> isNaN (a / b) = true.
Proof. zn_cases. Qed.

Lemma zn_not_pos (a : number) :
  zero_or_nan a = true -> (0 <? a)%float = false /\ (a <? 0)%float = false.
Proof.
  rewrite zero_or_nan_spec, !FloatAxioms.ltb_spec.
  change (Prim2SF 0) with (S754_zero false).
  by destruct (Prim2SF a) as [s|s| |s m e]; try destruct s.
Qed.

Lemma nan_is_zn (a : number) : isNaN a = true -> zero_or_nan a = true.
Proof. unfold zero_or_nan. by intros ->. Qed.

Lemma nan_add_l (a b : number) : isNaN a = true -> isNaN (a + b) = true.
Proof. zn_cases. Qed.

Lemma nan_add_r (a b : number) : isNaN b = true -> isNaN (a + b) = true.
Proof. zn_cases. Qed.

Lemma nan_sub_l (a b : number) : isNaN a = true -> isNaN (a - b) = true.
Proof. zn_cases. Qed.

Lemma nan_sub_r (a b : number) : isNaN b = true -> isNaN (a - b) = true.
Proof. zn_cases. Qed.

Lemma nan_mul_r (a b : number) : isNaN b = true -> isNaN (a * b) = true.
Proof. zn_cases. Qed.

Lemma nan_div_l (a b : number) : isNaN a = true -> isNaN (a / b) = true.
Proof. zn_cases. Qed.

(** The difference of two numbers that are [===] is a zero (or NaN, for
    two infinities). *)
Lemma eqb_sub_zn (a b : number) :
  (a =? b)%float = true -> zero_or_nan (a - b) = true.
Proof.
  rewrite FloatAxioms.eqb_spec, zero_or_nan_spec, FloatAxioms.sub_spec.
  unfold SFeqb, SF64sub.
  destruct (Prim2SF a) as [sa|sa| |sa ma ea], (Prim2SF b) as [sb|sb| |sb mb eb];
    try destruct sa; try destruct sb; try done.
  all: unfold SFcompare, SFsub;
    change (Pos.compare_cont Eq ma mb) with (Pos.compare ma mb);
    destruct (Z.compare_spec ea eb) as [->| |]; try done;
    destruct (Pos.compare_spec ma mb) as [->| |]; try done;
    intros _; by rewrite Z.sub_diag.
Qed.

Lemma eqb0_zn (d : number) : (d =? 0)%float = true -> zero_or_nan d = true.
Proof. unfold zero_or_nan. intros ->. apply orb_true_r. Qed.

Lemma foldl_add_zn {A} (t : A -> number) (acc : number) (l : list A) :
  zero_or_nan acc = true -> (forall i, i ∈ l -> zero_or_nan (t i) = true) ->
  zero_or_nan (foldl (fun s i => s + t i)%float acc l) = true.
Proof.
  revert acc. induction l as [|i l IH]; intros acc Hacc Ht; simpl; [done|].
  apply IH.
  - apply zn_add; [done|]. apply Ht, list_elem_of_here.
  - intros j Hj. by apply Ht, list_elem_of_further.
Qed.

Lemma foldl_add_nan {A} (t : A -> number) (acc : number) (l : list A) :
  isNaN acc = true -> isNaN (foldl (fun s i => s + t i)%float acc l) = true.
Proof.
  revert acc. induction l as [|i l IH]; intros acc Hacc; simpl; [done|].
  by apply IH, nan_add_l.
Qed.

Lemma zero_dev_get (a : list number) (i : nat) :
  zero_dev a = true -> zero_or_nan (get a i - mean a) = true.
Proof.
  unfold zero_dev, get. rewrite forallb_forall. intros Hz.
  destruct (a !! i) as [v|] eqn:Hv; simpl.
  - apply eqb0_zn, Hz, list_elem_of_In. by eapply list_elem_of_lookup_2.
  - by apply nan_is_zn, nan_sub_l.
Qed.

Lemma sd_zero_dev (a : list number) :
  zero_dev a = true -> zero_or_nan (sd a) = true.
Proof.
  intros Hz. unfold sd. apply zn_sqrt, zn_div_l.
  apply (foldl_add_zn (fun x => sqr (x - mean a))); [done|].
  intros v Hv. apply zn_mul_l, eqb0_zn.
  unfold zero_dev in Hz. rewrite forallb_forall in Hz.
  by apply Hz, list_elem_of_In.
Qed.

Lemma pearsonr_zero_dev (x y : list number) :
  zero_dev x = true \/ zero_dev y = true -> isNaN (pearsonr x y) = true.
Proof.
  intros Hz. unfold pearsonr. apply zn_div_zn.
  - apply zn_div_l. unfold cov_loop.
    apply (foldl_add_zn (fun i => (get x i - mean x) * (get y i - mean y))%float);
      [done|].
    intros i _. destruct Hz as [Hz|Hz].
    + by apply zn_mul_l, zero_dev_get.
    + by apply zn_mul_r, zero_dev_get.
  - destruct Hz as [Hz|Hz].
    + by apply zn_mul_l, sd_zero_dev.
    + by apply zn_mul_r, sd_zero_dev.
Qed.

Lemma pearsonr_short (x y : list number) :
  length y < length x -> isNaN (pearsonr x y) = true.
Proof.
  intros Hlen. unfold pearsonr. do 2 apply nan_div_l. unfold cov_loop.
  replace (length x) with (length y + S (length x - S (length y))) by lia.
  rewrite seq_app, foldl_app. simpl.
  apply (foldl_add_nan (fun i => (get x i - mean x) * (get y i - mean y))%float).
  apply nan_add_r, nan_mul_r, nan_sub_l.
  unfold get. by rewrite lookup_ge_None_2.
Qed.

Lemma constant_sub_zn (a : list number) (i j : nat) :
  constant a = true -> zero_or_nan (get a i - get a j) = true.
Proof.
  unfold constant, get. rewrite forallb_forall. intros Hc.
  destruct (a !! i) as [v|] eqn:Hv; simpl; [|by apply nan_is_zn, nan_sub_l].
  destruct (a !! j) as [w|] eqn:Hw; simpl; [|by apply nan_is_zn, nan_sub_r].
  apply eqb_sub_zn.
  specialize (Hc v). rewrite forallb_forall in Hc.
  apply Hc; apply list_elem_of_In; by eapply list_elem_of_lookup_2.
Qed.

Lemma kendall_constant (x y : list number) :
  constant x = true \/ constant y = true -> kendall_counts x y = (0, 0).
Proof.
  intros Hc. rewrite kendall_counts_pairs, kendall_fold_counts. simpl.
  assert (Hzn : forall p, zero_or_nan (pair_product x y p) = true).
  { intros p. unfold pair_product. destruct Hc as [Hc|Hc].
    - by apply zn_mul_l, constant_sub_zn.
    - by apply zn_mul_r, constant_sub_zn. }
  unfold count. rewrite !filter_none; [done| |].
  - apply Forall_forall. intros p _. apply (zn_not_pos _ (Hzn p)).
  - apply Forall_forall. intros p _. apply (zn_not_pos _ (Hzn p)).
Qed.

(** ** Symmetry *)

Lemma SFmul_comm (x y : spec_float) : SF64mul x y = SF64mul y x.
Proof.
  unfold SF64mul, SFmul.
  destruct x as [sx|sx| |sx mx ex], y as [sy|sy| |sy my ey];
    rewrite ?(xorb_comm sy sx); try done.
  by rewrite (Pos.mul_comm my mx), (Z.add_comm ey ex).
Qed.

Lemma mul_comm (a b : number) : (a * b)%float = (b * a)%float.
Proof. apply Prim2SF_inj. rewrite !FloatAxioms.mul_spec. apply SFmul_comm. Qed.

Lemma cov_loop_comm (x y : list number) (mx my : number) (n : nat) :
  cov_loop x y mx my n = cov_loop y x my mx n.
Proof.
  unfold cov_loop. apply foldl_ext_eq. intros cov i. by rewrite mul_comm.
Qed.

Lemma pearsonr_comm (x y : list number) :
  length x = length y -> pearsonr x y = pearsonr y x.
Proof.
  intros Hlen. unfold pearsonr. rewrite <- Hlen.
  by rewrite (cov_loop_comm x y), (mul_comm (sd x) (sd y)).
Qed.

(** X1: Pearson's r and Spearman's rho do not depend on the order of their two
    arguments when these have the same length: the products are taken in
    binary64, whose multiplication is commutative. *)
Theorem pearsonr_spearmanr_symmetric (x y : list number) :
  length x = length y ->
  pearsonr x y = pearsonr y x /\ spearmanr x y = spearmanr y x.
Proof.
  intros Hlen. split; [by apply pearsonr_comm|].
  unfold spearmanr. apply pearsonr_comm. by rewrite !rankArray_length.
Qed.

Lemma kendall_step_comm (x y : list number) (i : nat) (acc : nat * nat) (j : nat) :
  kendall_step x y i acc j = kendall_step y x i acc j.
Proof. unfold kendall_step. by rewrite mul_comm. Qed.

(** X2: Kendall's tau does not depend on the order of its two arguments when
    these have the same length. *)
Theorem kendallTau_symmetric (x y : list number) :
  length x = length y -> kendallTau x y = kendallTau y x.
Proof.
  intros Hlen. unfold kendallTau.
  assert (Hc : kendall_counts x y = kendall_counts y x).
  { unfold kendall_counts. rewrite <- Hlen.
    apply foldl_ext_eq. intros acc i. apply foldl_ext_eq. intros acc' j.
    apply kendall_step_comm. }
  by rewrite Hc, Hlen.
Qed.

Lemma pearsonr_spearmanr_symmetric_witness :
  pearsonr [1; 2; 4]%float [2; 1; 7]%float
  = pearsonr [2; 1; 7]%float [1; 2; 4]%float.
Proof.
  apply (pearsonr_spearmanr_symmetric [1; 2; 4]%float [2; 1; 7]%float).
  reflexivity.
Defined.

Lemma kendallTau_symmetric_witness :
  kendallTau [1; 2; 4]%float [2; 1; 7]%float
  = kendallTau [2; 1; 7]%float [1; 2; 4]%float.
Proof.
  apply (kendallTau_symmetric [1; 2; 4]%float [2; 1; 7]%float). reflexivity.
Defined.

(** ** Fewer than two observations *)

Ltac in_cases :=
  unfold inf_or_nan;
  rewrite ?isNaN_spec;
  rewrite ?FloatAxioms.add_spec, ?FloatAxioms.sub_spec, ?FloatAxioms.mul_spec,
    ?FloatAxioms.div_spec, ?FloatAxioms.sqrt_spec;
  repeat match goal with
    | |- context [Prim2SF ?v] =>
        is_var v; let s := fresh "s" in destruct (Prim2SF v) as [s|s| |s ? ?];
        try destruct s
    end;
  simpl; try done.

Lemma in_div_zero (a : number) : inf_or_nan (a / 0).
Proof. in_cases. Qed.

Lemma in_sqrt (a : number) : inf_or_nan a -> inf_or_nan (PrimFloat.sqrt a).
Proof. in_cases. Qed.

Lemma in_mul_l (a b : number) : inf_or_nan a -> inf_or_nan (a * b).
Proof. in_cases. Qed.

Lemma in_div_in (a b : number) :
  inf_or_nan a -> inf_or_nan b -> isNaN (a / b) = true.
Proof. in_cases. Qed.

Lemma pearsonr_small (x y : list number) :
  length x <= 1 -> isNaN (pearsonr x y) = true.
Proof.
  intros Hlen. destruct x as [|v [|w x]]; simpl in Hlen; [| |lia].
  - unfold pearsonr. apply zn_div_zn.
    + by apply zn_div_l.
    + apply zn_mul_l. unfold sd. by apply zn_sqrt, zn_div_l.
  - unfold pearsonr, sd. simpl length.
    change (of_nat 1 - 1)%float with 0%float.
    apply in_div_in; [apply in_div_zero|].
    apply in_mul_l, in_sqrt, in_div_zero.
Qed.

Lemma kendallTau_small (x y : list number) :
  length x <= 1 -> isNaN (kendallTau x y) = true.
Proof.
  intros Hlen. by destruct x as [|v [|w x]]; simpl in Hlen; [| |lia].
Qed.

(** X3: with fewer than two observations in [x] the three coefficients are
    NaN, whatever [y] is: the divisions by [n - 1] and by [n (n - 1) / 2]
    are divisions by a zero. *)
Theorem fewer_than_two_observations (x y : list number) :
  length x <= 1 ->
  isNaN (pearsonr x y) = true
  /\ isNaN (spearmanr x y) = true
  /\ isNaN (kendallTau x y) = true.
Proof.
  intros Hlen. split; [by apply pearsonr_small|]. split.
  - unfold spearmanr. apply pearsonr_small. by rewrite rankArray_length.
  - by apply kendallTau_small.
Qed.

Lemma fewer_than_two_observations_witness :
  isNaN (pearsonr [3]%float [4; 5]%float) = true
  /\ isNaN (spearmanr [3]%float [4; 5]%float) = true
  /\ isNaN (kendallTau [3]%float [4; 5]%float) = true.
Proof.
  apply (fewer_than_two_observations [3]%float [4; 5]%float). simpl. lia.
Defined.

(** ** The guess check: NaN and exact guesses *)

Lemma nan_abs (a : number) : isNaN a = true -> isNaN (abs a) = true.
Proof.
  rewrite !isNaN_spec, FloatAxioms.abs_spec. by intros ->.
Qed.

Lemma nan_leb (a b : number) : isNaN a = true -> (a <=? b)%float = false.
Proof.
  rewrite isNaN_spec, FloatAxioms.leb_spec. by intros ->.
Qed.

Lemma nan_not_finite (a : number) : isNaN a = true -> isFinite a = false.
Proof.
  unfold isFinite, is_finite, is_nan, isNaN. by intros ->.
Qed.

Lemma isFinite_spec (a : number) :
  isFinite a = true <->
  match Prim2SF a with S754_zero _ | S754_finite _ _ _ => True | _ => False end.
Proof.
  unfold isFinite, is_finite, is_nan, is_infinity.
  rewrite negb_true_iff, orb_false_iff, negb_false_iff.
  rewrite !FloatAxioms.eqb_spec, FloatAxioms.abs_spec.
  change (Prim2SF infinity) with (S754_infinity false).
  destruct (Prim2SF a) as [s|s| |s m e]; try destruct s.
  all: unfold SFeqb; rewrite ?SFcompare_refl by done; simpl;
    intuition congruence.
Qed.

(** The distance of a finite number from itself is a zero. *)
Lemma abs_sub_diag (a : number) :
  isFinite a = true -> Prim2SF (abs (a - a)) = S754_zero false.
Proof.
  rewrite isFinite_spec, FloatAxioms.abs_spec, FloatAxioms.sub_spec.
  unfold SF64sub.
  destruct (Prim2SF a) as [s|s| |s m e]; try done; [by destruct s|].
  intros _. unfold SFsub. by rewrite Z.sub_diag.
Qed.

Lemma zero_leb_pos (z t : number) :
  Prim2SF z = S754_zero false -> (0 <? t)%float = true -> (z <=? t)%float = true.
Proof.
  rewrite FloatAxioms.ltb_spec, FloatAxioms.leb_spec. intros ->.
  change (Prim2SF 0) with (S754_zero false).
  unfold SFltb, SFleb. by destruct (SFcompare _ _) as [[]|].
Qed.

Lemma tolerance_positive (parseFloat : string -> number) (f : fields) :
  (0 <? tolerance_of parseFloat f)%float = true.
Proof.
  unfold tolerance_of, or_else, truthy.
  destruct (isNaN (parseFloat (tolerance_value f))) eqn:Hn; [done|].
  destruct (parseFloat (tolerance_value f) =? 0)%float eqn:Hz; [done|].
  simpl. by apply abs_pos.
Qed.

Section Feedback.
Variables (parseFloat : string -> number).
Variables (Math_round : number -> number) (toFixed : number -> nat -> string).

Lemma fmt_nan (v : number) :
  isNaN v = true -> fmt Math_round toFixed v = "NaN"%string.
Proof. intros Hn. unfold fmt. by rewrite nan_not_finite. Qed.

(** X4: when a statistic of the round is NaN, every numeric guess for it is
    judged Wrong whatever the tolerance; the page shows NaN for the
    statistic and for the distance, and the round is not won. *)
Theorem checkGuesses_nan_statistic (pg : page) (r : report) :
  resultDiv (checkGuesses parseFloat pg) = Verdicts r ->
  (isNaN (pearson (current pg)) = true ->
   actual_pearson_text (render Math_round toFixed r) = "NaN"%string
   /\ pearson_line (render Math_round toFixed r)
      = VerdictLine (fmt Math_round toFixed (gPearson r)) "NaN" false
   /\ you_win (render Math_round toFixed r) = false)
  /\ (isNaN (spearman (current pg)) = true ->
      actual_spearman_text (render Math_round toFixed r) = "NaN"%string
      /\ spearman_line (render Math_round toFixed r)
         = VerdictLine (fmt Math_round toFixed (gSpearman r)) "NaN" false
      /\ you_win (render Math_round toFixed r) = false)
  /\ (isNaN (kendall (current pg)) = true ->
      actual_kendall_text (render Math_round toFixed r) = "NaN"%string
      /\ kendall_line (render Math_round toFixed r)
         = VerdictLine (fmt Math_round toFixed (gKendall r)) "NaN" false
      /\ you_win (render Math_round toFixed r) = false).
Proof.
  unfold checkGuesses.
  destruct (isNaN _ || isNaN _ || isNaN _); simpl; [done|].
  intros [= <-]. unfold render. simpl.
  split; [|split]; intros Hn.
  all: rewrite (fmt_nan _ Hn), (fmt_nan _ (nan_abs _ (nan_sub_r _ _ Hn)));
    rewrite (nan_leb _ _ (nan_abs _ (nan_sub_r _ _ Hn)));
    rewrite ?andb_false_r; done.
Qed.

(** X5: a guess that parses to the stored statistic itself is OK whatever the
    tolerance, provided the statistic is finite. *)
Theorem checkGuesses_exact_guess (pg : page) :
  parseFloat (pearson_value (inputs pg)) = pearson (current pg) ->
  parseFloat (spearman_value (inputs pg)) = spearman (current pg) ->
  parseFloat (kendall_value (inputs pg)) = kendall (current pg) ->
  isFinite (pearson (current pg)) = true ->
  isFinite (spearman (current pg)) = true ->
  isFinite (kendall (current pg)) = true ->
  exists r, resultDiv (checkGuesses parseFloat pg) = Verdicts r
    /\ pPass r = true /\ sPass r = true /\ kPass r = true
    /\ allPass r = true.
Proof.
  intros HP HS HK FP FS FK.
  assert (Hnum : forall a, isFinite a = true -> isNaN a = false).
  { intros a Ha. destruct (isNaN a) eqn:Hn; [|done].
    by rewrite (nan_not_finite a Hn) in Ha. }
  destruct (checkGuesses_numeric parseFloat pg)
    as (r & Hr & HpD & HsD & HkD & Hp & Hs & Hk & Hall).
  { rewrite HP. by apply Hnum. }
  { rewrite HS. by apply Hnum. }
  { rewrite HK. by apply Hnum. }
  exists r. split; [done|].
  rewrite Hall, Hp, Hs, Hk, HpD, HsD, HkD, HP, HS, HK.
  rewrite !zero_leb_pos;
    by auto using abs_sub_diag, tolerance_positive.
Qed.

End Feedback.

Lemma checkGuesses_nan_statistic_witness :
  exists r,
    resultDiv
      (checkGuesses (parse_table demo_table)
         (Page (Round [] [] nan nan nan) (Fields "0.1" "0.55" "0.40" "0.25")
               FillAllGuesses))
    = Verdicts r
    /\ you_win (render round_approx toFixed_approx r) = false.
Proof.
  eexists. split; [reflexivity|].
  eapply (checkGuesses_nan_statistic (parse_table demo_table)
            round_approx toFixed_approx
            (Page (Round [] [] nan nan nan) (Fields "0.1" "0.55" "0.40" "0.25")
                  FillAllGuesses)); reflexivity.
Defined.

Lemma checkGuesses_exact_guess_witness :
  exists r,
    resultDiv
      (checkGuesses (parse_table demo_table)
         (Page (Round [] [] 0.55 0.40 0.25) (Fields "0" "0.55" "0.40" "0.25")
               FillAllGuesses))
    = Verdicts r
    /\ allPass r = true.
Proof.
  destruct (checkGuesses_exact_guess (parse_table demo_table)
              (Page (Round [] [] 0.55 0.40 0.25)
                    (Fields "0" "0.55" "0.40" "0.25") FillAllGuesses)
              eq_refl eq_refl eq_refl eq_refl eq_refl eq_refl)
    as (r & Hr & _ & _ & _ & Hall).
  by exists r.
Defined.

(** ** The guess check: infinite guesses *)

Lemma abs_inf_sub (g a : number) :
  Prim2SF (abs g) = S754_infinity false -> isFinite a = true ->
  Prim2SF (abs (g - a)) = S754_infinity false.
Proof.
  rewrite isFinite_spec, !FloatAxioms.abs_spec, FloatAxioms.sub_spec.
  unfold SF64sub.
  destruct (Prim2SF g) as [s|s| |s m e], (Prim2SF a) as [s'|s'| |s' m' e'];
    try done; by destruct s.
Qed.

Lemma inf_not_finite (v : number) :
  Prim2SF (abs v) = S754_infinity false -> isFinite v = false.
Proof.
  intros Hv. destruct (isFinite v) eqn:Hf; [|done].
  apply isFinite_spec in Hf. rewrite FloatAxioms.abs_spec in Hv.
  by destruct (Prim2SF v).
Qed.

Lemma abs_abs (v : number) : abs (abs v) = abs v.
Proof.
  apply Prim2SF_inj. rewrite !FloatAxioms.abs_spec. by destruct (Prim2SF v).
Qed.

Lemma inf_leb_finite (v t : number) :
  Prim2SF v = S754_infinity false -> isFinite t = true -> (v <=? t)%float = false.
Proof.
  rewrite isFinite_spec, FloatAxioms.leb_spec. intros ->.
  by destruct (Prim2SF t) as [s|s| |s m e].
Qed.

(** An infinity is not NaN. *)
Lemma inf_not_nan (v : number) :
  Prim2SF (abs v) = S754_infinity false -> isNaN v = false.
Proof.
  rewrite isNaN_false, FloatAxioms.abs_spec. by destruct (Prim2SF v).
Qed.

Section InfiniteGuess.
Variables (parseFloat : string -> number).
Variables (Math_round : number -> number) (toFixed : number -> nat -> string).

(** X6: a Pearson guess of [Infinity] or [-Infinity] is accepted as numeric:
    with two numeric other guesses the check goes on to the verdicts;
    against a finite statistic and a finite tolerance the guess is
    displayed as NaN, at a distance displayed as NaN, and judged Wrong, so
    the round is not won. *)
Theorem checkGuesses_infinite_guess (pg : page) :
  Prim2SF (abs (parseFloat (pearson_value (inputs pg)))) = S754_infinity false ->
  isNaN (parseFloat (spearman_value (inputs pg))) = false ->
  isNaN (parseFloat (kendall_value (inputs pg))) = false ->
  isFinite (pearson (current pg)) = true ->
  isFinite (tolerance_of parseFloat (inputs pg)) = true ->
  exists r,
    resultDiv (checkGuesses parseFloat pg) = Verdicts r
    /\ gPearson r = parseFloat (pearson_value (inputs pg))
    /\ pearson_line (render Math_round toFixed r) = VerdictLine "NaN" "NaN" false
    /\ you_win (render Math_round toFixed r) = false.
Proof.
  intros Hinf HS HK Hfin Htol.
  destruct (checkGuesses_numeric parseFloat pg (inf_not_nan _ Hinf) HS HK)
    as (r & Hr & HpD & _ & _ & Hp & _ & _ & Hall).
  exists r. split; [done|].
  assert (Hg : gPearson r = parseFloat (pearson_value (inputs pg))).
  { revert Hr. unfold checkGuesses.
    destruct (isNaN _ || isNaN _ || isNaN _); simpl; [done|]. by intros [= <-]. }
  split; [done|].
  pose proof (abs_inf_sub _ _ Hinf Hfin) as Hd. rewrite <- HpD in Hd.
  assert (Hpass : pPass r = false) by (rewrite Hp; by apply inf_leb_finite).
  unfold render, fmt. simpl. rewrite Hg, (inf_not_finite _ Hinf).
  rewrite (inf_not_finite (pDiff r)).
  - by rewrite Hall, Hpass.
  - rewrite HpD, abs_abs. by rewrite <- HpD.
Qed.

End InfiniteGuess.

Lemma checkGuesses_infinite_guess_witness :
  (exists r,
     resultDiv
       (checkGuesses (parse_table inf_table)
          (Page (Round [] [] 0.55 0.40 0.25)
                (Fields "0.1" "Infinity" "0.40" "0.25") FillAllGuesses))
     = Verdicts r
     /\ you_win (render round_approx toFixed_approx r) = false)
  /\ (exists r,
        resultDiv
          (checkGuesses (parse_table inf_table)
             (Page (Round [] [] 0.55 0.40 0.25)
                   (Fields "0.1" "-Infinity" "0.40" "0.25") FillAllGuesses))
        = Verdicts r
        /\ pearson_line (render round_approx toFixed_approx r)
           = VerdictLine "NaN" "NaN" false).
Proof.
  split.
  - destruct (checkGuesses_infinite_guess (parse_table inf_table)
                round_approx toFixed_approx
                (Page (Round [] [] 0.55 0.40 0.25)
                      (Fields "0.1" "Infinity" "0.40" "0.25") FillAllGuesses)
                eq_refl eq_refl eq_refl eq_refl eq_refl)
      as (r & Hr & _ & _ & Hwin).
    by exists r.
  - destruct (checkGuesses_infinite_guess (parse_table inf_table)
                round_approx toFixed_approx
                (Page (Round [] [] 0.55 0.40 0.25)
                      (Fields "0.1" "-Infinity" "0.40" "0.25") FillAllGuesses)
                eq_refl eq_refl eq_refl eq_refl eq_refl)
      as (r & Hr & _ & Hline & _).
    by exists r.
Defined.

(** ** Rounding never invents NaN *)

Section NoNaN.
Local Open Scope Z_scope.

Lemma iter_shr_1_nonneg (n : nat) (mrs : shr_record) :
  0 <= shr_m mrs -> 0 <= shr_m (Nat.iter n shr_1 mrs).
Proof.
  induction n as [|n IH]; intros Hm; simpl; [done|].
  rewrite shr_1_m by by apply IH. rewrite Z.div2_div.
  apply Z.div_pos; [by apply IH|lia].
Qed.

Lemma shr_fexp_nonneg (m e : Z) (l : location) :
  0 <= m -> 0 <= shr_m (shr_fexp prec emax m e l).1.
Proof.
  intros Hm. unfold shr_fexp, shr.
  assert (H0 : 0 <= shr_m (shr_record_of_loc m l)) by (by destruct l as [|[]]).
  destruct (fexp prec emax (Zdigits2 m + e) - e) as [|n|n]; simpl; try done.
  rewrite iter_pos_nat. by apply iter_shr_1_nonneg.
Qed.

Lemma round_nearest_even_ge (m : Z) (l : location) :
  m <= round_nearest_even m l <= m + 1.
Proof.
  unfold round_nearest_even. destruct l as [|[]]; try lia.
  destruct (Z.even m); lia.
Qed.

Lemma binary_round_aux_not_nan (s : bool) (m e : Z) (l : location) :
  0 <= m -> binary_round_aux prec emax s m e l <> S754_nan.
Proof.
  intros Hm. unfold binary_round_aux.
  pose proof (shr_fexp_nonneg m e l Hm) as H1.
  destruct (shr_fexp prec emax m e l) as [mrs' e']. simpl in H1.
  pose proof (round_nearest_even_ge (shr_m mrs') (loc_of_shr_record mrs')) as Hr.
  pose proof (shr_fexp_nonneg
                (round_nearest_even (shr_m mrs') (loc_of_shr_record mrs'))
                e' loc_Exact ltac:(lia)) as H2.
  destruct (shr_fexp prec emax _ e' loc_Exact) as [mrs'' e'']. simpl in H2.
  destruct (shr_m mrs'') as [|p|p]; [done| |lia].
  by destruct (e'' <=? emax - prec).
Qed.

Lemma binary_normalize_not_nan (z e : Z) :
  binary_normalize prec emax z e false <> S754_nan.
Proof.
  destruct z as [|p|p]; simpl; [done| |]; unfold binary_round;
    destruct (shl_align _ _ _) as [mz ez]; by apply binary_round_aux_not_nan.
Qed.

Lemma SFadd_not_nan (x y : spec_float) :
  sf_finite x -> y <> S754_nan -> SF64add x y <> S754_nan.
Proof.
  unfold SF64add, SFadd.
  destruct x as [sx|sx| |sx mx ex], y as [sy|sy| |sy my ey]; try done;
    try (by destruct sx, sy).
  intros _ _. apply binary_normalize_not_nan.
Qed.

Lemma SFsub_not_nan (x y : spec_float) :
  x <> S754_nan -> sf_finite y -> SF64sub x y <> S754_nan.
Proof.
  unfold SF64sub, SFsub.
  destruct x as [sx|sx| |sx mx ex], y as [sy|sy| |sy my ey]; try done;
    try (by destruct sx, sy).
  intros _ _. apply binary_normalize_not_nan.
Qed.

Lemma SFmul_not_nan (x y : spec_float) :
  x <> S754_nan -> (exists s m e, y = S754_finite s m e) ->
  SF64mul x y <> S754_nan.
Proof.
  unfold SF64mul, SFmul. intros Hx (s & m & e & ->).
  destruct x as [sx|sx| |sx mx ex]; try done.
  by apply binary_round_aux_not_nan.
Qed.

End NoNaN.

Lemma finite_between (lo hi v : number) :
  isFinite lo = true -> isFinite hi = true -> isNaN v = false ->
  (v <? lo)%float = false -> (hi <? v)%float = false -> isFinite v = true.
Proof.
  rewrite isNaN_false, !FloatAxioms.ltb_spec.
  intros Hlo Hhi. apply isFinite_spec in Hlo, Hhi.
  intros Hv H1 H2. apply isFinite_spec. unfold SFltb in *.
  destruct (Prim2SF v) as [s|s| |s m e]; try done.
  destruct s.
  - by destruct (Prim2SF lo).
  - by destruct (Prim2SF hi).
Qed.

(** ** Where rounding puts a result *)

Section RoundingCases.
Local Open Scope Z_scope.

Lemma iter_shr_1_div (n : nat) (mrs : shr_record) :
  0 <= shr_m mrs -> shr_m (Nat.iter n shr_1 mrs) = shr_m mrs / 2 ^ Z.of_nat n.
Proof.
  intros Hm. induction n as [|n IH].
  - simpl. by rewrite Z.div_1_r.
  - rewrite Nat.iter_succ. rewrite shr_1_m by by apply iter_shr_1_nonneg.
    rewrite IH, Z.div2_div, Nat2Z.inj_succ, Z.pow_succ_r by lia.
    rewrite Z.div_div by lia. f_equal. lia.
Qed.

Lemma Zdigits2_le (m k : Z) : 0 <= k -> 0 <= m < 2 ^ k -> Zdigits2 m <= k.
Proof.
  intros Hk [Hm0 Hm]. destruct m as [|p|p]; simpl; [lia| |lia].
  pose proof (digits2_pos_bounds p) as [Hlo _].
  destruct (Z_lt_le_dec k (Zpos (digits2_pos p))) as [Hlt|]; [|done].
  assert (2 ^ k <= 2 ^ (Zpos (digits2_pos p) - 1)) by (apply Z.pow_le_mono_r; lia).
  lia.
Qed.

Lemma Zdigits2_bounds (m : Z) : 0 <= m -> 0 <= Zdigits2 m /\ m < 2 ^ Zdigits2 m.
Proof.
  intros Hm. destruct m as [|p|p]; simpl; [done| |lia].
  pose proof (digits2_pos_bounds p). lia.
Qed.

(** The first shift of a rounding: to the exponent the format asks for,
    leaving fewer than 2^53 in the mantissa. *)
Lemma shr_fexp_spec (m e : Z) (l : location) :
  0 <= m ->
  (shr_fexp prec emax m e l).2 = Z.max e (fexp prec emax (Zdigits2 m + e))
  /\ 0 <= shr_m (shr_fexp prec emax m e l).1 < 2 ^ 53
  /\ shr_m (shr_fexp prec emax m e l).1
     = m / 2 ^ (Z.max e (fexp prec emax (Zdigits2 m + e)) - e).
Proof.
  intros Hm. pose proof (shr_fexp_nonneg m e l Hm) as Hnn.
  pose proof (Zdigits2_bounds m Hm) as [Hd0 Hd].
  unfold shr_fexp, shr in *.
  assert (H0 : shr_m (shr_record_of_loc m l) = m) by (by destruct l as [|[]]).
  set (d := Zdigits2 m) in *.
  assert (Hf : d + e - 53 <= fexp prec emax (d + e))
    by (unfold fexp, prec; lia).
  destruct (fexp prec emax (d + e) - e) as [|n|n] eqn:Hn; simpl in *.
  - rewrite Z.max_r by lia. replace (fexp prec emax (d + e) - e) with 0 by lia.
    rewrite H0, Z.div_1_r. split; [lia|]. split; [|done]. split; [done|].
    eapply Z.lt_le_trans; [exact Hd|]. apply Z.pow_le_mono_r; lia.
  - rewrite Z.max_r by lia. rewrite Hn.
    rewrite iter_pos_nat, iter_shr_1_div, H0, positive_nat_Z by lia.
    split; [lia|]. split; [|done]. split.
    + apply Z.div_pos; [done|]. apply Z.pow_pos_nonneg; lia.
    + apply Z.div_lt_upper_bound; [apply Z.pow_pos_nonneg; lia|].
      rewrite <- Z.pow_add_r by lia.
      eapply Z.lt_le_trans; [exact Hd|]. apply Z.pow_le_mono_r; lia.
  - rewrite Z.max_l by lia. rewrite Z.sub_diag, H0, Z.div_1_r.
    split; [done|]. split; [|done]. split; [done|].
    eapply Z.lt_le_trans; [exact Hd|]. apply Z.pow_le_mono_r; lia.
Qed.

Lemma binary_round_aux_cases (s : bool) (m e : Z) (l : location) :
  0 <= m ->
  rounded_at s (Z.max e (fexp prec emax (Zdigits2 m + e)))
             (binary_round_aux prec emax s m e l).
Proof.
  intros Hm. unfold binary_round_aux.
  pose proof (shr_fexp_spec m e l Hm) as (He1 & Hm1 & _).
  set (e1 := Z.max e (fexp prec emax (Zdigits2 m + e))) in *.
  assert (Hemin : SpecFloat.emin prec emax <= e1)
    by (unfold e1, fexp; lia).
  destruct (shr_fexp prec emax m e l) as [mrs' e']. simpl in He1, Hm1. subst e'.
  pose proof (round_nearest_even_ge (shr_m mrs') (loc_of_shr_record mrs')) as Hr.
  set (m' := round_nearest_even (shr_m mrs') (loc_of_shr_record mrs')) in *.
  pose proof (shr_fexp_spec m' e1 loc_Exact ltac:(lia)) as (He2 & _ & Hm2).
  destruct (shr_fexp prec emax m' e1 loc_Exact) as [mrs'' e'']. simpl in He2, Hm2.
  destruct (Z_lt_le_dec m' (2 ^ 53)) as [Hlt|Hge].
  - pose proof (Zdigits2_le m' 53 ltac:(lia) ltac:(lia)) as Hd.
    assert (Hf : fexp prec emax (Zdigits2 m' + e1) <= e1).
    { unfold fexp, SpecFloat.emin, prec, emax in *. lia. }
    rewrite Z.max_l in He2, Hm2 by lia. rewrite Z.sub_diag, Z.div_1_r in Hm2.
    rewrite Hm2, He2. destruct m' as [|p|p]; [done| |lia]. simpl.
    destruct (e1 <=? emax - prec) eqn:Hle; simpl.
    + apply Z.leb_le in Hle. split; [done|]. split; [done|]. left. done.
    + apply Z.leb_gt in Hle. split; [done|]. lia.
  - assert (Hm' : m' = 2 ^ 53) by lia.
    assert (Hf : fexp prec emax (Zdigits2 m' + e1) = e1 + 1).
    { rewrite Hm'. change (Zdigits2 (2 ^ 53)) with 54.
      unfold fexp, SpecFloat.emin, prec, emax in *. lia. }
    rewrite Hf in He2, Hm2. rewrite Z.max_r in He2, Hm2 by lia.
    replace (e1 + 1 - e1) with 1 in Hm2 by lia.
    rewrite Hm' in Hm2. change (2 ^ 53 / 2 ^ 1) with 4503599627370496 in Hm2.
    rewrite Hm2, He2.
    destruct (e1 + 1 <=? emax - prec) eqn:Hle; simpl.
    + apply Z.leb_le in Hle. split; [done|]. split; [done|]. right. done.
    + apply Z.leb_gt in Hle. split; [done|]. lia.
Qed.

End RoundingCases.

Section FiniteResults.
Local Open Scope Z_scope.

Lemma digits2_unique (p : positive) (k : Z) :
  2 ^ (k - 1) <= Zpos p < 2 ^ k -> Zpos (digits2_pos p) = k.
Proof.
  intros [Hlo Hhi]. pose proof (digits2_pos_bounds p) as [Hlo' Hhi'].
  set (d := Zpos (digits2_pos p)) in *.
  assert (Hd : 1 <= d) by (unfold d; lia).
  destruct (Z_lt_le_dec k 1) as [Hk|Hk].
  { assert (2 ^ k <= 2 ^ 0) by (destruct k; simpl; try lia;
      rewrite Z.pow_neg_r by lia; lia). simpl in *. lia. }
  destruct (Z.lt_trichotomy d k) as [Hlt|[Heq|Hgt]]; [|done|].
  - assert (2 ^ d <= 2 ^ (k - 1)) by (apply Z.pow_le_mono_r; lia). lia.
  - assert (2 ^ k <= 2 ^ (d - 1)) by (apply Z.pow_le_mono_r; lia). lia.
Qed.

Lemma shl_align_digits (m : positive) (e e' : Z) :
  Zpos (digits2_pos (shl_align m e e').1) + (shl_align m e e').2
  = Zpos (digits2_pos m) + e
  /\ (shl_align m e e').2 = Z.min e e'.
Proof.
  unfold shl_align. destruct (e' - e) as [|d|d] eqn:Hd; simpl; [lia|lia|].
  split; [|lia].
  change (Pos.iter xO m d) with (shift_pos d m).
  pose proof (digits2_pos_bounds m) as [Hlo Hhi].
  assert (Hv : Zpos (shift_pos d m) = Zpos m * 2 ^ Zpos d).
  { rewrite shift_pos_correct, Z.pow_pos_fold. lia. }
  assert (Hp : 0 < 2 ^ Zpos d) by (apply Z.pow_pos_nonneg; lia).
  rewrite (digits2_unique (shift_pos d m) (Zpos (digits2_pos m) + Zpos d)); [lia|].
  rewrite Hv.
  replace (Zpos (digits2_pos m) + Zpos d - 1)
    with ((Zpos (digits2_pos m) - 1) + Zpos d) by lia.
  rewrite !Z.pow_add_r by lia. nia.
Qed.

(** A rounding from scratch ends at the exponent the format asks for. *)
Lemma binary_round_cases (s : bool) (m : positive) (e : Z) :
  rounded_at s (fexp prec emax (Zpos (digits2_pos m) + e))
             (binary_round prec emax s m e).
Proof.
  unfold binary_round.
  pose proof (shl_align_digits m e (fexp prec emax (Zpos (digits2_pos m) + e)))
    as [Hd He].
  destruct (shl_align m e _) as [mz ez]. simpl in Hd, He.
  pose proof (binary_round_aux_cases s (Zpos mz) ez loc_Exact ltac:(lia)) as Hc.
  simpl Zdigits2 in Hc. rewrite Hd in Hc.
  replace (Z.max ez (fexp prec emax (Zpos (digits2_pos m) + e)))
    with (fexp prec emax (Zpos (digits2_pos m) + e)) in Hc by lia.
  exact Hc.
Qed.

Lemma finite_upto_finite (h : Z) (x : spec_float) : finite_upto h x -> sf_finite x.
Proof. by destruct x. Qed.

Lemma rounded_at_upto (s : bool) (e1 h : Z) (r : spec_float) :
  rounded_at s e1 r -> e1 < emax - prec -> e1 + 1 <= h -> finite_upto h r.
Proof. destruct r; simpl; lia. Qed.

(** An array length or a counter, as a number, is finite. *)
Lemma of_nat_upto (k : nat) : finite_upto 11 (Prim2SF (of_nat k)).
Proof.
  unfold of_nat. rewrite FloatAxioms.of_uint63_spec.
  pose proof (Uint63.to_Z_bounded (Uint63.of_Z (Z.of_nat k))) as Hb.
  change Uint63.wB with (2 ^ 63) in Hb.
  destruct (Uint63.to_Z _) as [|p|p]; [done| |lia]. simpl.
  pose proof (digits2_pos_bounds p) as [Hlo _].
  assert (Hd : Zpos (digits2_pos p) <= 63).
  { destruct (Z_lt_le_dec 63 (Zpos (digits2_pos p))) as [Hlt|]; [|lia].
    assert (2 ^ 63 <= 2 ^ (Zpos (digits2_pos p) - 1)) by (apply Z.pow_le_mono_r; lia).
    lia. }
  eapply rounded_at_upto; [apply binary_round_cases| |];
    unfold fexp, SpecFloat.emin, prec, emax; lia.
Qed.

Lemma binary_normalize_upto (z e h : Z) :
  Z.abs z < 2 ^ (h + 52 - e) -> e <= h -> SpecFloat.emin prec emax <= h -> h + 1 < emax - prec ->
  finite_upto (h + 1) (binary_normalize prec emax z e false).
Proof.
  intros Hz He Hlo Hh.
  assert (Hw : forall s p, Zpos p < 2 ^ (h + 52 - e) ->
            finite_upto (h + 1) (binary_round prec emax s p e)).
  { intros s p Hp.
    pose proof (Zdigits2_le (Zpos p) (h + 52 - e) ltac:(lia) ltac:(lia)) as Hd.
    simpl in Hd.
    eapply rounded_at_upto; [apply binary_round_cases| |];
      unfold fexp, SpecFloat.emin, prec, emax in *; lia. }
  destruct z as [|p|p]; simpl; [done| |]; apply Hw; lia.
Qed.

(** The difference of two finite values of moderate size is finite. *)
Lemma SFsub_upto (x y : spec_float) (h : Z) :
  valid_binary x = true -> valid_binary y = true ->
  finite_upto h x -> finite_upto h y -> h + 3 < emax - prec ->
  finite_upto (h + 3) (SF64sub x y).
Proof.
  intros Hx Hy Fx Fy Hh. unfold SF64sub, SFsub.
  destruct x as [sx|sx| |sx mx ex], y as [sy|sy| |sy my ey]; try done;
    simpl in Fx, Fy; try (by destruct sx, sy); try (simpl; lia).
  simpl in Hx, Hy.
  apply bounded_inv in Hx as (Hex & Hmx & _).
  apply bounded_inv in Hy as (Hey & Hmy & _).
  set (ez := Z.min ex ey).
  rewrite !shl_align_val by lia.
  assert (Hpx : 0 < 2 ^ (ex - ez)) by (apply Z.pow_pos_nonneg; lia).
  assert (Hpy : 0 < 2 ^ (ey - ez)) by (apply Z.pow_pos_nonneg; lia).
  assert (Hbx : Zpos mx * 2 ^ (ex - ez) < 2 ^ (h + 53 - ez)).
  { replace (h + 53 - ez) with (53 + (h - ez)) by lia.
    rewrite Z.pow_add_r by lia.
    assert (2 ^ (ex - ez) <= 2 ^ (h - ez)) by (apply Z.pow_le_mono_r; lia).
    nia. }
  assert (Hby : Zpos my * 2 ^ (ey - ez) < 2 ^ (h + 53 - ez)).
  { replace (h + 53 - ez) with (53 + (h - ez)) by lia.
    rewrite Z.pow_add_r by lia.
    assert (2 ^ (ey - ez) <= 2 ^ (h - ez)) by (apply Z.pow_le_mono_r; lia).
    nia. }
  replace (h + 3) with ((h + 2) + 1) by lia.
  apply binary_normalize_upto; [|lia|lia|lia].
  replace (h + 2 + 52 - ez) with (Z.succ (h + 53 - ez)) by lia.
  rewrite Z.pow_succ_r by lia.
  destruct sx, sy; simpl; lia.
Qed.

(** A finite value over a strictly positive one is never NaN. *)
Lemma SFdiv_not_nan (x y : spec_float) :
  sf_finite x -> signed false y -> SF64div x y <> S754_nan.
Proof.
  unfold SF64div, SFdiv.
  destruct x as [sx|sx| |sx mx ex], y as [sy|sy| |sy my ey]; try done.
  intros _ _. unfold SFdiv_core_binary.
  set (s := ex - ey - _).
  set (m' := match s with 0 => Zpos mx | Zpos _ => Z.shiftl (Zpos mx) s | Zneg _ => 0 end).
  assert (Hm' : 0 <= m').
  { unfold m'. destruct s as [|k|k]; [lia| |lia]. apply Z.shiftl_nonneg. lia. }
  pose proof (Z.div_pos m' (Zpos my) Hm' ltac:(lia)) as Hq.
  unfold Z.div in Hq. destruct (Z.div_eucl m' (Zpos my)) as [q r].
  by apply binary_round_aux_not_nan.
Qed.

End FiniteResults.

(** [kendallTau] never returns NaN on two or more observations, whatever
    the data: a NaN among them only produces ties. *)
Lemma kendallTau_number (x y : list number) :
  2 <= length x -> (Z.of_nat (length x) < 2 ^ 32)%Z ->
  isNaN (kendallTau x y) = false.
Proof.
  intros Hn Hmax. unfold kendallTau.
  destruct (kendall_counts x y) as [c d].
  apply isNaN_false. rewrite FloatAxioms.div_spec.
  apply SFdiv_not_nan.
  - rewrite FloatAxioms.sub_spec.
    apply (finite_upto_finite (11 + 3)).
    apply SFsub_upto; try apply Prim2SF_valid; try apply of_nat_upto.
    unfold prec, emax. lia.
  - rewrite FloatAxioms.div_spec.
    apply div_two_signed; [apply Prim2SF_valid|].
    rewrite FloatAxioms.mul_spec. apply mul_above; [apply of_nat_above; lia|].
    rewrite FloatAxioms.sub_spec.
    apply sub_one_above; [apply Prim2SF_valid|apply of_nat_above; lia].
Qed.

(** X7: [kendallTau] returns NaN exactly on fewer than two observations; on two
    or more it returns a number whatever the data, a NaN among them only
    producing ties. *)
Theorem kendallTau_nan_iff (x y : list number) :
  (Z.of_nat (length x) < 2 ^ 32)%Z ->
  isNaN (kendallTau x y) = true <-> length x <= 1.
Proof.
  intros Hmax. split.
  - intros Hnan. destruct (Nat.le_gt_cases (length x) 1) as [|Hgt]; [done|].
    rewrite kendallTau_number in Hnan; [done|lia|done].
  - apply kendallTau_small.
Qed.

Lemma kendallTau_nan_iff_witness :
  isNaN (kendallTau [1; nan; 4]%float [2; 1; nan]%float) = true <-> 3 <= 1.
Proof.
  apply (kendallTau_nan_iff [1; nan; 4]%float [2; 1; nan]%float).
  simpl. lia.
Defined.

(** ** The rank transform preserves the order *)

Lemma count_ext_in {A} (f g : A -> bool) (l : list A) :
  (forall a, a ∈ l -> f a = g a) -> count f l = count g l.
Proof.
  unfold count. induction l as [|a l IH]; intros Hfg; simpl; [done|].
  rewrite (Hfg a) by apply list_elem_of_here.
  destruct (g a); simpl; rewrite IH; try done.
  all: intros b Hb; by apply Hfg, list_elem_of_further.
Qed.

(** Two disjoint classes that both lie inside a third. *)
Lemma count_disjoint_le {A} (f g h : A -> bool) (l : list A) :
  (forall a, a ∈ l -> f a = true -> g a = false) ->
  (forall a, a ∈ l -> f a = true -> h a = true) ->
  (forall a, a ∈ l -> g a = true -> h a = true) ->
  count f l + count g l <= count h l.
Proof.
  unfold count. induction l as [|a l IH]; intros Hd Hf Hg; simpl; [done|].
  assert (IH' : length (List.filter f l) + length (List.filter g l)
                <= length (List.filter h l)).
  { apply IH; intros b Hb; [apply Hd|apply Hf|apply Hg];
      by apply list_elem_of_further. }
  specialize (Hd a (list_elem_of_here _ _)).
  specialize (Hf a (list_elem_of_here _ _)).
  specialize (Hg a (list_elem_of_here _ _)).
  destruct (f a), (g a), (h a); simpl; try lia.
  all: try (by specialize (Hd eq_refl)); try (by specialize (Hf eq_refl));
    try (by specialize (Hg eq_refl)).
Qed.

(** In an array without NaN, equal values occupy the same run of sorted
    positions and a smaller value a run that ends before that of a larger
    one begins. *)
Lemma rank_bounds_order (arr : list number) (a b : nat) (va vb : number) :
  numeric arr = true ->
  arr !! a = Some va -> arr !! b = Some vb ->
  exists ia ja ib jb,
    rank_bounds arr !! a = Some (ia, ja)
    /\ rank_bounds arr !! b = Some (ib, jb)
    /\ ia <= ja < length arr /\ ib <= jb < length arr
    /\ ((va =? vb)%float = true -> ia = ib /\ ja = jb)
    /\ ((va <? vb)%float = true -> ja < ib).
Proof.
  intros Hnum Ha Hb.
  destruct (rank_bounds_counts arr Hnum a va Ha) as [Hba Hca].
  destruct (rank_bounds_counts arr Hnum b vb Hb) as [Hbb Hcb].
  assert (Hall : forall v,
            count (fun w => (w <? v)%float) arr
            + count (fun w => (w =? v)%float) arr <= length arr).
  { intros v.
    pose proof (count_disjoint_le
                  (fun w => (w <? v)%float) (fun w => (w =? v)%float)
                  (fun _ => true) arr) as Hle'.
    assert (Hlen : count (fun _ : number => true) arr = length arr).
    { unfold count. by rewrite filter_all by by apply Forall_forall. }
    rewrite <- Hlen. apply Hle'; try done.
    intros w _. apply ltb_not_eqb. }
  pose proof (Hall va). pose proof (Hall vb).
  eexists _, _, _, _. split; [exact Hba|]. split; [exact Hbb|].
  split; [lia|]. split; [lia|]. split.
  - intros Heq.
    assert (Hlt : count (fun w => (w <? va)%float) arr
                  = count (fun w => (w <? vb)%float) arr).
    { apply count_ext_in. intros w _.
      destruct (w <? va)%float eqn:H1, (w <? vb)%float eqn:H2; try done.
      - by rewrite (ltb_eqb_trans w va vb) in H2.
      - rewrite eqb_sym in Heq. by rewrite (ltb_eqb_trans w vb va) in H1. }
    assert (Heqc : count (fun w => (w =? va)%float) arr
                   = count (fun w => (w =? vb)%float) arr).
    { apply count_ext_in. intros w _.
      destruct (w =? va)%float eqn:H1, (w =? vb)%float eqn:H2; try done.
      - by rewrite (eqb_trans w va vb) in H2.
      - rewrite eqb_sym in Heq. by rewrite (eqb_trans w vb va) in H1. }
    lia.
  - intros Hlt.
    pose proof (count_disjoint_le
                  (fun w => (w <? va)%float) (fun w => (w =? va)%float)
                  (fun w => (w <? vb)%float) arr) as Hle.
    assert (Hcount : count (fun w => (w <? va)%float) arr
                     + count (fun w => (w =? va)%float) arr
                     <= count (fun w => (w <? vb)%float) arr).
    { apply Hle.
      - intros w _. apply ltb_not_eqb.
      - intros w _ H1. by apply (ltb_trans w va vb).
      - intros w _ H1. by apply (eqb_ltb_trans w va vb). }
    lia.
Qed.

(** ** Exact results *)

Section Exact.
Local Open Scope Z_scope.

Lemma shr_1_even (z : Z) :
  0 <= z ->
  shr_1 (Build_shr_record (2 * z) false false) = Build_shr_record z false false.
Proof. intros Hz. destruct z as [|p|p]; [done|done|lia]. Qed.

(** Shifting out zeros is exact. *)
Lemma iter_shr_1_exact (n : nat) (m : Z) :
  0 <= m ->
  Nat.iter n shr_1 (Build_shr_record (m * 2 ^ Z.of_nat n) false false)
  = Build_shr_record m false false.
Proof.
  revert m. induction n as [|n IH]; intros m Hm.
  - simpl. by rewrite Z.mul_1_r.
  - rewrite Nat.iter_succ, Nat2Z.inj_succ, Z.pow_succ_r by lia.
    replace (m * (2 * 2 ^ Z.of_nat n)) with ((2 * m) * 2 ^ Z.of_nat n) by lia.
    rewrite IH by lia. by apply shr_1_even.
Qed.

(** A mantissa of 53 digits followed by [k] zeros rounds to itself, [k]
    exponents up. *)
Lemma binary_round_aux_exact (s : bool) (m : positive) (k e : Z) :
  Zpos (digits2_pos m) = 53 -> 0 <= k ->
  SpecFloat.emin prec emax <= e + k <= emax - prec ->
  binary_round_aux prec emax s (Zpos m * 2 ^ k) e loc_Exact
  = S754_finite s m (e + k).
Proof.
  intros Hd Hk He.
  pose proof (digits2_pos_bounds m) as [Hlo Hhi]. rewrite Hd in Hlo, Hhi.
  assert (Hp : 0 < 2 ^ k) by (apply Z.pow_pos_nonneg; lia).
  assert (Hdig : Zdigits2 (Zpos m * 2 ^ k) = 53 + k).
  { destruct (Zpos m * 2 ^ k) as [|p|p] eqn:Hp'; [lia| |lia].
    simpl. apply digits2_unique. rewrite <- Hp'.
    replace (53 + k - 1) with (52 + k) by lia.
    rewrite !Z.pow_add_r by lia. nia. }
  unfold binary_round_aux, shr_fexp. rewrite Hdig.
  assert (Hf : fexp prec emax (53 + k + e) - e = k).
  { unfold fexp, SpecFloat.emin, prec, emax in *. lia. }
  rewrite Hf. simpl shr_record_of_loc.
  assert (Hshr : shr (Build_shr_record (Zpos m * 2 ^ k) false false) e k
                 = (Build_shr_record (Zpos m) false false, e + k)).
  { unfold shr. destruct k as [|p|p]; [|  |lia].
    - by rewrite Z.mul_1_r, Z.add_0_r.
    - rewrite iter_pos_nat. f_equal.
      rewrite <- (positive_nat_Z p) at 1. by apply iter_shr_1_exact. }
  rewrite Hshr. simpl loc_of_shr_record. simpl round_nearest_even.
  simpl Zdigits2. simpl shr_m. rewrite Hd.
  assert (Hf' : fexp prec emax (53 + (e + k)) - (e + k) = 0).
  { unfold fexp, SpecFloat.emin, prec, emax in *. lia. }
  rewrite Hf'. simpl.
  destruct (Z.leb_spec (e + k) (emax - prec)); [done|lia].
Qed.


Lemma Zdigits2_pos (w : Z) :
  0 < w -> 1 <= Zdigits2 w /\ 2 ^ (Zdigits2 w - 1) <= w < 2 ^ Zdigits2 w.
Proof.
  intros Hw. destruct w as [|p|p]; [lia| |lia]. simpl.
  pose proof (digits2_pos_bounds p). lia.
Qed.

Lemma Zdigits2_unique (w k : Z) :
  2 ^ (k - 1) <= w < 2 ^ k -> 0 < w -> Zdigits2 w = k.
Proof.
  intros Hk Hw. destruct w as [|p|p]; [lia| |lia]. simpl.
  by apply digits2_unique.
Qed.

Lemma Zdigits2_small (w : Z) : 0 < w < 2 ^ 53 -> 1 <= Zdigits2 w <= 53.
Proof.
  intros [Hw Hlt]. destruct (Zdigits2_pos w Hw) as (Hd & Hlo & _).
  split; [done|]. apply Zdigits2_le; lia.
Qed.

Lemma Zdigits2_mono (a b : Z) : 0 < a <= b -> Zdigits2 a <= Zdigits2 b.
Proof.
  intros [Ha Hab]. destruct (Zdigits2_pos a Ha) as (Hda & Hlo & _).
  destruct (Zdigits2_pos b ltac:(lia)) as (Hdb & _ & Hhi).
  destruct (Z_lt_le_dec (Zdigits2 b) (Zdigits2 a)) as [Hlt|]; [|done].
  assert (2 ^ Zdigits2 b <= 2 ^ (Zdigits2 a - 1)) by (apply Z.pow_le_mono_r; lia).
  lia.
Qed.

Lemma mant_bounds (w : Z) :
  0 < w < 2 ^ 53 -> 2 ^ 52 <= mant w < 2 ^ 53.
Proof.
  intros Hw. destruct (Zdigits2_small w Hw) as [Hd1 Hd2].
  destruct (Zdigits2_pos w ltac:(lia)) as (_ & Hlo & Hhi).
  unfold mant. set (d := Zdigits2 w) in *.
  assert (Hp : 0 < 2 ^ (53 - d)) by (apply Z.pow_pos_nonneg; lia).
  assert (E1 : 2 ^ 52 = 2 ^ (d - 1) * 2 ^ (53 - d))
    by (rewrite <- Z.pow_add_r by lia; f_equal; lia).
  assert (E2 : 2 ^ 53 = 2 ^ d * 2 ^ (53 - d))
    by (rewrite <- Z.pow_add_r by lia; f_equal; lia).
  rewrite E1, E2. clear E1 E2 Hw.
  set (L := 2 ^ (d - 1)) in *. set (H := 2 ^ d) in *.
  set (P := 2 ^ (53 - d)) in *. nia.
Qed.

Lemma mant_digits (w : Z) :
  0 < w < 2 ^ 53 -> Zpos (digits2_pos (Z.to_pos (mant w))) = 53.
Proof.
  intros Hw. pose proof (mant_bounds w Hw) as Hm.
  apply digits2_unique. rewrite Z2Pos.id by lia. exact Hm.
Qed.

(** Rounding [w * 2^j * 2^e] for an integer [w] below 2^53 is exact. *)
Lemma binary_round_scaled (s : bool) (p : positive) (e w j : Z) :
  Zpos p = w * 2 ^ j -> 0 < w < 2 ^ 53 -> 0 <= j ->
  SpecFloat.emin prec emax <= Zdigits2 w + j + e - 53 <= emax - prec ->
  binary_round prec emax s p e
  = S754_finite s (Z.to_pos (mant w)) (Zdigits2 w + j + e - 53).
Proof.
  intros Hp Hw Hj He.
  destruct (Zdigits2_small w Hw) as [Hd1 Hd2].
  destruct (Zdigits2_pos w ltac:(lia)) as (_ & Hlo & Hhi).
  pose proof (mant_bounds w Hw) as Hm. pose proof (mant_digits w Hw) as Hmd.
  set (d := Zdigits2 w) in *.
  assert (Hpj : 0 < 2 ^ j) by (apply Z.pow_pos_nonneg; lia).
  assert (Hdp : Zpos (digits2_pos p) = d + j).
  { apply digits2_unique. rewrite Hp.
    replace (d + j - 1) with ((d - 1) + j) by lia.
    rewrite !Z.pow_add_r by lia. nia. }
  unfold binary_round. rewrite Hdp.
  assert (Hf : fexp prec emax (d + j + e) = d + j + e - 53).
  { unfold fexp, SpecFloat.emin, prec, emax in *. lia. }
  rewrite Hf. unfold shl_align.
  destruct (d + j + e - 53 - e) as [|t|t] eqn:Ht.
  - replace (d + j + e - 53) with (e + 0) by lia.
    rewrite <- (binary_round_aux_exact s (Z.to_pos (mant w)) 0 e) by
      (try done; unfold SpecFloat.emin, prec, emax in *; lia).
    f_equal. rewrite Z2Pos.id, Z.mul_1_r by lia. unfold mant. fold d.
    replace (53 - d) with j by lia. done.
  - replace (d + j + e - 53) with (e + Zpos t) by lia.
    rewrite <- (binary_round_aux_exact s (Z.to_pos (mant w)) (Zpos t) e) by
      (try done; unfold SpecFloat.emin, prec, emax in *; lia).
    f_equal. rewrite Z2Pos.id by lia. unfold mant. fold d.
    rewrite Hp, <- Z.mul_assoc, <- Z.pow_add_r by lia. f_equal. f_equal. lia.
  - change (Pos.iter xO p t) with (shift_pos t p).
    assert (Hv : Zpos (shift_pos t p) = mant w).
    { rewrite shift_pos_correct, Z.pow_pos_fold, Hp. unfold mant. fold d.
      replace (53 - d) with (j + Zpos t) by lia.
      rewrite Z.pow_add_r by lia. lia. }
    replace (d + j + e - 53) with ((d + j + e - 53) + 0) at 2 by lia.
    rewrite <- (binary_round_aux_exact s (Z.to_pos (mant w)) 0 (d + j + e - 53))
      by (try done; unfold SpecFloat.emin, prec, emax in *; lia).
    f_equal. rewrite Z2Pos.id, Z.mul_1_r by lia. exact Hv.
Qed.

End Exact.

Section ExactOps.
Local Open Scope Z_scope.

Lemma binary_normalize_exact (z e w j : Z) :
  z = w * 2 ^ j -> Z.abs w < 2 ^ 53 -> 0 <= j -> scale_ok (j + e) ->
  binary_normalize prec emax z e false = SFval w (j + e).
Proof.
  intros Hz Hw Hj Hk. unfold scale_ok in Hk.
  assert (Hpj : 0 < 2 ^ j) by (apply Z.pow_pos_nonneg; lia).
  destruct w as [|q|q].
  - by subst z.
  - destruct z as [|p|p]; [lia| |lia]. simpl binary_normalize. unfold SFval.
    pose proof (Zdigits2_small (Zpos q) ltac:(lia)) as Hd.
    rewrite (binary_round_scaled false p e (Zpos q) j); try done; try lia.
    + f_equal. lia.
    + unfold SpecFloat.emin, prec, emax. lia.
  - destruct z as [|p|p]; [lia|lia|]. simpl binary_normalize. unfold SFval.
    pose proof (Zdigits2_small (Zpos q) ltac:(lia)) as Hd.
    change (- Zneg q) with (Zpos q).
    rewrite (binary_round_scaled true p e (Zpos q) j); try done; try lia.
    + f_equal. lia.
    + unfold SpecFloat.emin, prec, emax. lia.
Qed.

(** An integer below 2^53 is exact as a number. *)
Lemma of_nat_exact (n : nat) :
  Z.of_nat n < 2 ^ 53 -> Prim2SF (of_nat n) = SFval (Z.of_nat n) 0.
Proof.
  intros Hn. unfold of_nat. rewrite FloatAxioms.of_uint63_spec, Uint63.of_Z_spec.
  rewrite Z.mod_small by (change Uint63.wB with (2 ^ 63); lia).
  apply (binary_normalize_exact _ 0 _ 0); unfold scale_ok; lia.
Qed.

(** The mantissa of [SFval a k], aligned to a lower exponent. *)
Lemma mant_aligned (a k ez : Z) :
  0 < a < 2 ^ 53 -> ez <= Zdigits2 a - 53 + k ->
  Zpos (shl_align (Z.to_pos (mant a)) (Zdigits2 a - 53 + k) ez).1
  = a * 2 ^ (k - ez).
Proof.
  intros Ha Hez. pose proof (mant_bounds a Ha) as Hm.
  pose proof (Zdigits2_small a Ha) as Hd.
  rewrite shl_align_val, Z2Pos.id by lia. unfold mant.
  rewrite <- Z.mul_assoc, <- Z.pow_add_r by lia. f_equal. f_equal. lia.
Qed.

Lemma SFval_pos (a k : Z) :
  0 < a ->
  SFval a k = S754_finite false (Z.to_pos (mant a)) (Zdigits2 a - 53 + k).
Proof. intros Ha. by destruct a. Qed.

Lemma SFadd_exact (a b k : Z) :
  0 <= a -> 0 <= b -> a + b < 2 ^ 53 -> scale_ok k ->
  SF64add (SFval a k) (SFval b k) = SFval (a + b) k.
Proof.
  intros Ha Hb Hab Hk. unfold SF64add.
  destruct (Z.eq_dec a 0) as [->|Ha0]; [by destruct b|].
  destruct (Z.eq_dec b 0) as [->|Hb0]; [rewrite Z.add_0_r; by destruct a|].
  rewrite (SFval_pos a), (SFval_pos b) by lia. unfold SFadd.
  set (ez := Z.min _ _).
  rewrite !mant_aligned by lia. simpl cond_Zopp.
  replace k with ((k - ez) + ez) at 3 by lia.
  pose proof (Zdigits2_small a ltac:(lia)). pose proof (Zdigits2_small b ltac:(lia)).
  apply binary_normalize_exact; try lia.
  replace (k - ez + ez) with k by lia. done.
Qed.

Lemma SFsub_exact (a b k : Z) :
  0 <= a < 2 ^ 53 -> 0 <= b < 2 ^ 53 -> scale_ok k ->
  SF64sub (SFval a k) (SFval b k) = SFval (a - b) k.
Proof.
  intros Ha Hb Hk. unfold SF64sub.
  destruct (Z.eq_dec a 0) as [->|Ha0]; [by destruct b|].
  destruct (Z.eq_dec b 0) as [->|Hb0]; [rewrite Z.sub_0_r; by destruct a|].
  rewrite (SFval_pos a), (SFval_pos b) by lia. unfold SFsub.
  set (ez := Z.min _ _).
  rewrite !mant_aligned by lia. simpl cond_Zopp.
  replace k with ((k - ez) + ez) at 3 by lia.
  pose proof (Zdigits2_small a ltac:(lia)). pose proof (Zdigits2_small b ltac:(lia)).
  apply binary_normalize_exact; try lia.
  replace (k - ez + ez) with k by lia. done.
Qed.


Lemma SFmul_exact (a b k : Z) :
  0 < a -> 0 < b -> a * b < 2 ^ 53 -> scale_ok k ->
  SF64mul (SFval a 0) (SFval b k) = SFval (a * b) k.
Proof.
  intros Ha Hb Hab Hk. unfold scale_ok in Hk.
  assert (Ha' : a < 2 ^ 53) by nia. assert (Hb' : b < 2 ^ 53) by nia.
  rewrite (SFval_pos a), (SFval_pos b), (SFval_pos (a * b)) by lia.
  unfold SF64mul, SFmul. simpl xorb.
  pose proof (mant_bounds a ltac:(lia)) as Hma.
  pose proof (mant_bounds b ltac:(lia)) as Hmb.
  pose proof (mant_bounds (a * b) ltac:(lia)) as Hmab.
  pose proof (Zdigits2_small a ltac:(lia)) as Hda.
  pose proof (Zdigits2_small b ltac:(lia)) as Hdb.
  pose proof (Zdigits2_small (a * b) ltac:(lia)) as Hdab.
  destruct (Zdigits2_pos a Ha) as (_ & Hloa & Hhia).
  destruct (Zdigits2_pos b Hb) as (_ & Hlob & Hhib).
  destruct (Zdigits2_pos (a * b) ltac:(lia)) as (_ & Hloab & Hhiab).
  set (da := Zdigits2 a) in *. set (db := Zdigits2 b) in *.
  set (dab := Zdigits2 (a * b)) in *.
  assert (Hdd : da + db - 1 <= dab).
  { destruct (Z_lt_le_dec dab (da + db - 1)) as [Hlt|]; [|done].
    assert (H1 : 2 ^ dab <= 2 ^ (da - 1 + (db - 1))) by (apply Z.pow_le_mono_r; lia).
    rewrite Z.pow_add_r in H1 by lia.
    set (A := 2 ^ (da - 1)) in *. set (B := 2 ^ (db - 1)) in *. nia. }
  set (k' := 53 + dab - da - db).
  assert (Hv : Zpos (Z.to_pos (mant a) * Z.to_pos (mant b))
               = Zpos (Z.to_pos (mant (a * b))) * 2 ^ k').
  { rewrite Pos2Z.inj_mul, !Z2Pos.id by lia. unfold mant.
    fold da db dab. unfold k'.
    assert (E : 2 ^ (53 - da) * 2 ^ (53 - db)
                = 2 ^ (53 - dab) * 2 ^ (53 + dab - da - db))
      by (rewrite <- !Z.pow_add_r by lia; f_equal; lia).
    replace (a * 2 ^ (53 - da) * (b * 2 ^ (53 - db)))
      with (a * b * (2 ^ (53 - da) * 2 ^ (53 - db))) by ring.
    rewrite E. ring. }
  rewrite Hv, binary_round_aux_exact.
  - f_equal. unfold k'. lia.
  - apply mant_digits. lia.
  - unfold k'. lia.
  - unfold k', SpecFloat.emin, prec, emax. lia.
Qed.

(** Halving keeps the mantissa. *)
Lemma SFdiv2_exact (a k : Z) :
  Z.abs a < 2 ^ 53 -> scale_ok (k - 1) -> scale_ok k ->
  SF64div (SFval a k) (Prim2SF 2) = SFval a (k - 1).
Proof.
  intros Ha Hk Hk'. unfold scale_ok in *.
  change (Prim2SF 2) with (S754_finite false 4503599627370496 (-51)).
  assert (Hw : forall s w, 0 < w < 2 ^ 53 ->
            SF64div (S754_finite s (Z.to_pos (mant w)) (Zdigits2 w - 53 + k))
                    (S754_finite false 4503599627370496 (-51))
            = S754_finite s (Z.to_pos (mant w)) (Zdigits2 w - 53 + (k - 1))).
  { intros s w Hw. pose proof (mant_bounds w Hw) as Hm.
    pose proof (mant_digits w Hw) as Hmd.
    pose proof (Zdigits2_small w Hw) as Hd.
    unfold SF64div, SFdiv, SFdiv_core_binary. rewrite xorb_false_r.
    change (Zdigits2 4503599627370496) with 53.
    change (Zdigits2 (Zpos (Z.to_pos (mant w))))
      with (Zpos (digits2_pos (Z.to_pos (mant w)))).
    rewrite Hmd. set (e := Zdigits2 w - 53 + k) in *.
    assert (He' : Z.min (fexp prec emax (53 + e - (53 + -51))) (e - -51) = e - 2).
    { unfold fexp, SpecFloat.emin, prec, emax. lia. }
    rewrite He'. replace (e - -51 - (e - 2)) with 53 by lia.
    rewrite Z.shiftl_mul_pow2 by lia.
    assert (Hdiv : Z.div_eucl (Zpos (Z.to_pos (mant w)) * 2 ^ 53) 4503599627370496
                   = (Zpos (Z.to_pos (mant w)) * 2 ^ 1, 0)).
    { pose proof (Z.div_eucl_eq (Zpos (Z.to_pos (mant w)) * 2 ^ 53)
                    4503599627370496 ltac:(lia)) as Heq.
      pose proof (Z.mod_pos_bound (Zpos (Z.to_pos (mant w)) * 2 ^ 53)
                    4503599627370496 ltac:(lia)) as Hmod.
      unfold Z.modulo in Hmod.
      destruct (Z.div_eucl _ _) as [q r].
      change (2 ^ 53) with (4503599627370496 * 2) in Heq.
      f_equal; lia. }
    rewrite Hdiv. simpl new_location.
    rewrite binary_round_aux_exact; try done; try lia.
    - f_equal. lia.
    - unfold SpecFloat.emin, prec, emax. lia. }
  destruct a as [|p|p]; [done| |].
  - unfold SFval. apply Hw. lia.
  - unfold SFval. apply Hw. change (- Zneg p) with (Zpos p). lia.
Qed.

(** Integers below 2^53 compare as numbers the way they do as integers. *)
Lemma SFcompare_exact (a b k : Z) :
  0 <= a < 2 ^ 53 -> 0 <= b < 2 ^ 53 ->
  SFcompare (SFval a k) (SFval b k) = Some (a ?= b).
Proof.
  intros Ha Hb.
  destruct (Z.eq_dec a 0) as [->|Ha0]; [by destruct b|].
  destruct (Z.eq_dec b 0) as [->|Hb0]; [by destruct a|].
  rewrite (SFval_pos a), (SFval_pos b) by lia. unfold SFcompare.
  pose proof (mant_bounds a ltac:(lia)) as Hma.
  pose proof (mant_bounds b ltac:(lia)) as Hmb.
  pose proof (Zdigits2_small a ltac:(lia)) as Hda.
  pose proof (Zdigits2_small b ltac:(lia)) as Hdb.
  destruct (Zdigits2_pos a ltac:(lia)) as (_ & Hloa & Hhia).
  destruct (Zdigits2_pos b ltac:(lia)) as (_ & Hlob & Hhib).
  change (Pos.compare_cont Eq (Z.to_pos (mant a)) (Z.to_pos (mant b)))
    with (Pos.compare (Z.to_pos (mant a)) (Z.to_pos (mant b))).
  rewrite <- Z2Pos.inj_compare by lia.
  f_equal.
  destruct (Z.compare_spec (Zdigits2 a - 53 + k) (Zdigits2 b - 53 + k))
    as [Heq|Hlt|Hgt].
  - assert (Hd : Zdigits2 a = Zdigits2 b) by lia.
    unfold mant. rewrite Hd.
    assert (Hp : 0 < 2 ^ (53 - Zdigits2 b)) by (apply Z.pow_pos_nonneg; lia).
    destruct (Z.compare_spec a b) as [->|H|H].
    + apply Z.compare_refl.
    + apply Z.compare_lt_iff. nia.
    + apply Z.compare_gt_iff. nia.
  - symmetry. apply Z.compare_lt_iff.
    assert (2 ^ Zdigits2 a <= 2 ^ (Zdigits2 b - 1)) by (apply Z.pow_le_mono_r; lia).
    lia.
  - symmetry. apply Z.compare_gt_iff.
    assert (2 ^ Zdigits2 b <= 2 ^ (Zdigits2 a - 1)) by (apply Z.pow_le_mono_r; lia).
    lia.
Qed.

(** Doubling the integer is going one scale up. *)
Lemma SFval_double (a k : Z) :
  Z.abs a < 2 ^ 52 -> SFval (2 * a) (k - 1) = SFval a k.
Proof.
  intros Ha.
  assert (Hw : forall w, 0 < w < 2 ^ 52 ->
            Zdigits2 (2 * w) = Zdigits2 w + 1 /\ mant (2 * w) = mant w).
  { intros w Hw. destruct (Zdigits2_pos w ltac:(lia)) as (Hd & Hlo & Hhi).
    assert (Hd2 : Zdigits2 (2 * w) = Zdigits2 w + 1).
    { apply Zdigits2_unique; [|lia].
      replace (Zdigits2 w + 1 - 1) with (Z.succ (Zdigits2 w - 1)) by lia.
      replace (Zdigits2 w + 1) with (Z.succ (Zdigits2 w)) by lia.
      rewrite !Z.pow_succ_r by lia. lia. }
    split; [done|]. unfold mant. rewrite Hd2.
    pose proof (Zdigits2_small w ltac:(lia)) as Hs.
    assert (Hle : Zdigits2 w <= 52).
    { apply Zdigits2_le; lia. }
    replace (53 - Zdigits2 w) with (Z.succ (53 - (Zdigits2 w + 1))) by lia.
    rewrite Z.pow_succ_r by lia. lia. }
  destruct a as [|p|p]; [done| |].
  - destruct (Hw (Zpos p) ltac:(lia)) as [Hd Hm].
    change (2 * Zpos p) with (Zpos p~0) in *. unfold SFval.
    rewrite Hd, Hm. f_equal. lia.
  - destruct (Hw (Zpos p) ltac:(lia)) as [Hd Hm].
    change (2 * Zneg p) with (Zneg p~0). unfold SFval.
    change (- Zneg p~0) with (2 * Zpos p). change (- Zneg p) with (Zpos p).
    rewrite Hd, Hm. f_equal. lia.
Qed.

End ExactOps.

Section Quotient.
Local Open Scope Z_scope.

(** A finite value over its own magnitude is 1 or -1. *)
Lemma SFdiv_self (s : bool) (m : positive) (e : Z) :
  SF64div (S754_finite s m e) (S754_finite false m e)
  = S754_finite s 4503599627370496 (-52).
Proof.
  unfold SF64div, SFdiv, SFdiv_core_binary. rewrite xorb_false_r.
  set (d := Zdigits2 (Zpos m)).
  replace (d + e - (d + e)) with 0 by lia.
  change (fexp prec emax 0) with (-53).
  replace (e - e) with 0 by lia.
  change (Z.min (-53) 0) with (-53). change (0 - -53) with 53.
  rewrite Z.shiftl_mul_pow2 by lia.
  assert (Hdiv : Z.div_eucl (Zpos m * 2 ^ 53) (Zpos m) = (2 ^ 53, 0)).
  { pose proof (Z.div_eucl_eq (Zpos m * 2 ^ 53) (Zpos m) ltac:(lia)) as Heq.
    pose proof (Z.mod_pos_bound (Zpos m * 2 ^ 53) (Zpos m) ltac:(lia)) as Hmod.
    unfold Z.modulo in Hmod. destruct (Z.div_eucl _ _) as [q r].
    assert (Hq : q = 2 ^ 53) by nia. subst q. f_equal. lia. }
  rewrite Hdiv.
  assert (Hloc : new_location (Zpos m) 0 = loc_Exact).
  { unfold new_location. by destruct (Z.even (Zpos m)). }
  rewrite Hloc.
  change (2 ^ 53) with (Zpos 4503599627370496 * 2 ^ 1).
  by rewrite binary_round_aux_exact.
Qed.

(** A finite value over a larger positive one has magnitude at most 1. *)
Lemma SFdiv_le_one (sx : bool) (mx my : positive) (ex ey : Z) :
  bounded prec emax mx ex = true -> bounded prec emax my ey = true ->
  SFcompare (S754_finite false mx ex) (S754_finite false my ey) = Some Lt
  \/ SFcompare (S754_finite false mx ex) (S754_finite false my ey) = Some Eq ->
  within_one sx (SF64div (S754_finite sx mx ex) (S754_finite false my ey)).
Proof.
  intros Hbx Hby Hcmp.
  apply bounded_inv in Hbx as (Hex & Hmx & Hmx').
  apply bounded_inv in Hby as (Hey & Hmy & Hmy').
  assert (Hcases : (ex = ey /\ mx = my) \/ ex < ey \/ (ex = ey /\ Zpos mx < Zpos my)).
  { unfold SFcompare in Hcmp.
    change (Pos.compare_cont Eq mx my) with (Pos.compare mx my) in Hcmp.
    destruct (Z.compare_spec ex ey) as [Heq|Hlt|Hgt].
    - destruct (Pos.compare_spec mx my) as [Hm|Hm|Hm].
      + by left.
      + right. right. split; [done|]. lia.
      + by destruct Hcmp.
    - right. by left.
    - by destruct Hcmp. }
  destruct Hcases as [[-> ->]|Hlt].
  { rewrite SFdiv_self. simpl. split; [done|]. right. done. }
  unfold SF64div, SFdiv, SFdiv_core_binary. rewrite xorb_false_r.
  pose proof (Zdigits2_pos (Zpos mx) ltac:(lia)) as (Hd1 & Hlo1 & Hhi1).
  pose proof (Zdigits2_pos (Zpos my) ltac:(lia)) as (Hd2 & Hlo2 & Hhi2).
  set (d1 := Zdigits2 (Zpos mx)) in *. set (d2 := Zdigits2 (Zpos my)) in *.
  assert (Hd1' : d1 <= 53) by (apply Zdigits2_le; lia).
  assert (HD : d1 + ex - (d2 + ey) <= 0).
  { destruct Hlt as [Hlt|[-> Hm]].
    - specialize (Hmy' ltac:(lia)).
      assert (d2 = 53); [|lia].
      apply Zdigits2_unique; lia.
    - pose proof (Zdigits2_mono (Zpos mx) (Zpos my) ltac:(lia)). lia. }
  set (e' := Z.min (fexp prec emax (d1 + ex - (d2 + ey))) (ex - ey)).
  assert (He' : e' <= -53 /\ e' <= ex - ey).
  { unfold e', fexp, SpecFloat.emin, prec, emax. lia. }
  set (s := ex - ey - e').
  set (m' := match s with
             | 0 => Zpos mx
             | Zpos _ => Z.shiftl (Zpos mx) s
             | Zneg _ => 0
             end).
  assert (Hm' : m' = Zpos mx * 2 ^ s).
  { unfold m'. destruct s as [|t|t] eqn:Hs; [lia| |lia].
    by rewrite Z.shiftl_mul_pow2. }
  assert (Hs : 0 <= s) by (unfold s; lia).
  assert (Hlt' : m' < Zpos my * 2 ^ (- e')).
  { rewrite Hm'. replace (- e') with (s + (ey - ex)) by (unfold s; lia).
    assert (Hey' : 0 <= ey - ex) by lia.
    rewrite Z.pow_add_r by lia.
    assert (Hp : 0 < 2 ^ s) by (apply Z.pow_pos_nonneg; lia).
    assert (Hmm : Zpos mx < Zpos my * 2 ^ (ey - ex)).
    { destruct Hlt as [Hlt|[-> Hm]].
      - specialize (Hmy' ltac:(lia)).
        pose proof (pow2_ge_2 (ey - ex) ltac:(lia)).
        change (2 ^ 53) with (2 ^ 52 * 2) in Hmx. nia.
      - rewrite Z.sub_diag. simpl. lia. }
    set (P := 2 ^ s) in *. set (Q := 2 ^ (ey - ex)) in *. nia. }
  pose proof (Z.div_pos m' (Zpos my) ltac:(lia) ltac:(lia)) as Hq0.
  assert (Hqlt : m' / Zpos my < 2 ^ (- e')).
  { apply Z.div_lt_upper_bound; lia. }
  unfold Z.div in Hq0, Hqlt.
  destruct (Z.div_eucl m' (Zpos my)) as [q r].
  pose proof (binary_round_aux_cases sx q e' (new_location (Zpos my) r) Hq0) as Hc.
  pose proof (Zdigits2_le q (- e') ltac:(lia) ltac:(lia)) as Hdq.
  set (E1 := Z.max e' (fexp prec emax (Zdigits2 q + e'))) in *.
  assert (HE1 : E1 <= -53).
  { unfold E1, fexp, SpecFloat.emin, prec, emax. lia. }
  destruct (binary_round_aux prec emax sx q e' _) as [s'|s'| |s' m'' e''];
    simpl in Hc |- *; try done.
  - destruct Hc as [_ Hc]. unfold emax, prec in Hc. clear -Hc HE1. lia.
  - destruct Hc as (-> & _ & [[-> _]|[-> Hm'']]); (split; [done|]).
    + clear -HE1. lia.
    + clear -HE1 Hm''. lia.
Qed.

End Quotient.

(** A number of magnitude at most 1 lies between -1 and 1. *)
Lemma within_one_bounds (s : bool) (r : number) :
  within_one s (Prim2SF r) ->
  isNaN r = false /\ (r <? -1)%float = false /\ (1 <? r)%float = false.
Proof.
  rewrite isNaN_false, !FloatAxioms.ltb_spec.
  change (Prim2SF 1) with (S754_finite false 4503599627370496 (-52)).
  change (Prim2SF (-1)) with (S754_finite true 4503599627370496 (-52)).
  destruct (Prim2SF r) as [s'|s'| |s' m e]; simpl; try done.
  intros [_ Hr]. split; [done|]. unfold SFltb, SFcompare.
  assert (Hm : (e = -52)%Z -> m = 4503599627370496%positive).
  { intros He. destruct Hr as [|[_ Hm]]; [lia|].
    change (2 ^ 52)%Z with 4503599627370496%Z in Hm. lia. }
  destruct s'.
  - split; [|done].
    destruct (Z.compare_spec e (-52)) as [He|He|He]; [|done|lia].
    by rewrite (Hm He).
  - split; [done|].
    destruct (Z.compare_spec (-52) e) as [He|He|He]; [|lia|done].
    by rewrite (Hm (eq_sym He)).
Qed.

Section ExactQuotient.
Local Open Scope Z_scope.

Lemma SFval_valid (w k : Z) :
  Z.abs w < 2 ^ 53 -> scale_ok k -> valid_binary (SFval w k) = true.
Proof.
  intros Hw Hk. unfold scale_ok in Hk.
  assert (Hv : forall v, 0 < v < 2 ^ 53 ->
            bounded prec emax (Z.to_pos (mant v)) (Zdigits2 v - 53 + k) = true).
  { intros v Hv. pose proof (mant_digits v Hv) as Hmd.
    pose proof (Zdigits2_small v Hv) as Hd.
    unfold bounded, canonical_mantissa. rewrite Hmd.
    apply andb_true_intro. split.
    - apply Z.eqb_eq. unfold fexp, SpecFloat.emin, prec, emax. lia.
    - apply Z.leb_le. unfold prec, emax. lia. }
  destruct w as [|p|p]; [done| |]; unfold SFval, valid_binary.
  - apply (Hv (Zpos p)). lia.
  - change (- Zneg p) with (Zpos p). apply (Hv (Zpos p)). lia.
Qed.

(** An integer over a larger positive one, at the same scale: a quotient
    of magnitude at most 1, and exactly 1 or -1 when the magnitudes are
    equal. *)
Lemma SFdiv_SFval (w v k : Z) :
  0 < v < 2 ^ 53 -> Z.abs w <= v -> scale_ok k ->
  within_one (w <? 0) (SF64div (SFval w k) (SFval v k))
  /\ (w = v -> SF64div (SFval w k) (SFval v k) = Prim2SF 1)
  /\ (w = - v -> SF64div (SFval w k) (SFval v k) = Prim2SF (-1)).
Proof.
  intros Hv Hw Hk.
  pose proof (SFval_valid v k ltac:(lia) Hk) as Hvv.
  pose proof (SFval_valid w k ltac:(lia) Hk) as Hvw.
  pose proof (SFval_valid (Z.abs w) k ltac:(lia) Hk) as Hva.
  pose proof (SFcompare_exact (Z.abs w) v k ltac:(lia) ltac:(lia)) as Hcmp.
  assert (Hle : (Z.abs w ?= v) = Lt \/ (Z.abs w ?= v) = Eq).
  { destruct (Z.compare_spec (Z.abs w) v); [by right|by left|lia]. }
  rewrite (SFval_pos v) in * by lia.
  destruct w as [|p|p].
  - split; [done|]. split; intros; lia.
  - simpl Z.abs in *. rewrite (SFval_pos (Zpos p)) in * by lia.
    split; [|split].
    + apply SFdiv_le_one; try done. rewrite Hcmp. destruct Hle as [-> | ->]; auto.
    + intros Heq. rewrite Heq. apply SFdiv_self.
    + intros Heq. lia.
  - simpl Z.abs in *. rewrite (SFval_pos (Zpos p)) in * by lia.
    unfold SFval. change (- Zneg p) with (Zpos p).
    split; [|split].
    + apply SFdiv_le_one; try done. rewrite Hcmp. destruct Hle as [-> | ->]; auto.
    + intros Heq. lia.
    + intros Heq. replace v with (Zpos p) by lia. apply SFdiv_self.
Qed.

End ExactQuotient.

(** The two counts of [kendallTau] never add up to more than the number
    of pairs. *)
Lemma kendall_counts_le (x y : list number) :
  kendall_counts x y
  = (count (concordant x y) (unordered_pairs (length x)),
     count (discordant x y) (unordered_pairs (length x)))
  /\ 2 * (count (concordant x y) (unordered_pairs (length x))
          + count (discordant x y) (unordered_pairs (length x)))
     <= length x * (length x - 1).
Proof.
  split.
  - rewrite kendall_counts_pairs, kendall_fold_counts. done.
  - rewrite <- unordered_pairs_length.
    pose proof (count_disjoint_le (concordant x y) (discordant x y)
                  (fun _ => true) (unordered_pairs (length x))) as Hle.
    assert (Hlen : count (fun _ : nat * nat => true) (unordered_pairs (length x))
                   = length (unordered_pairs (length x))).
    { unfold count. by rewrite filter_all by by apply Forall_forall. }
    rewrite Hlen in Hle.
    assert (count (concordant x y) (unordered_pairs (length x))
            + count (discordant x y) (unordered_pairs (length x))
            <= length (unordered_pairs (length x))); [|lia].
    apply Hle; try done.
    intros p _. unfold concordant, discordant. apply ltb_antisym.
Qed.

(** X8: Kendall's tau of two or more observations lies between -1 and 1; it is
    exactly 1 when every pair is counted concordant and exactly -1 when
    every pair is counted discordant. *)
Theorem kendallTau_within_one (x y : list number) :
  2 <= length x -> (Z.of_nat (length x) < 2 ^ 26)%Z ->
  isNaN (kendallTau x y) = false
  /\ (kendallTau x y <? -1)%float = false
  /\ (1 <? kendallTau x y)%float = false
  /\ (2 * count (concordant x y) (unordered_pairs (length x))
      = length x * (length x - 1) -> kendallTau x y = 1%float)
  /\ (2 * count (discordant x y) (unordered_pairs (length x))
      = length x * (length x - 1) -> kendallTau x y = (-1)%float).
Proof.
  intros Hn Hmax.
  destruct (kendall_counts_le x y) as [Hcd Hle].
  unfold kendallTau. rewrite Hcd.
  set (n := length x) in *.
  set (c := count (concordant x y) (unordered_pairs n)) in *.
  set (d := count (discordant x y) (unordered_pairs n)) in *.
  assert (HN : (Z.of_nat n * (Z.of_nat n - 1) < 2 ^ 52)%Z).
  { change (2 ^ 52)%Z with (2 ^ 26 * 2 ^ 26)%Z. nia. }
  assert (HV : Z.of_nat (n * (n - 1)) = (Z.of_nat n * (Z.of_nat n - 1))%Z).
  { rewrite Nat2Z.inj_mul, Nat2Z.inj_sub by lia. done. }
  assert (Hk : scale_ok 0) by (unfold scale_ok; lia).
  assert (Hk1 : scale_ok (0 - 1)) by (unfold scale_ok; lia).
  assert (Hden : Prim2SF ((of_nat n * (of_nat n - 1)) / 2)
                 = SFval (Z.of_nat n * (Z.of_nat n - 1)) (0 - 1)).
  { rewrite FloatAxioms.div_spec, FloatAxioms.mul_spec, FloatAxioms.sub_spec.
    rewrite of_nat_exact by lia. change (Prim2SF 1) with (SFval 1 0).
    rewrite SFsub_exact, SFmul_exact, SFdiv2_exact; try done; lia. }
  assert (Hnum : Prim2SF (of_nat c - of_nat d)
                 = SFval (2 * (Z.of_nat c - Z.of_nat d)) (0 - 1)).
  { rewrite FloatAxioms.sub_spec, !of_nat_exact by lia.
    rewrite SFsub_exact, SFval_double; try done; lia. }
  destruct (SFdiv_SFval (2 * (Z.of_nat c - Z.of_nat d))
              (Z.of_nat n * (Z.of_nat n - 1)) (0 - 1))
    as (Hw & Hone & Hmone); [nia|lia|done|].
  rewrite <- Hnum, <- Hden, <- FloatAxioms.div_spec in Hw, Hone, Hmone.
  destruct (within_one_bounds _ _ Hw) as (H1 & H2 & H3).
  do 3 (split; [done|]). split.
  - intros Hall. apply Prim2SF_inj, Hone. lia.
  - intros Hall. apply Prim2SF_inj, Hmone. lia.
Qed.

Lemma kendallTau_within_one_witness :
  (kendallTau [1; 3; 2; 4]%float [1; 2; 3; 4]%float <? -1)%float = false
  /\ (1 <? kendallTau [1; 3; 2; 4]%float [1; 2; 3; 4]%float)%float = false
  /\ kendallTau [1; 2; 3; 4]%float [2; 4; 6; 8]%float = 1%float.
Proof.
  destruct (kendallTau_within_one [1; 3; 2; 4]%float [1; 2; 3; 4]%float)
    as (_ & Hlo & Hhi & _); [simpl; lia|simpl; lia|].
  destruct (kendallTau_within_one [1; 2; 3; 4]%float [2; 4; 6; 8]%float)
    as (_ & _ & _ & Hone & _); [simpl; lia|simpl; lia|].
  split; [exact Hlo|]. split; [exact Hhi|]. apply Hone. reflexivity.
Defined.

(** The average rank of a run is computed exactly: the integer
    [i + j + 2], one scale down. *)
Lemma avgRank_exact (i j : nat) :
  (Z.of_nat i + Z.of_nat j + 2 < 2 ^ 53)%Z ->
  Prim2SF (avgRank i j) = SFval (Z.of_nat i + Z.of_nat j + 2) (0 - 1).
Proof.
  intros Hij. unfold avgRank.
  assert (Hk : scale_ok 0) by (unfold scale_ok; lia).
  assert (Hk1 : scale_ok (0 - 1)) by (unfold scale_ok; lia).
  assert (Hnum : Prim2SF (of_nat i + of_nat j + 2)
                 = SFval (Z.of_nat i + Z.of_nat j + 2) 0).
  { rewrite !FloatAxioms.add_spec, !of_nat_exact by lia.
    change (Prim2SF 2) with (SFval 2 0).
    rewrite !SFadd_exact; try done; lia. }
  rewrite FloatAxioms.div_spec, Hnum. apply SFdiv2_exact; try done. lia.
Qed.

Lemma avgRank_lt (i j i' j' : nat) :
  (Z.of_nat i' + Z.of_nat j' + 2 < 2 ^ 53)%Z -> i + j < i' + j' ->
  (avgRank i j <? avgRank i' j')%float = true.
Proof.
  intros Hmax Hlt. rewrite FloatAxioms.ltb_spec, !avgRank_exact by lia.
  unfold SFltb. rewrite SFcompare_exact by lia.
  by rewrite (proj2 (Z.compare_lt_iff _ _)) by lia.
Qed.

Lemma avgRank_range (i j n : nat) :
  (Z.of_nat n < 2 ^ 52)%Z -> i <= j < n ->
  (avgRank i j <? 1)%float = false /\ (of_nat n <? avgRank i j)%float = false.
Proof.
  intros Hn Hij. rewrite !FloatAxioms.ltb_spec, avgRank_exact by lia.
  rewrite of_nat_exact by lia.
  change (Prim2SF 1) with (SFval 2 (0 - 1)).
  rewrite <- (SFval_double (Z.of_nat n) 0) by lia.
  unfold SFltb. rewrite !SFcompare_exact by lia.
  split.
  - destruct (Z.compare_spec (Z.of_nat i + Z.of_nat j + 2) 2); [done|lia|done].
  - destruct (Z.compare_spec (2 * Z.of_nat n) (Z.of_nat i + Z.of_nat j + 2));
      [done|lia|done].
Qed.

(** X9: the rank transform of an array without NaN preserves its order: equal
    values get the same rank, a smaller value a strictly smaller rank, and
    every rank lies between 1 and the length of the array. *)
Theorem rankArray_order_preserving (arr : list number) (a b : nat)
  (va vb : number) :
  numeric arr = true -> (Z.of_nat (length arr) < 2 ^ 52)%Z ->
  arr !! a = Some va -> arr !! b = Some vb ->
  exists ra rb,
    rankArray arr !! a = Some ra /\ rankArray arr !! b = Some rb
    /\ ((va =? vb)%float = true -> ra = rb)
    /\ ((va <? vb)%float = true -> (ra <? rb)%float = true)
    /\ (ra <? 1)%float = false
    /\ (of_nat (length arr) <? ra)%float = false.
Proof.
  intros Hnum Hmax Ha Hb.
  destruct (rank_bounds_order arr a b va vb Hnum Ha Hb)
    as (ia & ja & ib & jb & Hba & Hbb & Hia & Hib & Heq & Hlt).
  exists (avgRank ia ja), (avgRank ib jb).
  rewrite rankArray_bounds, !list_lookup_fmap, Hba, Hbb. simpl.
  do 2 (split; [done|]). split; [|split].
  - intros H. by destruct (Heq H) as [-> ->].
  - intros H. specialize (Hlt H). apply avgRank_lt; lia.
  - by apply avgRank_range.
Qed.

Lemma rankArray_order_preserving_witness :
  exists ra rb,
    rankArray [10; 5; 30; 70; 70; 70]%float !! 2 = Some ra
    /\ rankArray [10; 5; 30; 70; 70; 70]%float !! 5 = Some rb
    /\ (ra <? rb)%float = true.
Proof.
  destruct (rankArray_order_preserving [10; 5; 30; 70; 70; 70]%float 2 5 30 70)
    as (ra & rb & Ha & Hb & _ & Hlt & _); [reflexivity|simpl; lia|done|done|].
  exists ra, rb. split; [done|]. split; [done|]. by apply Hlt.
Defined.

Section ExactDivision.
Local Open Scope Z_scope.

(** A product over one of its factors is the other factor, exactly. *)
Lemma SFdiv_exact (a b k : Z) :
  0 < a -> 0 < b -> a * b < 2 ^ 53 -> scale_ok k ->
  SF64div (SFval (a * b) k) (SFval b 0) = SFval a k.
Proof.
  intros Ha Hb Hab Hk. unfold scale_ok in Hk.
  assert (Ha' : a < 2 ^ 53) by nia. assert (Hb' : b < 2 ^ 53) by nia.
  rewrite (SFval_pos a), (SFval_pos b), (SFval_pos (a * b)) by lia.
  pose proof (mant_bounds a ltac:(lia)) as Hma.
  pose proof (mant_bounds b ltac:(lia)) as Hmb.
  pose proof (mant_bounds (a * b) ltac:(lia)) as Hmab.
  pose proof (mant_digits a ltac:(lia)) as Hga.
  pose proof (mant_digits b ltac:(lia)) as Hgb.
  pose proof (mant_digits (a * b) ltac:(lia)) as Hgab.
  pose proof (Zdigits2_small a ltac:(lia)) as Hda.
  pose proof (Zdigits2_small b ltac:(lia)) as Hdb.
  pose proof (Zdigits2_small (a * b) ltac:(lia)) as Hdab.
  destruct (Zdigits2_pos a Ha) as (_ & Hloa & Hhia).
  destruct (Zdigits2_pos b Hb) as (_ & Hlob & Hhib).
  destruct (Zdigits2_pos (a * b) ltac:(lia)) as (_ & Hloab & Hhiab).
  unfold SF64div, SFdiv, SFdiv_core_binary. simpl xorb.
  change (Zdigits2 (Zpos (Z.to_pos (mant (a * b)))))
    with (Zpos (digits2_pos (Z.to_pos (mant (a * b))))).
  change (Zdigits2 (Zpos (Z.to_pos (mant b))))
    with (Zpos (digits2_pos (Z.to_pos (mant b)))).
  rewrite Hgab, Hgb.
  set (da := Zdigits2 a) in *. set (db := Zdigits2 b) in *.
  set (dab := Zdigits2 (a * b)) in *.
  assert (Hdd : da + db - 1 <= dab <= da + db).
  { split.
    - destruct (Z_lt_le_dec dab (da + db - 1)) as [Hlt|]; [|done].
      assert (H1 : 2 ^ dab <= 2 ^ (da - 1 + (db - 1))) by (apply Z.pow_le_mono_r; lia).
      rewrite Z.pow_add_r in H1 by lia.
      set (A := 2 ^ (da - 1)) in *. set (B := 2 ^ (db - 1)) in *. nia.
    - destruct (Z_lt_le_dec (da + db) dab) as [Hlt|]; [|done].
      assert (H1 : 2 ^ (da + db) <= 2 ^ (dab - 1)) by (apply Z.pow_le_mono_r; lia).
      rewrite Z.pow_add_r in H1 by lia.
      set (A := 2 ^ da) in *. set (B := 2 ^ db) in *. nia. }
  set (e1 := dab - 53 + k). set (e2 := db - 53 + 0).
  assert (He' : Z.min (fexp prec emax (53 + e1 - (53 + e2))) (e1 - e2)
                = e1 - e2 - 53).
  { unfold fexp, SpecFloat.emin, prec, emax, e1, e2. lia. }
  rewrite He'. replace (e1 - e2 - (e1 - e2 - 53)) with 53 by lia.
  rewrite Z.shiftl_mul_pow2, !Z2Pos.id by lia.
  set (t := da + db - dab).
  assert (Hq : mant (a * b) * 2 ^ 53 = (mant a * 2 ^ t) * mant b).
  { unfold mant, t. fold da db dab.
    assert (E : 2 ^ (53 - dab) * 2 ^ 53
                = 2 ^ (53 - da) * 2 ^ (da + db - dab) * 2 ^ (53 - db))
      by (rewrite <- !Z.pow_add_r by lia; f_equal; lia).
    replace (a * b * 2 ^ (53 - dab) * 2 ^ 53)
      with (a * b * (2 ^ (53 - dab) * 2 ^ 53)) by ring.
    rewrite E. ring. }
  assert (Hdiv : Z.div_eucl (mant (a * b) * 2 ^ 53) (mant b)
                 = (mant a * 2 ^ t, 0)).
  { pose proof (Z.div_eucl_eq (mant (a * b) * 2 ^ 53) (mant b) ltac:(lia)) as Heq.
    pose proof (Z.mod_pos_bound (mant (a * b) * 2 ^ 53) (mant b) ltac:(lia)) as Hmod.
    unfold Z.modulo in Hmod. destruct (Z.div_eucl _ _) as [q r].
    rewrite Hq in Heq.
    set (Q := mant a * 2 ^ t) in *. set (B := mant b) in *.
    assert (q = Q) by nia. subst q. f_equal. lia. }
  rewrite Hdiv.
  assert (Hloc : new_location (mant b) 0 = loc_Exact).
  { unfold new_location. by destruct (Z.even (mant b)). }
  rewrite Hloc. rewrite <- (Z2Pos.id (mant a)) at 1 by lia.
  rewrite binary_round_aux_exact; try done.
  - f_equal. unfold e1, e2, t. lia.
  - unfold t. lia.
  - unfold e1, e2, t, SpecFloat.emin, prec, emax. lia.
Qed.

End ExactDivision.

(** ** Spearman's rho of a constant sample *)

Lemma sub_diag_zero (r : number) :
  isFinite r = true -> (r - r =? 0)%float = true.
Proof.
  intros Hf. pose proof (abs_sub_diag r Hf) as Hz.
  rewrite FloatAxioms.abs_spec in Hz. rewrite FloatAxioms.eqb_spec.
  by destruct (Prim2SF (r - r)) as [[]|[]| |].
Qed.

(** Adding up [n] copies of a half-integer is exact. *)
Lemma sum_replicate_exact (r : number) (w : Z) (n j : nat) (acc : number) :
  (0 <= w)%Z -> Prim2SF r = SFval w (0 - 1) ->
  Prim2SF acc = SFval (Z.of_nat j * w) (0 - 1) ->
  (Z.of_nat (j + n) * w < 2 ^ 53)%Z ->
  Prim2SF (foldl (fun s v => s + v)%float acc (replicate n r))
  = SFval (Z.of_nat (j + n) * w) (0 - 1).
Proof.
  intros Hw Hr. revert j acc. induction n as [|n IH]; intros j acc Hacc Hmax.
  - simpl. by rewrite Nat.add_0_r.
  - simpl. replace (j + S n) with (S j + n) in * by lia.
    apply IH; [|done].
    rewrite FloatAxioms.add_spec, Hacc, Hr, SFadd_exact.
    + f_equal. lia.
    + lia.
    + done.
    + nia.
    + unfold scale_ok. lia.
Qed.

Lemma mean_replicate_exact (r : number) (w : Z) (n : nat) :
  (0 < w)%Z -> 0 < n -> Prim2SF r = SFval w (0 - 1) ->
  (Z.of_nat n * w < 2 ^ 53)%Z ->
  mean (replicate n r) = r.
Proof.
  intros Hw Hn Hr Hmax. apply Prim2SF_inj. unfold mean.
  rewrite FloatAxioms.div_spec, length_replicate.
  rewrite (sum_replicate_exact r w n 0 0%float); try done; try lia.
  rewrite of_nat_exact by nia. simpl Nat.add.
  rewrite (Z.mul_comm (Z.of_nat n) w), Hr.
  apply SFdiv_exact; try lia. unfold scale_ok. lia.
Qed.

Lemma zero_dev_replicate (r : number) (w : Z) (n : nat) :
  (0 < w)%Z -> Prim2SF r = SFval w (0 - 1) -> (Z.abs w < 2 ^ 53)%Z ->
  (Z.of_nat n * w < 2 ^ 53)%Z ->
  zero_dev (replicate n r) = true.
Proof.
  intros Hw Hr Hw' Hmax. destruct n as [|n]; [done|].
  unfold zero_dev. rewrite <- mean_average.
  rewrite (mean_replicate_exact r w (S n)); try done; try lia.
  apply forallb_forall. intros v Hv%list_elem_of_In%elem_of_replicate.
  destruct Hv as [-> _]. apply sub_diag_zero, isFinite_spec.
  rewrite Hr. by destruct w.
Qed.

Lemma constant_numeric (x : list number) : constant x = true -> numeric x = true.
Proof.
  unfold constant, numeric. rewrite !forallb_forall. intros Hc v Hv.
  specialize (Hc v Hv). rewrite forallb_forall in Hc. specialize (Hc v Hv).
  unfold isNaN. by rewrite Hc.
Qed.

(** The ranks of a constant array are all [(n + 1) / 2]. *)
Lemma rankArray_constant (x : list number) :
  constant x = true ->
  rankArray x = replicate (length x) (avgRank 0 (length x - 1)).
Proof.
  intros Hc. pose proof (constant_numeric x Hc) as Hnum.
  rewrite rankArray_bounds. apply list_eq. intros i.
  rewrite list_lookup_fmap.
  destruct (x !! i) as [v|] eqn:Hv.
  - destruct (rank_bounds_counts x Hnum i v Hv) as [Hb Hcnt].
    assert (Heq : forall w, w ∈ x -> (w =? v)%float = true).
    { intros w Hw. unfold constant in Hc. rewrite forallb_forall in Hc.
      specialize (Hc w (proj1 (list_elem_of_In _ _) Hw)).
      rewrite forallb_forall in Hc. apply Hc, list_elem_of_In.
      by eapply list_elem_of_lookup_2. }
    assert (Hlt : count (fun w => (w <? v)%float) x = 0).
    { unfold count. rewrite filter_none; [done|]. apply Forall_forall.
      intros w Hw. destruct (w <? v)%float eqn:E; [|done].
      apply ltb_not_eqb in E. by rewrite Heq in E. }
    assert (Hall : count (fun w => (w =? v)%float) x = length x).
    { unfold count. rewrite filter_all; [done|]. by apply Forall_forall. }
    rewrite Hb, Hlt, Hall. simpl.
    rewrite lookup_replicate_2; [done|]. by eapply lookup_lt_Some.
  - rewrite (lookup_ge_None_2 (rank_bounds x) i)
      by (rewrite rank_bounds_length; by apply lookup_ge_None_1).
    simpl. symmetry. apply lookup_replicate_None. by apply lookup_ge_None_1.
Qed.

Lemma rankArray_constant_zero_dev (x : list number) :
  constant x = true -> (Z.of_nat (length x) < 2 ^ 26)%Z ->
  zero_dev (rankArray x) = true.
Proof.
  intros Hc Hmax. rewrite (rankArray_constant x Hc).
  destruct (length x) as [|n] eqn:Hn; [done|].
  apply (zero_dev_replicate _ (Z.of_nat 0 + Z.of_nat (S n - 1) + 2)).
  - lia.
  - apply avgRank_exact. lia.
  - lia.
  - change (2 ^ 53)%Z with (2 ^ 26 * 2 ^ 27)%Z. nia.
Qed.

(** X10: Spearman's rho, unlike Pearson's r, does detect a constant sample:
    when all values of [x], or all values of [y], are equal, it is NaN. *)
Theorem spearmanr_constant (x y : list number) :
  (constant x = true /\ (Z.of_nat (length x) < 2 ^ 26)%Z)
  \/ (constant y = true /\ (Z.of_nat (length y) < 2 ^ 26)%Z) ->
  isNaN (spearmanr x y) = true.
Proof.
  intros Hc. unfold spearmanr. apply pearsonr_zero_dev.
  destruct Hc as [[Hc Hmax]|[Hc Hmax]]; [left|right];
    by apply rankArray_constant_zero_dev.
Qed.

Lemma spearmanr_constant_witness :
  isNaN (spearmanr [0.1; 0.1; 0.1]%float [1; 2; 3]%float) = true.
Proof.
  apply (spearmanr_constant [0.1; 0.1; 0.1]%float [1; 2; 3]%float).
  left. split; [reflexivity|simpl; lia].
Defined.

(** ** Degenerate inputs *)

(** C5, as stated, fails for each of the three functions: on the constant
    input x = (1, 1) [kendallTau] returns 0; with y longer than x
    [pearsonr] and [spearmanr] return a number as well; and on
    x = (0.1, 0.1, 0.1), whose computed mean is not 0.1, [pearsonr]
    returns 0. *)
Lemma degenerate_inputs_counterexample :
  ~ nan_on_degenerate kendallTau
  /\ ~ nan_on_degenerate pearsonr
  /\ ~ nan_on_degenerate spearmanr
  /\ constant [1; 1]%float = true
  /\ kendallTau [1; 1]%float [1; 2]%float = 0%float
  /\ isNaN (pearsonr [1; 2]%float [1; 2; 3]%float) = false
  /\ isNaN (spearmanr [1; 2]%float [1; 2; 3]%float) = false
  /\ isNaN (kendallTau [1; 2]%float [1; 2; 3]%float) = false
  /\ isNaN (kendallTau [1; 2; 3]%float [1; 2]%float) = false
  /\ constant [0.1; 0.1; 0.1]%float = true
  /\ pearsonr [0.1; 0.1; 0.1]%float [1; 2; 3]%float = 0%float.
Proof.
  split; [|split; [|split]].
  - intros H. by specialize (H [1; 1]%float [1; 2]%float (or_introl eq_refl)).
  - intros H.
    assert (Hlen : length [1; 2]%float <> length [1; 2; 3]%float) by (simpl; lia).
    by specialize (H _ _ (or_intror (or_intror Hlen))).
  - intros H.
    assert (Hlen : length [1; 2]%float <> length [1; 2; 3]%float) by (simpl; lia).
    by specialize (H _ _ (or_intror (or_intror Hlen))).
  - repeat split; by vm_compute.
Qed.

(** C5, amended: [pearsonr x y] is NaN whenever [y] is shorter than [x], and
    whenever every computed deviation from the mean of [x], or of [y], is a
    zero (a constant input whose mean is computed exactly).  [spearmanr] is
    NaN whenever [y] is shorter than [x] and whenever [x] or [y] is
    constant: the ranks of a constant array are all equal to their mean,
    which is computed exactly for fewer than 2^26 elements; more generally
    it is NaN whenever every deviation of the ranks of [x], or of [y], from
    their mean is a zero.  [kendallTau] signals nothing: on a constant [x]
    or [y] both its counts are zero and, for [x] of length at least 2
    (array lengths are below 2^32), it returns 0, not NaN. *)
Theorem degenerate_inputs (x y : list number) :
  (length y < length x -> isNaN (pearsonr x y) = true)
  /\ (zero_dev x = true \/ zero_dev y = true -> isNaN (pearsonr x y) = true)
  /\ ((constant x = true /\ (Z.of_nat (length x) < 2 ^ 26)%Z)
      \/ (constant y = true /\ (Z.of_nat (length y) < 2 ^ 26)%Z) ->
      isNaN (spearmanr x y) = true)
  /\ (length y < length x
      \/ zero_dev (rankArray x) = true \/ zero_dev (rankArray y) = true ->
      isNaN (spearmanr x y) = true)
  /\ (constant x = true \/ constant y = true ->
      kendall_counts x y = (0, 0)
      /\ (2 <= length x -> (Z.of_nat (length x) < 2 ^ 32)%Z ->
          kendallTau x y = 0%float))
  /\ zero_dev [1; 1]%float = true
  /\ isNaN (pearsonr [1; 1]%float [1; 2]%float) = true
  /\ zero_dev (rankArray [5; 5; 5]%float) = true
  /\ isNaN (spearmanr [5; 5; 5]%float [1; 2; 3]%float) = true
  /\ isNaN (spearmanr [0.1; 0.1; 0.1]%float [1; 2; 3]%float) = true
  /\ kendallTau [1; 1]%float [1; 2]%float = 0%float.
Proof.
  split; [apply pearsonr_short|]. split; [apply pearsonr_zero_dev|].
  split; [|split; [|split]].
  - intros Hc. unfold spearmanr. apply pearsonr_zero_dev.
    destruct Hc as [[Hc Hmax]|[Hc Hmax]]; [left|right];
      by apply rankArray_constant_zero_dev.
  - unfold spearmanr. intros [Hlen|Hz].
    + apply pearsonr_short. by rewrite !rankArray_length.
    + by apply pearsonr_zero_dev.
  - intros Hc. pose proof (kendall_constant x y Hc) as Hk.
    split; [done|]. intros Hn Hmax. unfold kendallTau. rewrite Hk.
    change (of_nat 0 - of_nat 0)%float with 0%float.
    apply zero_over_pairs. lia.
  - repeat split; by vm_compute.
Qed.

Lemma degenerate_inputs_witness :
  isNaN (pearsonr [3; 3; 3; 3]%float [1; 2; 4; 8]%float) = true
  /\ isNaN (pearsonr [1; 2; 3]%float [1; 2]%float) = true
  /\ isNaN (spearmanr [1; 2; 3]%float [0.1; 0.1; 0.1]%float) = true
  /\ kendallTau [7; 7; 7]%float [1; 2; 3]%float = 0%float.
Proof.
  destruct (degenerate_inputs [3; 3; 3; 3]%float [1; 2; 4; 8]%float)
    as (_ & Hdev & _).
  destruct (degenerate_inputs [1; 2; 3]%float [1; 2]%float) as (Hshort & _).
  destruct (degenerate_inputs [1; 2; 3]%float [0.1; 0.1; 0.1]%float)
    as (_ & _ & Hrank & _).
  destruct (degenerate_inputs [7; 7; 7]%float [1; 2; 3]%float)
    as (_ & _ & _ & _ & Hconst & _).
  split; [apply Hdev; left; reflexivity|].
  split; [apply Hshort; simpl; lia|].
  split; [apply Hrank; right; split; [reflexivity|simpl; lia]|].
  apply Hconst; [left; reflexivity|simpl; lia|simpl; lia].
Defined.

(** ** The mean rank *)

(** Adding up average ranks is exact. *)
Lemma sum_ranks_exact (bs : list (nat * nat)) (j : Z) (acc : number) :
  (0 <= j)%Z -> Prim2SF acc = SFval j (0 - 1) ->
  (j + Z.of_nat (sum_list_with (fun b : nat * nat => (b.1 + b.2 + 2)%nat) bs) < 2 ^ 53)%Z ->
  Prim2SF (foldl (fun s v => s + v)%float acc
                 ((fun b => avgRank b.1 b.2) <$> bs))
  = SFval (j + Z.of_nat (sum_list_with (fun b : nat * nat => (b.1 + b.2 + 2)%nat) bs)) (0 - 1).
Proof.
  revert j acc. induction bs as [|[i k] bs IH]; intros j acc Hj Hacc Hmax.
  - simpl. by rewrite Z.add_0_r.
  - simpl in *.
    replace (j + Z.of_nat (i + k + 2 + sum_list_with (fun b : nat * nat => (b.1 + b.2 + 2)%nat) bs))%Z
      with ((j + (Z.of_nat i + Z.of_nat k + 2))
            + Z.of_nat (sum_list_with (fun b : nat * nat => (b.1 + b.2 + 2)%nat) bs))%Z in * by lia.
    apply IH; [lia| |done].
    rewrite FloatAxioms.add_spec, Hacc, avgRank_exact by lia.
    apply SFadd_exact; try lia. unfold scale_ok. lia.
Qed.

(** X11: the mean of the ranks is exactly [(n + 1) / 2], whatever the data and
    its ties. *)
Theorem rankArray_mean (arr : list number) :
  1 <= length arr -> (Z.of_nat (length arr) < 2 ^ 26)%Z ->
  mean (rankArray arr) = ((of_nat (length arr) + 1) / 2)%float.
Proof.
  intros Hn Hmax. apply Prim2SF_inj. unfold mean.
  rewrite rankArray_length. rewrite rankArray_bounds.
  assert (Hk : scale_ok 0) by (unfold scale_ok; lia).
  assert (Hk1 : scale_ok (0 - 1)) by (unfold scale_ok; lia).
  assert (Hsum : (Z.of_nat (length arr * (length arr + 1)) < 2 ^ 53)%Z).
  { change (2 ^ 53)%Z with (2 ^ 26 * 2 ^ 27)%Z. nia. }
  rewrite FloatAxioms.div_spec.
  rewrite (sum_ranks_exact (rank_bounds arr) 0 0%float); try done;
    rewrite ?rank_bounds_sum; try lia.
  rewrite of_nat_exact by lia. rewrite Z.add_0_l.
  rewrite Nat2Z.inj_mul, Nat2Z.inj_add, Z.mul_comm. simpl (Z.of_nat 1).
  rewrite SFdiv_exact; try done; try lia.
  rewrite FloatAxioms.div_spec, FloatAxioms.add_spec, of_nat_exact by lia.
  change (Prim2SF 1) with (SFval 1 0).
  rewrite SFadd_exact, SFdiv2_exact; try done; lia.
Qed.

Lemma rankArray_mean_witness :
  mean (rankArray [10; 5; 30; 70; 70; 70]%float)
  = ((of_nat 6 + 1) / 2)%float.
Proof.
  apply (rankArray_mean [10; 5; 30; 70; 70; 70]%float); simpl; lia.
Defined.

(** ** Average ranks as means of consecutive ranks *)

(** The closed form of an average rank: [(2 s + k + 1) / 2] is exact. *)
Lemma half_exact (q : nat) :
  (Z.of_nat q < 2 ^ 53)%Z ->
  Prim2SF (of_nat q / 2)%float = SFval (Z.of_nat q) (0 - 1).
Proof.
  intros Hq. rewrite FloatAxioms.div_spec, of_nat_exact by done.
  apply SFdiv2_exact; unfold scale_ok; lia.
Qed.

Lemma avgRank_closed (s k : nat) :
  1 <= k -> (Z.of_nat (2 * s + k + 1) < 2 ^ 53)%Z ->
  avgRank s (s + k - 1) = (of_nat (2 * s + k + 1) / 2)%float.
Proof.
  intros Hk Hmax. apply Prim2SF_inj.
  rewrite avgRank_exact, half_exact by lia. f_equal. lia.
Qed.

(** Adding up consecutive integers is exact. *)
Lemma sum_consecutive_exact (a k : nat) (j : Z) (acc : number) :
  (0 <= j)%Z -> Prim2SF acc = SFval j 0 ->
  (j + Z.of_nat (sum_list (seq a k)) < 2 ^ 53)%Z ->
  Prim2SF (foldl PrimFloat.add acc (map of_nat (seq a k)))
  = SFval (j + Z.of_nat (sum_list (seq a k))) 0.
Proof.
  revert a j acc. induction k as [|k IH]; intros a j acc Hj Hacc Hmax.
  - simpl. by rewrite Z.add_0_r.
  - simpl in *. rewrite (IH (S a) (j + Z.of_nat a)%Z); [f_equal; lia|lia| |lia].
    rewrite FloatAxioms.add_spec, Hacc, of_nat_exact by lia.
    apply SFadd_exact; try lia. unfold scale_ok. lia.
Qed.

Lemma sum_list_seq (a k : nat) : 2 * sum_list (seq a k) = k * (2 * a + k - 1).
Proof.
  revert a. induction k as [|k IH]; intros a; simpl; [done|].
  specialize (IH (S a)). nia.
Qed.

(** The arithmetic mean of the ranks [s + 1, ..., s + k], computed in
    binary64, is [(2 s + k + 1) / 2]. *)
Lemma mean_rank_closed (s k : nat) :
  1 <= k -> (Z.of_nat (s + k) < 2 ^ 26)%Z ->
  mean_rank s k = (of_nat (2 * s + k + 1) / 2)%float.
Proof.
  intros Hk Hmax. apply Prim2SF_inj. unfold mean_rank, sum.
  pose proof (sum_list_seq (s + 1) k) as Hsum.
  assert (Hb : (Z.of_nat k * Z.of_nat (2 * s + k + 1) < 2 ^ 53)%Z).
  { change (2 ^ 53)%Z with (2 ^ 26 * (2 * 2 ^ 26))%Z.
    apply Z.mul_lt_mono_nonneg; lia. }
  rewrite FloatAxioms.div_spec.
  rewrite (sum_consecutive_exact (s + 1) k 0 0%float); [|done|done|nia].
  rewrite Z.add_0_l, half_exact by nia. rewrite of_nat_exact by lia.
  rewrite <- (SFval_double (Z.of_nat (sum_list (seq (s + 1) k))) 0) by nia.
  replace (2 * Z.of_nat (sum_list (seq (s + 1) k)))%Z
    with (Z.of_nat (2 * s + k + 1) * Z.of_nat k)%Z by nia.
  apply SFdiv_exact; try lia. unfold scale_ok. lia.
Qed.

(** The ranks of an array without NaN, read off the counts of smaller and
    of equal elements. *)
Lemma rankArray_counts (arr : list number) :
  numeric arr = true -> (Z.of_nat (length arr) < 2 ^ 52)%Z ->
  rankArray arr
  = map (fun v => (of_nat (2 * smaller arr v + equal arr v + 1) / 2)%float) arr
  /\ (forall v, v ∈ arr ->
        1 <= equal arr v /\ smaller arr v + equal arr v <= length arr)
  /\ sum_list_with (fun v => 2 * smaller arr v + equal arr v + 1) arr
     = length arr * (length arr + 1).
Proof.
  intros Hnum Hmax.
  assert (Hle : forall v, smaller arr v + equal arr v <= length arr).
  { intros v. unfold smaller, equal.
    replace (length arr) with (count (fun _ : number => true) arr)
      by (unfold count; rewrite filter_all; [done|by apply Forall_forall]).
    apply count_disjoint_le; [|done..].
    intros w _ Hlt. by apply ltb_not_eqb. }
  assert (Hb : forall idx v, arr !! idx = Some v ->
            rank_bounds arr !! idx
            = Some (smaller arr v, smaller arr v + equal arr v - 1)
            /\ 1 <= equal arr v).
  { intros idx v Hv. apply (rank_bounds_counts arr Hnum idx v Hv). }
  split; [|split].
  - rewrite rankArray_bounds. apply list_eq. intros idx.
    rewrite !list_lookup_fmap.
    destruct (arr !! idx) as [v|] eqn:Hv.
    + destruct (Hb idx v Hv) as [-> Hk]. simpl. f_equal.
      apply avgRank_closed; [done|]. specialize (Hle v). lia.
    + rewrite (lookup_ge_None_2 (rank_bounds arr) idx); [done|].
      rewrite rank_bounds_length. by apply lookup_ge_None_1.
  - intros v [idx Hv]%list_elem_of_lookup_1.
    destruct (Hb idx v Hv) as [_ Hk]. split; [done|apply Hle].
  - rewrite <- rank_bounds_sum.
    rewrite (sum_list_with_lookup _ arr), (sum_list_with_lookup _ (rank_bounds arr)).
    rewrite rank_bounds_length. apply sum_list_with_ext_in.
    intros idx Hidx%elem_of_seq.
    destruct (lookup_lt_is_Some_2 arr idx) as [v Hv]; [lia|].
    destruct (Hb idx v Hv) as [-> Hk]. rewrite Hv. simpl. lia.
Qed.

(** The binary64 sum of the ranks. *)
Lemma sum_rankArray (arr : list number) :
  (Z.of_nat (length arr) < 2 ^ 26)%Z ->
  sum (rankArray arr) = of_nat (length arr * (length arr + 1) / 2).
Proof.
  intros Hmax. apply Prim2SF_inj. unfold sum.
  assert (Hsum : (Z.of_nat (length arr * (length arr + 1)) < 2 ^ 53)%Z).
  { change (2 ^ 53)%Z with (2 ^ 26 * 2 ^ 27)%Z. nia. }
  assert (Heven : length arr * (length arr + 1)
                  = 2 * (length arr * (length arr + 1) / 2)).
  { destruct (Nat.Even_or_Odd (length arr)) as [[m Hm]|[m Hm]].
    - rewrite Hm at 1 3. rewrite <- Nat.mul_assoc, (Nat.mul_comm 2), Nat.div_mul by done.
      lia.
    - replace (length arr * (length arr + 1)) with ((length arr * (m + 1)) * 2) by lia.
      rewrite Nat.div_mul by done. lia. }
  rewrite rankArray_bounds.
  etransitivity.
  { apply (sum_ranks_exact (rank_bounds arr) 0 0%float); try done.
    rewrite rank_bounds_sum. lia. }
  rewrite rank_bounds_sum, of_nat_exact by lia. rewrite Z.add_0_l.
  rewrite Heven at 1. rewrite Nat2Z.inj_mul. simpl (Z.of_nat 2).
  apply SFval_double. lia.
Qed.

(** C2: the rank transform.  In an array without NaN, an element [v] with
    [s] strictly smaller elements and [k] elements equal to it (itself
    included) gets the rank [(2 s + k + 1) / 2], which is the arithmetic
    mean of the [k] consecutive 1-based ranks [s + 1, ..., s + k] the group
    occupies; a single smallest value therefore gets rank 1.  Twice these
    ranks add up to [n (n + 1)], and the binary64 sum of the assigned ranks
    is [n (n + 1) / 2] whatever the ties.  (Ranks are binary64 numbers,
    which represent these half-integers exactly; the bounds on the length
    keep the counts and the sums below 2^53.)  On the array with a
    three-way tie for the ranks 4, 5, 6 the three ranks are 5 and all six
    add up to 21 = 6 * 7 / 2. *)
Theorem rankArray_midranks (arr : list number) :
  length (rankArray arr) = length arr
  /\ (numeric arr = true -> (Z.of_nat (length arr) < 2 ^ 52)%Z ->
      rankArray arr
      = map (fun v => (of_nat (2 * smaller arr v + equal arr v + 1) / 2)%float)
            arr
      /\ (forall v, v ∈ arr ->
            1 <= equal arr v /\ smaller arr v + equal arr v <= length arr)
      /\ (forall idx v, arr !! idx = Some v ->
            smaller arr v = 0 -> equal arr v = 1 ->
            rankArray arr !! idx = Some 1%float)
      /\ sum_list_with (fun v => 2 * smaller arr v + equal arr v + 1) arr
         = length arr * (length arr + 1))
  /\ (forall s k, 1 <= k -> (Z.of_nat (s + k) < 2 ^ 26)%Z ->
      mean_rank s k = (of_nat (2 * s + k + 1) / 2)%float)
  /\ ((Z.of_nat (length arr) < 2 ^ 26)%Z ->
      sum (rankArray arr) = of_nat (length arr * (length arr + 1) / 2))
  /\ rankArray [10; 5; 30; 70; 70; 70]%float = [2; 1; 3; 5; 5; 5]%float
  /\ mean_rank 3 3 = 5%float
  /\ rankArray [7; 7]%float = [1.5; 1.5]%float
  /\ sum (rankArray [10; 5; 30; 70; 70; 70]%float) = 21%float.
Proof.
  split; [apply rankArray_length|]. split; [|split; [|split]].
  - intros Hnum Hmax.
    destruct (rankArray_counts arr Hnum Hmax) as (Hranks & Hcount & Hsum).
    split; [done|]. split; [done|]. split; [|done].
    intros idx v Hv Hs Hk. rewrite Hranks, list_lookup_fmap, Hv.
    cbn [fmap option_fmap option_map]. rewrite Hs, Hk. reflexivity.
  - apply mean_rank_closed.
  - apply sum_rankArray.
  - repeat split; by vm_compute.
Qed.

Lemma rankArray_midranks_witness :
  rankArray [10; 5; 30; 70; 70; 70]%float !! 1 = Some 1%float
  /\ sum (rankArray [10; 5; 30; 70; 70; 70]%float) = of_nat (6 * (6 + 1) / 2).
Proof.
  destruct (rankArray_midranks [10; 5; 30; 70; 70; 70]%float)
    as (_ & Hnum & _ & Hsum & _).
  destruct (Hnum eq_refl ltac:(simpl; lia)) as (_ & _ & Hfirst & _).
  split; [by apply (Hfirst 1 5%float)|].
  apply Hsum. simpl. lia.
Defined.

(** ** Clamping with [Math.max] and [Math.min] *)

Lemma ltb_irrefl (a : number) : (a <? a)%float = false.
Proof.
  destruct (a <? a)%float eqn:H; [|done]. by rewrite (ltb_antisym a a H) in H.
Qed.

Lemma ltb_not_nan (a b : number) :
  (a <? b)%float = true -> isNaN a = false /\ isNaN b = false.
Proof.
  rewrite !isNaN_false, FloatAxioms.ltb_spec. unfold SFltb.
  destruct (Prim2SF a) as [sa|sa| |sa ma ea], (Prim2SF b) as [sb|sb| |sb mb eb];
    done.
Qed.

Lemma isNaN_nan : isNaN nan = true.
Proof. done. Qed.

Lemma Math_min_nan_r (a b : number) : isNaN b = true -> Math_min a b = nan.
Proof. intros Hb. unfold Math_min. by rewrite Hb, orb_true_r. Qed.

Lemma Math_max_nan_r (a b : number) : isNaN b = true -> Math_max a b = nan.
Proof. intros Hb. unfold Math_max. by rewrite Hb, orb_true_r. Qed.

(** The minimum of two numbers proper is one of them, and no larger than
    either. *)
Lemma Math_min_spec (a b : number) :
  isNaN a = false -> isNaN b = false ->
  (Math_min a b = a \/ Math_min a b = b)
  /\ (a <? Math_min a b)%float = false
  /\ (b <? Math_min a b)%float = false.
Proof.
  intros Ha Hb. unfold Math_min. rewrite Ha, Hb. simpl.
  destruct (a <? b)%float eqn:Hab.
  { split; [by left|]. split; [apply ltb_irrefl|by apply ltb_antisym]. }
  destruct (b <? a)%float eqn:Hba.
  { split; [by right|]. split; [done|apply ltb_irrefl]. }
  destruct (get_sign a).
  - split; [by left|]. split; [apply ltb_irrefl|done].
  - split; [by right|]. split; [done|apply ltb_irrefl].
Qed.

Lemma Math_max_spec (a b : number) :
  isNaN a = false -> isNaN b = false ->
  (Math_max a b = a \/ Math_max a b = b)
  /\ (Math_max a b <? a)%float = false
  /\ (Math_max a b <? b)%float = false.
Proof.
  intros Ha Hb. unfold Math_max. rewrite Ha, Hb. simpl.
  destruct (a <? b)%float eqn:Hab.
  { split; [by right|]. split; [by apply ltb_antisym|apply ltb_irrefl]. }
  destruct (b <? a)%float eqn:Hba.
  { split; [by left|]. split; [apply ltb_irrefl|done]. }
  destruct (get_sign a).
  - split; [by right|]. split; [done|apply ltb_irrefl].
  - split; [by left|]. split; [apply ltb_irrefl|done].
Qed.

(** [Math.max(lo, Math.min(hi, v))] for bounds [lo <= hi]: NaN for NaN, and
    for any other [v] a number between [lo] and [hi], [v] itself when it
    lies strictly between the two. *)
Lemma clamp_nan (lo hi v : number) :
  isNaN v = true -> Math_max lo (Math_min hi v) = nan.
Proof. intros Hv. by rewrite (Math_min_nan_r hi v Hv), Math_max_nan_r. Qed.

Lemma clamp_range (lo hi v : number) :
  isNaN lo = false -> isNaN hi = false -> (hi <? lo)%float = false ->
  isNaN v = false ->
  isNaN (Math_max lo (Math_min hi v)) = false
  /\ (Math_max lo (Math_min hi v) <? lo)%float = false
  /\ (hi <? Math_max lo (Math_min hi v))%float = false.
Proof.
  intros Hlo Hhi Hle Hv.
  destruct (Math_min_spec hi v Hhi Hv) as (Hm & Hm1 & Hm2).
  assert (Hmn : isNaN (Math_min hi v) = false) by (by destruct Hm as [-> | ->]).
  destruct (Math_max_spec lo (Math_min hi v) Hlo Hmn) as (Hc & Hc1 & Hc2).
  rewrite Hc1. destruct Hc as [Hc | Hc]; rewrite Hc in *; by rewrite ?ltb_irrefl.
Qed.

Lemma clamp_inside (lo hi v : number) :
  (lo <? v)%float = true -> (v <? hi)%float = true ->
  Math_max lo (Math_min hi v) = v.
Proof.
  intros H1 H2.
  destruct (ltb_not_nan lo v H1) as [Hlo Hv].
  destruct (ltb_not_nan v hi H2) as [_ Hhi].
  unfold Math_min. rewrite Hhi, Hv. simpl.
  rewrite (ltb_antisym _ _ H2), H2.
  unfold Math_max. by rewrite Hlo, Hv, H1.
Qed.

(** ** The sample size *)

(** The loop [for (i = 0; i < n; i++)] stops at the first counter that is
    not below [n], or when the fuel runs out. *)
Lemma rounds_spec (n : number) (fuel i : nat) :
  i <= rounds n i fuel <= i + fuel
  /\ (forall k, i <= k < rounds n i fuel -> (of_nat k <? n)%float = true)
  /\ (rounds n i fuel < i + fuel -> (of_nat (rounds n i fuel) <? n)%float = false).
Proof.
  revert i. induction fuel as [|fuel IH]; intros i; simpl.
  - split; [lia|]. split; [|lia]. intros k Hk. lia.
  - destruct (of_nat i <? n)%float eqn:Hi.
    + destruct (IH (S i)) as (Hr & Hbelow & Hexit).
      split; [lia|]. split.
      * intros k Hk. destruct (decide (k = i)) as [->|Hne]; [done|].
        apply Hbelow. lia.
      * intros Hlt. apply Hexit. lia.
    + split; [lia|]. split; [|done]. intros k Hk. lia.
Qed.

Lemma loop_rounds_spec (n : number) :
  loop_rounds n <= 1000
  /\ (forall k, k < loop_rounds n -> (of_nat k <? n)%float = true)
  /\ (loop_rounds n < 1000 -> (of_nat (loop_rounds n) <? n)%float = false).
Proof.
  unfold loop_rounds. destruct (rounds_spec n 1000 0) as (Hr & Hb & He).
  split; [lia|]. split; [|intros; apply He; lia].
  intros k Hk. apply Hb. lia.
Qed.

(** The integers up to 1000 are ordered as numbers the way they are as
    counters. *)
Lemma of_nat_steps :
  forallb (fun i => (of_nat i <? of_nat (S i))%float) (seq 0 1000) = true.
Proof. vm_compute. reflexivity. Qed.

Lemma of_nat_lt (i k : nat) :
  i < k <= 1000 -> (of_nat i <? of_nat k)%float = true.
Proof.
  intros [Hik Hk].
  assert (Hstep : forall j, j < 1000 -> (of_nat j <? of_nat (S j))%float = true).
  { intros j Hj. pose proof of_nat_steps as Hall.
    rewrite forallb_forall in Hall. apply Hall, in_seq. lia. }
  induction k as [|k IH]; [lia|].
  destruct (decide (i = k)) as [->|Hne]; [apply Hstep; lia|].
  apply (ltb_trans _ (of_nat k)); [apply IH; lia|apply Hstep; lia].
Qed.

(** A bound that is an integer up to 1000: the loop makes that many
    rounds. *)
Lemma loop_rounds_of_nat (k : nat) : k <= 1000 -> loop_rounds (of_nat k) = k.
Proof.
  intros Hk. destruct (loop_rounds_spec (of_nat k)) as (Hr & Hbelow & Hexit).
  destruct (Nat.lt_trichotomy (loop_rounds (of_nat k)) k) as [Hlt|[Heq|Hgt]];
    [|done|].
  - rewrite of_nat_lt in Hexit by lia. discriminate Hexit. lia.
  - specialize (Hbelow k Hgt). by rewrite ltb_irrefl in Hbelow.
Qed.

(** A sample size between 10 and 1000: the loop makes between 10 and 1000
    rounds and stops because its test fails. *)
Lemma rounds_clamped (n : number) :
  isNaN n = false -> (n <? 10)%float = false -> (1000 <? n)%float = false ->
  10 <= loop_rounds n <= 1000
  /\ (of_nat (loop_rounds n) <? n)%float = false.
Proof.
  intros Hn Hlo Hhi.
  destruct (loop_rounds_spec n) as (Hr & Hbelow & Hexit).
  split.
  - split; [|lia].
    destruct (Nat.le_gt_cases 10 (loop_rounds n)) as [|Hlt]; [done|].
    rewrite (ltb_leq_trans (of_nat (loop_rounds n)) 10 n) in Hexit;
      [discriminate Hexit; lia|done|done| |done].
    change 10%float with (of_nat 10). apply of_nat_lt. lia.
  - destruct (decide (loop_rounds n = 1000)) as [->|Hne]; [done|].
    apply Hexit. lia.
Qed.

(** Every integer from 10 to 1000 is its own sample size. *)
Lemma sample_size_integers :
  forallb (fun k => Leibniz.eqb (Math_max 10 (Math_min 1000 (of_nat k))) (of_nat k))
          (seq 10 991) = true.
Proof. vm_compute. reflexivity. Qed.

Section SampleSize.
Variable parseInt : string -> number.

Lemma sample_size_spec (v : string) :
  let r := parseInt (or_default v "50") in
  let n := sample_size parseInt v in
  (isNaN r = true -> isNaN n = true /\ loop_rounds n = 0)
  /\ (isNaN r = false ->
      isNaN n = false /\ (n <? 10)%float = false /\ (1000 <? n)%float = false
      /\ 10 <= loop_rounds n <= 1000)
  /\ (of_nat (loop_rounds n) <? n)%float = false
  /\ (forall k, 10 <= k <= 1000 -> r = of_nat k ->
      n = of_nat k /\ loop_rounds n = k)
  /\ ((r <? 10)%float = true -> n = 10%float /\ loop_rounds n = 10)
  /\ ((1000 <? r)%float = true -> n = 1000%float /\ loop_rounds n = 1000).
Proof.
  intros r n. unfold n, sample_size. fold r.
  assert (Hnan : isNaN r = true ->
            Math_max 10 (Math_min 1000 r) = nan) by apply clamp_nan.
  assert (Hnum : isNaN r = false ->
            isNaN (Math_max 10 (Math_min 1000 r)) = false
            /\ (Math_max 10 (Math_min 1000 r) <? 10)%float = false
            /\ (1000 <? Math_max 10 (Math_min 1000 r))%float = false)
    by (by apply clamp_range).
  split; [|split; [|split; [|split; [|split]]]].
  - intros Hr. by rewrite (Hnan Hr).
  - intros Hr. destruct (Hnum Hr) as (H1 & H2 & H3).
    do 3 (split; [done|]). by apply rounds_clamped.
  - destruct (isNaN r) eqn:Hr.
    + by rewrite (Hnan eq_refl).
    + destruct (Hnum eq_refl) as (H1 & H2 & H3). by apply rounds_clamped.
  - intros k Hk ->.
    pose proof sample_size_integers as Hall. rewrite forallb_forall in Hall.
    specialize (Hall k). rewrite in_seq in Hall.
    apply FloatAxioms.Leibniz.eqb_spec in Hall; [|lia].
    rewrite Hall. split; [done|]. apply loop_rounds_of_nat. lia.
  - intros Hr. destruct (ltb_not_nan _ _ Hr) as [Hrn _].
    assert (Hr' : (r <? 1000)%float = true) by (by apply (ltb_trans r 10 1000)).
    assert (Hmin : Math_min 1000 r = r).
    { unfold Math_min. rewrite Hrn. simpl.
      by rewrite (ltb_antisym r 1000 Hr'), Hr'. }
    rewrite Hmin. unfold Math_max. rewrite Hrn. simpl.
    by rewrite (ltb_antisym r 10 Hr), Hr.
  - intros Hr. destruct (ltb_not_nan _ _ Hr) as [_ Hrn].
    unfold Math_min. rewrite Hrn. simpl. by rewrite Hr.
Qed.

End SampleSize.

Section SampleSizeRange.
Variable parseInt : string -> number.

(** X12: the sample size is NaN for an input that does not parse, and otherwise
    a number from 10 to 1000: the parsed integer itself when that lies in
    the range, 10 below it and 1000 above it; an empty input counts as 50.
    The generator loop makes as many rounds, none for NaN, and always stops
    because its test fails. *)
Theorem sample_size_clamped (v : string) :
  (isNaN (parseInt (or_default v "50")) = true ->
   isNaN (sample_size parseInt v) = true
   /\ loop_rounds (sample_size parseInt v) = 0)
  /\ (isNaN (parseInt (or_default v "50")) = false ->
      isNaN (sample_size parseInt v) = false
      /\ (sample_size parseInt v <? 10)%float = false
      /\ (1000 <? sample_size parseInt v)%float = false
      /\ 10 <= loop_rounds (sample_size parseInt v) <= 1000)
  /\ (of_nat (loop_rounds (sample_size parseInt v)) <? sample_size parseInt v)%float
     = false
  /\ (forall k, 10 <= k <= 1000 -> parseInt (or_default v "50") = of_nat k ->
      sample_size parseInt v = of_nat k
      /\ loop_rounds (sample_size parseInt v) = k)
  /\ ((parseInt (or_default v "50") <? 10)%float = true ->
      sample_size parseInt v = 10%float
      /\ loop_rounds (sample_size parseInt v) = 10)
  /\ ((1000 <? parseInt (or_default v "50"))%float = true ->
      sample_size parseInt v = 1000%float
      /\ loop_rounds (sample_size parseInt v) = 1000)
  /\ sample_size parseInt EmptyString = sample_size parseInt "50".
Proof.
  pose proof (sample_size_spec parseInt v) as (H1 & H2 & H3 & H4 & H5 & H6).
  do 6 (split; [assumption|]). reflexivity.
Qed.

End SampleSizeRange.

Lemma sample_size_clamped_witness :
  loop_rounds (sample_size (parse_table size_table) EmptyString) = 50
  /\ loop_rounds (sample_size (parse_table size_table) "5000") = 1000
  /\ loop_rounds (sample_size (parse_table size_table) "many") = 0.
Proof.
  destruct (sample_size_clamped (parse_table size_table) EmptyString)
    as (_ & _ & _ & Hin & _).
  destruct (sample_size_clamped (parse_table size_table) "5000")
    as (_ & _ & _ & _ & _ & Habove & _).
  destruct (sample_size_clamped (parse_table size_table) "many")
    as (Hnan & _).
  split; [|split].
  - apply (Hin 50); [lia|reflexivity].
  - apply Habove. reflexivity.
  - apply Hnan. reflexivity.
Defined.

Section SquareBelowOne.
Local Open Scope Z_scope.

(** The square of a value below 1 in magnitude rounds to at most 1. *)
Lemma SFmul_self_le_one (s : bool) (m : positive) (e : Z) :
  bounded prec emax m e = true -> e <= -53 ->
  SFcompare (SF64mul (S754_finite s m e) (S754_finite s m e)) (Prim2SF 1)
  = Some Lt
  \/ SFcompare (SF64mul (S754_finite s m e) (S754_finite s m e)) (Prim2SF 1)
     = Some Eq.
Proof.
  intros Hb He. apply bounded_inv in Hb as (_ & Hm & _).
  unfold SF64mul, SFmul. rewrite xorb_nilpotent.
  pose proof (binary_round_aux_cases false (Zpos (m * m)) (e + e) loc_Exact
                ltac:(lia)) as Hc.
  assert (Hd : Zdigits2 (Zpos (m * m)) <= 106).
  { apply Zdigits2_le; [lia|]. split; [lia|].
    change (2 ^ 106) with (2 ^ 53 * 2 ^ 53). rewrite Pos2Z.inj_mul.
    apply Z.mul_lt_mono_nonneg; lia. }
  set (e1 := Z.max (e + e) (fexp prec emax (Zdigits2 (Zpos (m * m)) + (e + e)))) in *.
  assert (He1 : e1 <= -53).
  { unfold e1, fexp, SpecFloat.emin, prec, emax. lia. }
  change (Prim2SF 1) with (S754_finite false 4503599627370496 (-52)).
  destruct (binary_round_aux prec emax false (Zpos (m * m)) (e + e) loc_Exact)
    as [s'|s'| |s' m' e']; simpl in Hc; try done.
  - left. by destruct s'.
  - destruct Hc as [_ Hc]. unfold emax, prec in Hc. clear -Hc He1. lia.
  - destruct Hc as (-> & _ & [[-> _]|[-> Hm']]).
    + left. unfold SFcompare.
      destruct (Z.compare_spec e1 (-52)) as [H|H|H];
        [clear -H He1; lia|reflexivity|clear -H He1; lia].
    + assert (Hm'' : m' = 4503599627370496%positive).
      { change (2 ^ 52) with 4503599627370496 in Hm'. clear -Hm'. lia. }
      subst m'. unfold SFcompare.
      destruct (Z.compare_spec (e1 + 1) (-52)) as [H|H|H];
        [by right|by left|clear -H He1; lia].
Qed.

(** The square root of a number that is not negative is a number. *)
Lemma SFsqrt_not_nan (x : spec_float) :
  SFltb (S754_zero false) x = true \/ SFeqb x (S754_zero false) = true ->
  SF64sqrt x <> S754_nan.
Proof.
  unfold SF64sqrt, SFsqrt.
  destruct x as [s|s| |s m e]; try destruct s; simpl;
    try done; try (by intros [|]).
  intros _. unfold SFsqrt_core_binary.
  set (s := e - 2 * _).
  set (m' := match s with 0 => Zpos m | Zpos _ => Z.shiftl (Zpos m) s | Zneg _ => 0 end).
  assert (Hm' : 0 <= m').
  { unfold m'. destruct s as [|k|k]; [lia| |lia]. apply Z.shiftl_nonneg. lia. }
  pose proof (Z.sqrtrem_spec m' Hm') as Hs.
  destruct (Z.sqrtrem m') as [q r]. apply binary_round_aux_not_nan. lia.
Qed.

End SquareBelowOne.

(** A number between -0.98 and 0.98 has a square of at most 1, so the
    weight [sqrt(1 - rho * rho)] of the noise is a number. *)
Lemma noise_weight_number (rho : number) :
  isNaN rho = false ->
  (rho <? -0.98)%float = false -> (0.98 <? rho)%float = false ->
  isNaN (PrimFloat.sqrt (1 - rho * rho)) = false.
Proof.
  intros Hn Hlo Hhi.
  assert (Hsq : (rho * rho <? 1)%float = true \/ (rho * rho =? 1)%float = true).
  { rewrite FloatAxioms.ltb_spec, FloatAxioms.eqb_spec, FloatAxioms.mul_spec.
    unfold SFltb, SFeqb.
    rewrite isNaN_false in Hn.
    rewrite !FloatAxioms.ltb_spec in Hlo, Hhi.
    pose proof (Prim2SF_valid rho) as Hv.
    change (Prim2SF (-0.98)) with (S754_finite true 8827055269646172 (-53)) in Hlo.
    change (Prim2SF 0.98) with (S754_finite false 8827055269646172 (-53)) in Hhi.
    destruct (Prim2SF rho) as [s|s| |s m e] eqn:Hrho; try done.
    - left. by destruct s.
    - by destruct s.
    - assert (He : (e <= -53)%Z).
      { unfold SFltb, SFcompare in Hlo, Hhi. destruct s.
        - destruct (Z.compare_spec e (-53)); [lia|lia|done].
        - destruct (Z.compare_spec (-53) e); [lia|done|lia]. }
      destruct (SFmul_self_le_one s m e Hv He) as [-> | ->]; auto. }
  assert (Hn2 : isNaN (rho * rho) = false).
  { destruct Hsq as [H|H].
    - by apply ltb_not_nan in H as [? _].
    - destruct (isNaN (rho * rho)) eqn:E; [|done].
      apply isNaN_spec in E. rewrite FloatAxioms.eqb_spec, E in H. done. }
  apply isNaN_false. rewrite FloatAxioms.sqrt_spec. apply SFsqrt_not_nan.
  change (S754_zero false) with (Prim2SF 0).
  rewrite <- FloatAxioms.ltb_spec, <- FloatAxioms.eqb_spec.
  destruct Hsq as [H|H].
  - left. by rewrite sub_pos_iff.
  - right. pose proof H as H'. rewrite eqb_sym in H'. apply eqb_sub_zn in H'.
    unfold zero_or_nan in H'. apply orb_prop in H' as [H'|H']; [|done].
    apply isNaN_spec in H'. rewrite FloatAxioms.sub_spec in H'.
    exfalso. revert H'. apply SFsub_not_nan; [done|].
    rewrite FloatAxioms.eqb_spec in H. unfold SFeqb in H.
    change (Prim2SF 1) with (S754_finite false 4503599627370496 (-52)) in H.
    by destruct (Prim2SF (rho * rho)) as [s|[]| |s m e].
Qed.

(** ** The target correlation *)

Lemma nan_mul_l (a b : number) : isNaN a = true -> isNaN (a * b) = true.
Proof. zn_cases. Qed.

Section Target.
Variable parseFloat : string -> number.

Lemma rho_of_number (v : string) (d : number) :
  isNaN (parseFloat (or_default v "0.5")) = false -> isNaN d = false ->
  isNaN (target_of parseFloat v) = false
  /\ (target_of parseFloat v <? -0.95)%float = false
  /\ (0.95 <? target_of parseFloat v)%float = false
  /\ isNaN (rho_of (target_of parseFloat v) (jitter_of d)) = false
  /\ (rho_of (target_of parseFloat v) (jitter_of d) <? -0.98)%float = false
  /\ (0.98 <? rho_of (target_of parseFloat v) (jitter_of d))%float = false.
Proof.
  intros Hv Hd.
  destruct (clamp_range (-0.95) 0.95 (parseFloat (or_default v "0.5")))
    as (Ht & Hlo & Hhi); try done.
  fold (target_of parseFloat v) in Ht, Hlo, Hhi.
  do 3 (split; [done|]).
  apply clamp_range; try done.
  assert (Hfin : isFinite (target_of parseFloat v) = true)
    by (by apply (finite_between (-0.95) 0.95)).
  apply isFinite_spec in Hfin.
  apply isNaN_false. rewrite FloatAxioms.add_spec.
  apply SFadd_not_nan; [exact Hfin|].
  unfold jitter_of. rewrite FloatAxioms.mul_spec.
  apply SFmul_not_nan; [|by eexists _, _, _].
  rewrite FloatAxioms.sub_spec.
  apply SFsub_not_nan; [by apply isNaN_false|done].
Qed.

Lemma rho_of_nan (v : string) (d : number) :
  isNaN (parseFloat (or_default v "0.5")) = true ->
  rho_of (target_of parseFloat v) (jitter_of d) = nan.
Proof.
  intros Hv. unfold rho_of, target_of.
  rewrite (clamp_nan (-0.95) 0.95 _ Hv). by apply clamp_nan, nan_add_l.
Qed.

End Target.

(** ** Samples made of NaN *)

Lemma get_all_nan (a : list number) (i : nat) :
  Forall (fun v => isNaN v = true) a -> isNaN (get a i) = true.
Proof.
  intros Ha. unfold get. destruct (a !! i) as [v|] eqn:Hv; simpl; [|done].
  by apply (Forall_lookup_1 _ _ _ _ Ha Hv).
Qed.

Lemma kendall_counts_no_sign (x y : list number) :
  (forall p, zero_or_nan (pair_product x y p) = true) ->
  kendall_counts x y = (0, 0).
Proof.
  intros Hzn. rewrite kendall_counts_pairs, kendall_fold_counts. simpl.
  unfold count. rewrite !filter_none; [done| |].
  - apply Forall_forall. intros p _. apply (zn_not_pos _ (Hzn p)).
  - apply Forall_forall. intros p _. apply (zn_not_pos _ (Hzn p)).
Qed.

Lemma kendallTau_all_nan (x y : list number) :
  Forall (fun v => isNaN v = true) y ->
  2 <= length x -> (Z.of_nat (length x) < 2 ^ 32)%Z ->
  kendallTau x y = 0%float.
Proof.
  intros Hy Hn Hmax. unfold kendallTau.
  rewrite kendall_counts_no_sign.
  - change (of_nat 0 - of_nat 0)%float with 0%float.
    apply zero_over_pairs. lia.
  - intros p. unfold pair_product.
    by apply zn_mul_r, nan_is_zn, nan_sub_l, get_all_nan.
Qed.

Lemma mean_all_nan (a : list number) :
  Forall (fun v => isNaN v = true) a -> isNaN (mean a) = true.
Proof.
  intros Ha. unfold mean. destruct Ha as [|v a Hv Ha]; [done|].
  apply nan_div_l. simpl.
  apply (foldl_add_nan (fun v => v)). by apply nan_add_r.
Qed.

Lemma pearsonr_all_nan (x y : list number) :
  Forall (fun v => isNaN v = true) y -> isNaN (pearsonr x y) = true.
Proof.
  intros Hy. destruct (decide (length x <= 1)) as [Hle|Hgt].
  { by apply pearsonr_small. }
  unfold pearsonr. do 2 apply nan_div_l. unfold cov_loop.
  destruct (length x) as [|n] eqn:Hn; [lia|]. simpl.
  apply (foldl_add_nan (fun i => (get x i - mean x) * (get y i - mean y))%float).
  by apply nan_add_r, nan_mul_r, nan_sub_r, mean_all_nan.
Qed.

Section TargetNaN.
Variables (log cos : number -> number) (parseFloat parseInt : string -> number).

Lemma generateBivariateNormal_nan (n : nat) (src : source)
  (xs ys : list number) (rest : source) :
  generateBivariateNormal log cos n nan src = Some (xs, ys, rest) ->
  Forall (fun v => isNaN v = true) ys.
Proof.
  intros Hgen.
  apply gen_loop_spec in Hgen as (xs' & es' & _ & -> & _ & _ & _). simpl.
  apply Forall_lookup. intros i y Hy.
  apply lookup_zip_with_Some in Hy as (x & e & -> & _ & _).
  by apply nan_add_l, nan_mul_l.
Qed.

End TargetNaN.

(** ** The page: a new plot *)

Lemma points_of_lookup (xs ys : list number) (i : nat) :
  points_of xs ys !! i = (fun x => (x, ys !! i)) <$> xs !! i.
Proof. unfold points_of. by rewrite list_lookup_imap. Qed.

Lemma points_of_length (xs ys : list number) :
  length (points_of xs ys) = length xs.
Proof. unfold points_of. by rewrite length_imap. Qed.

Lemma checkGuesses_current (parseFloat : string -> number) (pg : page) :
  current (checkGuesses parseFloat pg) = current pg
  /\ inputs (checkGuesses parseFloat pg) = inputs pg.
Proof. unfold checkGuesses. by destruct (isNaN _ || isNaN _ || isNaN _). Qed.

Lemma generateBivariateNormal_lengths (log cos : number -> number) (n : nat)
  (rho : number) (src : source) (xs ys : list number) (rest : source) :
  generateBivariateNormal log cos n rho src = Some (xs, ys, rest) ->
  length xs = n /\ length ys = n.
Proof.
  intros Hgen.
  apply gen_loop_spec in Hgen as (xs' & es' & -> & -> & Hlx & Hle & _).
  simpl. rewrite length_zip_with. lia.
Qed.

Section PageFacts.
Variables (log cos : number -> number) (parseFloat parseInt : string -> number).

Abbreviation generate := (generateAndPlot log cos parseFloat parseInt).

(** What a call of [generateAndPlot] that returns has done. *)
Lemma generateAndPlot_spec (a a' : app) (src src' : source) :
  generate a src = Some (a', src') ->
  exists d src1 xs ys,
    src = d :: src1
    /\ generateBivariateNormal log cos
         (loop_rounds (sample_size parseInt (sampleSize_value a)))
         (rho_of (target_of parseFloat (targetR_value a)) (jitter_of d)) src1
       = Some (xs, ys, src')
    /\ a' = App (Round xs ys (pearsonr xs ys) (spearmanr xs ys) (kendallTau xs ys))
                (sampleSize_value a) (targetR_value a)
                (Fields (tolerance_value (guesses a))
                        EmptyString EmptyString EmptyString)
                (plotScatter xs ys (chart a) (chart_calls a)).1
                (plotScatter xs ys (chart a) (chart_calls a)).2
                (Some (PlotGenerated (sample_size parseInt (sampleSize_value a)))).
Proof.
  unfold generateAndPlot. destruct src as [|d src1]; [done|].
  destruct (generateBivariateNormal _ _ _ _ _) as [[[xs ys] src2]|] eqn:Hgen;
    simpl; [|done].
  destruct (plotScatter xs ys (chart a) (chart_calls a)) as [ch calls] eqn:Hp.
  intros [= <- <-]. exists d, src1, xs, ys. by rewrite Hp.
Qed.


Lemma generateAndPlot_lengths (a a' : app) (src src' : source) :
  generate a src = Some (a', src') ->
  length (xs (data a'))
  = loop_rounds (sample_size parseInt (sampleSize_value a))
  /\ length (ys (data a')) = length (xs (data a')).
Proof.
  intros (d & src1 & xs & ys & -> & Hgen & ->)%generateAndPlot_spec. simpl.
  apply generateBivariateNormal_lengths in Hgen as [-> ->]. done.
Qed.

(** X13: [generateAndPlot] returns as soon as [Math.random] supplies the draw of
    the jitter and then four non-zero draws for each observation (4000 of
    them are always enough); the new round has as many observations as the
    loop makes rounds, at most 1000; the tolerance, sample size and target
    inputs are kept and the three guesses cleared. *)
Theorem generateAndPlot_returns (a : app) (d : number) (rest : source) :
  4 * loop_rounds (sample_size parseInt (sampleSize_value a))
  <= count nonzero rest ->
  generate a [] = None
  /\ exists a' src',
       generate a (d :: rest) = Some (a', src')
       /\ length (xs (data a'))
          = loop_rounds (sample_size parseInt (sampleSize_value a))
       /\ length (ys (data a')) = length (xs (data a'))
       /\ length (xs (data a')) <= 1000
       /\ sampleSize_value a' = sampleSize_value a
       /\ targetR_value a' = targetR_value a
       /\ guesses a'
          = Fields (tolerance_value (guesses a)) EmptyString EmptyString EmptyString
       /\ result a'
          = Some (PlotGenerated (sample_size parseInt (sampleSize_value a))).
Proof.
  intros Hdraws. split; [done|].
  set (n := sample_size parseInt (sampleSize_value a)) in *.
  assert (Hr : loop_rounds n <= 1000) by apply loop_rounds_spec.
  destruct (gen_loop_total log cos (loop_rounds n)
              (rho_of (target_of parseFloat (targetR_value a)) (jitter_of d))
              (PrimFloat.sqrt
                 (1 - rho_of (target_of parseFloat (targetR_value a)) (jitter_of d)
                      * rho_of (target_of parseFloat (targetR_value a)) (jitter_of d)))
              [] [] rest ltac:(lia)) as [[[xs ys] src'] Hgen].
  destruct (generate a (d :: rest)) as [[a' src'']|] eqn:Hcall.
  - exists a', src''. split; [done|].
    destruct (generateAndPlot_lengths _ _ _ _ Hcall) as [Hlx Hly].
    apply generateAndPlot_spec in Hcall as (d' & src1 & xs' & ys' & _ & _ & ->).
    simpl in *. fold n in Hlx. repeat split; try done. lia.
  - unfold generateAndPlot in Hcall. fold n in Hcall.
    unfold generateBivariateNormal in Hcall. rewrite Hgen in Hcall. simpl in Hcall.
    by destruct (plotScatter xs ys (chart a) (chart_calls a)).
Qed.

(** X14: right after a new plot the three guess inputs are empty, so a submit
    is answered by the request to fill them; the round is not touched. *)
Theorem submit_after_new_plot (a a' : app) (src src' : source) :
  isNaN (parseFloat EmptyString) = true ->
  generate a src = Some (a', src') ->
  result (on_submit parseFloat a') = Some (Checked FillAllGuesses)
  /\ data (on_submit parseFloat a') = data a'
  /\ guesses (on_submit parseFloat a') = guesses a'.
Proof.
  intros Hempty (d & src1 & xs & ys & -> & Hgen & ->)%generateAndPlot_spec.
  unfold on_submit, page_of, checkGuesses. simpl. by rewrite Hempty.
Qed.

(** X15: a sample size that is not a number: the round has no observation at
    all, its three statistics are NaN, only the jitter draw is consumed,
    and no guess can win it. *)
Theorem sample_size_not_a_number (a a' : app) (src src' : source) :
  isNaN (parseInt (or_default (sampleSize_value a) "50")) = true ->
  generate a src = Some (a', src') ->
  xs (data a') = [] /\ ys (data a') = []
  /\ isNaN (pearson (data a')) = true
  /\ isNaN (spearman (data a')) = true
  /\ isNaN (kendall (data a')) = true
  /\ (exists d, src = d :: src')
  /\ (exists n, result a' = Some (PlotGenerated n) /\ isNaN n = true)
  /\ forall (f : fields) (fb : feedback) (r : report),
       resultDiv (checkGuesses parseFloat (Page (data a') f fb)) = Verdicts r ->
       pPass r = false /\ sPass r = false /\ kPass r = false
       /\ allPass r = false.
Proof.
  intros Hnan Hcall.
  destruct (sample_size_spec parseInt (sampleSize_value a)) as [Hn _].
  destruct (Hn Hnan) as [Hnn Hr].
  apply generateAndPlot_spec in Hcall as (d & src1 & xs & ys & -> & Hgen & ->).
  rewrite Hr in Hgen. simpl in Hgen. injection Hgen as <- <- <-. simpl.
  do 5 (split; [done|]). split; [by exists d|]. split; [by eexists|].
  intros f fb r. unfold checkGuesses.
  destruct (isNaN _ || isNaN _ || isNaN _); simpl; [done|].
  intros [= <-]. simpl.
  assert (Hw : forall g t, (abs (g - nan) <=? t)%float = false).
  { intros g t. by apply nan_leb, nan_abs, nan_sub_r. }
  change (pearsonr [] []) with nan. change (spearmanr [] []) with nan.
  change (kendallTau [] []) with nan.
  by rewrite !Hw.
Qed.

End PageFacts.

Lemma generateAndPlot_returns_witness :
  exists a' src',
    generateAndPlot log_approx cos_approx (parse_table demo_table)
      (parse_table size_table) demo_app (0.5%float :: demo_draws 10)
    = Some (a', src')
    /\ length (xs (data a')) <= 1000.
Proof.
  destruct (generateAndPlot_returns log_approx cos_approx
              (parse_table demo_table) (parse_table size_table)
              demo_app 0.5%float (demo_draws 10))
    as [_ (a' & src' & Hcall & _ & _ & Hle & _)].
  - vm_compute. lia.
  - by exists a', src'.
Defined.

Lemma submit_after_new_plot_witness :
  result (on_submit (parse_table demo_table) demo_first.1)
  = Some (Checked FillAllGuesses).
Proof.
  apply (submit_after_new_plot log_approx cos_approx (parse_table demo_table)
           (parse_table size_table) demo_app demo_first.1
           (demo_draws 30) demo_first.2).
  - reflexivity.
  - vm_compute. reflexivity.
Defined.

Lemma sample_size_not_a_number_witness :
  exists a' src',
    generateAndPlot log_approx cos_approx (parse_table demo_table)
      (parse_table demo_table) demo_app [0.5%float; 0.25%float]
    = Some (a', src')
    /\ isNaN (pearson (data a')) = true.
Proof.
  eexists _, _. split; [reflexivity|].
  eapply (sample_size_not_a_number log_approx cos_approx (parse_table demo_table)
            (parse_table demo_table) demo_app _ [0.5%float; 0.25%float]);
    reflexivity.
Defined.

Section TargetFacts.
Variables (log cos : number -> number) (parseFloat parseInt : string -> number).

(** X16: a target correlation that is not a number: every [y] of the new round
    is NaN and so is its Pearson coefficient, while for a numeric sample
    size Kendall's tau of the round is 0. *)
Theorem target_not_a_number (a a' : app) (src src' : source) :
  isNaN (parseFloat (or_default (targetR_value a) "0.5")) = true ->
  generateAndPlot log cos parseFloat parseInt a src = Some (a', src') ->
  Forall (fun v => isNaN v = true) (ys (data a'))
  /\ isNaN (pearson (data a')) = true
  /\ (isNaN (parseInt (or_default (sampleSize_value a) "50")) = false ->
      10 <= length (ys (data a')) /\ kendall (data a') = 0%float).
Proof.
  intros Hnan Hcall.
  destruct (generateAndPlot_lengths _ _ _ _ _ _ _ _ Hcall) as [Hlx Hly].
  assert (Hlen : isNaN (parseInt (or_default (sampleSize_value a) "50")) = false ->
            10 <= length (ys (data a')) <= 1000).
  { intros Hsize.
    destruct (sample_size_spec parseInt (sampleSize_value a)) as (_ & Hn & _).
    destruct (Hn Hsize) as (_ & _ & _ & Hr). lia. }
  clear Hlx.
  apply generateAndPlot_spec in Hcall as (d & src1 & xs' & ys' & -> & Hgen & ->).
  rewrite (rho_of_nan parseFloat _ d Hnan) in Hgen.
  apply generateBivariateNormal_nan in Hgen. cbn [data xs ys kendall pearson] in *.
  split; [done|]. split; [by apply pearsonr_all_nan|].
  intros Hsize. specialize (Hlen Hsize).
  split; [lia|]. apply kendallTau_all_nan; [done|lia|lia].
Qed.

(** X17: a numeric target: the target is clamped to [-0.95, 0.95], the
    correlation [rho] used by the generator to [-0.98, 0.98] whatever the
    jitter, and the weight [sqrt(1 - rho * rho)] of the noise is a number. *)
Theorem mixing_weights_numbers (v : string) (d : number) :
  isNaN (parseFloat (or_default v "0.5")) = false -> isNaN d = false ->
  isNaN (target_of parseFloat v) = false
  /\ (target_of parseFloat v <? -0.95)%float = false
  /\ (0.95 <? target_of parseFloat v)%float = false
  /\ isNaN (rho_of (target_of parseFloat v) (jitter_of d)) = false
  /\ (rho_of (target_of parseFloat v) (jitter_of d) <? -0.98)%float = false
  /\ (0.98 <? rho_of (target_of parseFloat v) (jitter_of d))%float = false
  /\ isNaN (PrimFloat.sqrt
              (1 - rho_of (target_of parseFloat v) (jitter_of d)
                   * rho_of (target_of parseFloat v) (jitter_of d))) = false.
Proof.
  intros Hv Hd.
  destruct (rho_of_number parseFloat v d Hv Hd) as (H1 & H2 & H3 & H4 & H5 & H6).
  do 6 (split; [assumption|]). by apply noise_weight_number.
Qed.

End TargetFacts.

Lemma target_not_a_number_witness :
  isNaN (pearson (data demo_no_target.1)) = true
  /\ kendall (data demo_no_target.1) = 0%float.
Proof.
  destruct (target_not_a_number log_approx cos_approx (parse_table size_table)
              (parse_table size_table) demo_app demo_no_target.1
              (demo_draws 30) demo_no_target.2)
    as (_ & Hp & Hk).
  - reflexivity.
  - vm_compute. reflexivity.
  - split; [exact Hp|]. apply Hk. reflexivity.
Defined.

Lemma mixing_weights_numbers_witness :
  isNaN (PrimFloat.sqrt
           (1 - rho_of (target_of (parse_table demo_table) "0.55") (jitter_of 0.25)
                * rho_of (target_of (parse_table demo_table) "0.55") (jitter_of 0.25)))
  = false.
Proof.
  apply (mixing_weights_numbers (parse_table demo_table) "0.55" 0.25%float);
    reflexivity.
Defined.

(** ** The page: what every run keeps *)

(** Against a [ys] at least as long as [xs], every plotted point has both
    coordinates. *)
Lemma points_of_paired (xs ys : list number) :
  length xs <= length ys -> Forall (fun p => is_Some p.2) (points_of xs ys).
Proof.
  intros Hlen. apply Forall_lookup. intros i p Hp.
  rewrite points_of_lookup in Hp.
  destruct (xs !! i) as [x|] eqn:Hx; simpl in Hp; [|done].
  injection Hp as <-. simpl. apply lookup_lt_is_Some_2.
  apply lookup_lt_Some in Hx. lia.
Qed.

Section Events.
Variables (log cos : number -> number) (parseFloat parseInt : string -> number).

Lemma generateAndPlot_in_step (a a' : app) (src src' : source) :
  (chart a = None /\ chart_calls a = []) \/ in_step a ->
  generateAndPlot log cos parseFloat parseInt a src = Some (a', src') ->
  in_step a'.
Proof.
  intros Ha Hcall.
  destruct (generateAndPlot_lengths _ _ _ _ _ _ _ _ Hcall) as [Hlx Hly].
  assert (Hle : length (xs (data a')) <= 1000).
  { rewrite Hlx. apply loop_rounds_spec. }
  apply generateAndPlot_spec in Hcall as (d & src1 & xs & ys & -> & Hgen & ->).
  unfold in_step. simpl in *. do 5 (split; [done|]).
  unfold plotScatter.
  destruct Ha as [[-> ->]|(_ & _ & _ & _ & _ & -> & first & later & -> & _)];
    simpl.
  - split; [done|]. by exists (points_of xs ys), [].
  - split; [done|]. exists first, (later ++ [points_of xs ys]).
    split; [by rewrite fmap_app|].
    by rewrite app_comm_cons, last_snoc.
Qed.

Lemma step_in_step (ev : event) (st st' : app * source) :
  in_step st.1 ->
  step log cos parseFloat parseInt ev st = Some st' -> in_step st'.1.
Proof.
  intros Hin. destruct ev as [| |sz tr f]; simpl.
  - destruct st' as [a' src']. intros Hcall.
    eapply generateAndPlot_in_step; [by right|exact Hcall].
  - intros [= <-]. unfold in_step, on_submit in *. simpl.
    destruct (checkGuesses_current parseFloat (page_of st.1)) as [-> _].
    exact Hin.
  - intros [= <-]. exact Hin.
Qed.

(** X18: once the script has run, whatever the user does (new plots, submits,
    edits of the inputs), the page stays in step: the stored statistics are
    those of the stored sample, which is paired and has at most 1000
    observations; the chart shows the points of that sample, each with both
    coordinates; and Chart.js was asked for a chart once, every later plot
    being an update. *)
Theorem page_in_step (sampleSize targetR : string) (f : fields)
  (src : source) (evs : list event) (st0 st : app * source) :
  start log cos parseFloat parseInt sampleSize targetR f src = Some st0 ->
  run log cos parseFloat parseInt evs st0 = Some st ->
  in_step st.1
  /\ exists pts,
       chart st.1 = Some pts
       /\ length pts = length (xs (data st.1))
       /\ Forall (fun p => is_Some p.2) pts.
Proof.
  intros Hstart Hrun.
  assert (Hin : in_step st.1); [|split; [done|]].
  2: { destruct Hin as (_ & _ & _ & Hlen & _ & Hch & _).
       eexists. split; [exact Hch|]. split; [apply points_of_length|].
       apply points_of_paired. lia. }
  assert (H0 : in_step st0.1).
  { destruct st0 as [a0 src0]. unfold start in Hstart.
    eapply generateAndPlot_in_step; [|exact Hstart]. by left. }
  clear Hstart. revert st0 H0 Hrun.
  induction evs as [|ev evs IH]; intros st0 H0; simpl.
  - by intros [= <-].
  - destruct (step log cos parseFloat parseInt ev st0) as [st1|] eqn:Hstep;
      simpl; [|done].
    apply IH. by eapply step_in_step.
Qed.

End Events.

Lemma page_in_step_witness : in_step demo_last.1.
Proof.
  eapply proj1. apply (page_in_step log_approx cos_approx (parse_table demo_table)
           (parse_table size_table) "10" "0.55"
           (Fields "0.1" "0.55" "0.40" "0.25") (demo_draws 30)
           [Submit; Edit "10" "0.25" (Fields "0.1" "0.55" "0.40" "0.25"); Submit;
            Click; Submit]
           demo_first demo_last).
  - vm_compute. reflexivity.
  - vm_compute. reflexivity.
Defined.
